(** * logGear: record dispatch engine and buffered rotating file sink

    A shallow embedding of [src/logger/logger.ts],
    [src/streams/fileStream/fileStream.ts] and
    [src/streams/fileStream/rotationStrategy.ts], with the properties the
    specification states about them.

    Conventions.
    - A JavaScript [number] used as an ordinal, a size or a count is a [Z]
      or a [nat]; a string is a [string]; a [Uint8Array] is a [list byte].
    - A method with side effects is a function in the monad [M St]: it takes
      the state it can reach and returns a [result] with the state it left
      behind.  An exception is the result [Throw], and the state is the one
      at the point of the [throw].
    - Object identity ([===] on sinks, filters, ...) is an explicit
      identifier carried by the record that models the object. *)

From Stdlib Require Import ZArith Lia.
From stdpp Require Import base option list gmap strings pretty.

Open Scope Z_scope.

(** ** Results and the state-and-exception monad *)

(** Values a [throw] can carry in the modelled code. *)
Inductive JsError :=
  | Error (message : string)         (* new Error(message) *)
  | NotFound (path : string)         (* Deno.errors.NotFound *)
  | AlreadyExists (path : string)    (* Deno.errors.AlreadyExists *)
  | TypeError (message : string).    (* e.g. a method call on undefined *)

(** [Diverge] is the answer of a recursion that was cut off by its fuel; no
    other construct produces it. *)
Inductive result (A : Type) :=
  | Ok (a : A)
  | Throw (e : JsError)
  | Diverge.
Arguments Ok {A} a.
Arguments Throw {A} e.
Arguments Diverge {A}.

Definition M (St A : Type) : Type := St → result A * St.

Definition ret {St A} (a : A) : M St A := λ s, (Ok a, s).

Definition bind {St A B} (c : M St A) (k : A → M St B) : M St B :=
  λ s, match c s with
       | (Ok a, s') => k a s'
       | (Throw e, s') => (Throw e, s')
       | (Diverge, s') => (Diverge, s')
       end.

Definition throw {St A} (e : JsError) : M St A := λ s, (Throw e, s).
Definition get {St} : M St St := λ s, (Ok s, s).
Definition modify {St} (f : St → St) : M St unit := λ s, (Ok tt, f s).

Notation "x <- c ;; k" := (bind c (λ x, k))
  (at level 100, c at next level, right associativity).
Notation "c ;;; k" := (bind c (λ _, k))
  (at level 100, right associativity).

Lemma bind_ret_l {St A B} (a : A) (k : A → M St B) s :
  bind (ret a) k s = k a s.
Proof. reflexivity. Qed.

Lemma bind_Ok {St A B} (c : M St A) (k : A → M St B) s a s' :
  c s = (Ok a, s') → bind c k s = k a s'.
Proof. intros H. unfold bind. by rewrite H. Qed.

Lemma bind_Throw {St A B} (c : M St A) (k : A → M St B) s e s' :
  c s = (Throw e, s') → bind c k s = (Throw e, s').
Proof. intros H. unfold bind. by rewrite H. Qed.

Lemma bind_Diverge {St A B} (c : M St A) (k : A → M St B) s s' :
  c s = (Diverge, s') → bind c k s = (Diverge, s').
Proof. intros H. unfold bind. by rewrite H. Qed.

Lemma bind_diverges {St A B} (c : M St A) (k : A → M St B) s :
  (c s).1 = Diverge → (bind c k s).1 = Diverge.
Proof. unfold bind. destruct (c s) as [[a| |] s']; simpl; congruence. Qed.

Lemma bind_assoc {St A B C} (c : M St A) (k : A → M St B) (h : B → M St C) s :
  bind (bind c k) h s = bind c (λ a, bind (k a) h) s.
Proof. unfold bind. destruct (c s) as [[a| |] s']; reflexivity. Qed.

(** ** Levels and records ([src/types.ts]) *)

(** [Level] is a numeric enum; levels are compared with [>] on numbers. *)
Definition Level := Z.

(** The members of the enum [Level] ([levels.ts] is not among the sources, so
    their ordinals are taken as given wherever a definition needs one). *)
Record Levels := {
  DEBUG : Level;
  INFO : Level;
  WARNING : Level;
  ERROR : Level;
  CRITICAL : Level;
}.

Record LogRecord (V : Type) := {
  msg : V;
  metadata : list V;
  dateTime : Z;
  level : Level;
}.
Arguments msg {V} _.
Arguments metadata {V} _.
Arguments dateTime {V} _.
Arguments level {V} _.

Record LogMeta := {
  minLogLevel : Level;
  minLogLevelFrom : string;
  sessionStarted : Z;
  hostname : string;
}.

(** ** The dispatch engine ([src/logger/logger.ts]) *)

Module Logger.
Section Dispatch.

(** [V] is the type of JavaScript values used as messages and metadata.  [W]
    is whatever state the registered handlers (sinks, filters, obfuscators,
    triggers, message suppliers) read and write; the engine never looks
    inside it.  A handler is a function on [W] that returns or throws.
    Handlers do not call back into the logger they are registered with, so
    the lists the loops of [logToStreams] index are the ones read when the
    call starts. *)
Context {V W : Type}.

(** Reading of the clock by [new Date()]. *)
Variable clock : W → Z.
(** The enum members used by [debug], [info], ... *)
Variable L : Levels.

Definition Handler (A : Type) : Type := W → result A * W.

(** [interface Stream]: the four lifecycle hooks are optional members. *)
Record Stream := {
  sid : nat;
  logHeader : option (LogMeta → Handler unit);
  logFooter : option (LogMeta → Handler unit);
  setup : option (Handler unit);
  destroy : option (Handler unit);
  handle : LogRecord V → Handler unit;
}.

Record Trigger := {
  tid : nat;
  check : LogRecord V → Handler unit;
}.

Record Filter := {
  fid : nat;
  shouldFilterOut : Stream → LogRecord V → Handler bool;
}.

Record Obfuscator := {
  oid : nat;
  obfuscate : Stream → LogRecord V → Handler (LogRecord V);
}.

(** The [msg] argument of the logging methods: [msg instanceof Function]
    tells a supplier from a plain value. *)
Inductive MsgArg :=
  | Supplier (f : Handler V)
  | Value (v : V).

(** The private fields of [class Logger]. *)
Record Logger := {
  minLevel : Level;
  streams : list Stream;
  filters : list Filter;
  triggers : list Trigger;
  obfuscators : list Obfuscator;
  streamAdded : bool;
  meta : LogMeta;
}.

(** Every call the engine makes into a handler is recorded, in call order. *)
Inductive Event :=
  | EvSupplier
  | EvCheck (t : nat) (r : LogRecord V)
  | EvFilter (f : nat) (s : nat) (r : LogRecord V)
  | EvObfuscate (o : nat) (s : nat) (r : LogRecord V)
  | EvHandle (s : nat) (r : LogRecord V)
  | EvSetup (s : nat)
  | EvHeader (s : nat) (m : LogMeta)
  | EvFooter (s : nat) (m : LogMeta)
  | EvDestroy (s : nat).

Record State := {
  logger : Logger;
  world : W;
  trace : list Event;
}.

Definition setLogger (f : Logger → Logger) : M State unit :=
  λ σ, (Ok tt, {| logger := f (logger σ); world := world σ; trace := trace σ |}).

(** [call ev h]: the engine invokes handler [h]; the invocation is recorded
    whether [h] returns or throws. *)
Definition call {A} (ev : Event) (h : Handler A) : M State A :=
  λ σ, let (res, w) := h (world σ) in
       (res, {| logger := logger σ; world := w; trace := trace σ ++ [ev] |}).

(** [if (hook) hook(...)] for an optional member. *)
Definition callIfPresent (ev : Event) (h : option (Handler unit)) : M State unit :=
  match h with
  | Some f => call ev f
  | None => ret tt
  end.

(** [stream !== removeStream] *)
Definition sameStream (a b : Stream) : bool := Nat.eqb (sid a) (sid b).

Definition withLevel (lv : Level) : M State unit :=
  setLogger (λ lg,
    {| minLevel := lv; streams := streams lg; filters := filters lg;
       triggers := triggers lg; obfuscators := obfuscators lg;
       streamAdded := streamAdded lg;
       meta := {| minLogLevel := lv; minLogLevelFrom := "logger.level()";
                  sessionStarted := sessionStarted (meta lg);
                  hostname := hostname (meta lg) |} |}).

Definition setStreams (f : list Stream → list Stream) (added : bool → bool) :
    M State unit :=
  setLogger (λ lg,
    {| minLevel := minLevel lg; streams := f (streams lg); filters := filters lg;
       triggers := triggers lg; obfuscators := obfuscators lg;
       streamAdded := added (streamAdded lg); meta := meta lg |}).

Definition addStream (stream : Stream) : M State unit :=
  σ <- get ;;
  setStreams (λ l, (if streamAdded (logger σ) then l else []) ++ [stream])
             (λ _, true) ;;;
  callIfPresent (EvSetup (sid stream)) (setup stream) ;;;
  callIfPresent (EvHeader (sid stream) (meta (logger σ)))
                ((λ h, h (meta (logger σ))) <$> logHeader stream).

Definition removeStream (removeStream : Stream) : M State unit :=
  σ <- get ;;
  setStreams (filter (λ stream, sameStream stream removeStream = false)) id ;;;
  callIfPresent (EvFooter (sid removeStream) (meta (logger σ)))
                ((λ h, h (meta (logger σ))) <$> logFooter removeStream) ;;;
  callIfPresent (EvDestroy (sid removeStream)) (destroy removeStream).

Definition addFilter (f : Filter) : M State unit :=
  setLogger (λ lg,
    {| minLevel := minLevel lg; streams := streams lg;
       filters := filters lg ++ [f];
       triggers := triggers lg; obfuscators := obfuscators lg;
       streamAdded := streamAdded lg; meta := meta lg |}).

Definition removeFilter (f : Filter) : M State unit :=
  setLogger (λ lg,
    {| minLevel := minLevel lg; streams := streams lg;
       filters := filter (λ g, Nat.eqb (fid g) (fid f) = false) (filters lg);
       triggers := triggers lg; obfuscators := obfuscators lg;
       streamAdded := streamAdded lg; meta := meta lg |}).

Definition addObfuscator (o : Obfuscator) : M State unit :=
  setLogger (λ lg,
    {| minLevel := minLevel lg; streams := streams lg; filters := filters lg;
       triggers := triggers lg; obfuscators := obfuscators lg ++ [o];
       streamAdded := streamAdded lg; meta := meta lg |}).

Definition addTrigger (t : Trigger) : M State unit :=
  setLogger (λ lg,
    {| minLevel := minLevel lg; streams := streams lg; filters := filters lg;
       triggers := triggers lg ++ [t]; obfuscators := obfuscators lg;
       streamAdded := streamAdded lg; meta := meta lg |}).

(** [new ImmutableLogRecord(resolvedMsg, metadata, level)]: the constructor
    ([logRecord.ts], not among the sources) stamps the record with the
    current time. *)
Definition ImmutableLogRecord (m : V) (md : list V) (lv : Level) : M State (LogRecord V) :=
  σ <- get ;;
  ret {| msg := m; metadata := md; dateTime := clock (world σ); level := lv |}.

(** [for (i...) this.#triggers[i].check(logRecord)] *)
Fixpoint checkTriggers (ts : list Trigger) (logRecord : LogRecord V) : M State unit :=
  match ts with
  | [] => ret tt
  | t :: ts' =>
      call (EvCheck (tid t) logRecord) (check t logRecord) ;;;
      checkTriggers ts' logRecord
  end.

(** [for (j = 0; j < filters.length && !skip; j++)
       if (filters[j].shouldFilterOut(stream, logRecord)) skip = true;]
    The result is the value of [skip] after the loop. *)
Fixpoint applyFilters (fl : list Filter) (stream : Stream)
    (logRecord : LogRecord V) (skip : bool) : M State bool :=
  match fl with
  | [] => ret skip
  | f :: fl' =>
      if skip then ret skip
      else
        out <- call (EvFilter (fid f) (sid stream) logRecord)
                    (shouldFilterOut f stream logRecord) ;;
        applyFilters fl' stream logRecord (if out then true else skip)
  end.

(** [for (j = 0; j < obfuscators.length && !skip; j++)
       logRecord = obfuscators[j].obfuscate(stream, logRecord);]
    The result is the value of [logRecord] after the loop. *)
Fixpoint applyObfuscators (ol : list Obfuscator) (stream : Stream)
    (logRecord : LogRecord V) (skip : bool) : M State (LogRecord V) :=
  match ol with
  | [] => ret logRecord
  | o :: ol' =>
      if skip then ret logRecord
      else
        logRecord' <- call (EvObfuscate (oid o) (sid stream) logRecord)
                           (obfuscate o stream logRecord) ;;
        applyObfuscators ol' stream logRecord' skip
  end.

(** One iteration of the sink loop: the body run for [stream] with the
    current value of the variable [logRecord]; it returns the value the
    variable has at the end of the iteration. *)
Definition processStream (fl : list Filter) (ol : list Obfuscator)
    (stream : Stream) (logRecord : LogRecord V) : M State (LogRecord V) :=
  skip <- applyFilters fl stream logRecord false ;;
  logRecord' <- applyObfuscators ol stream logRecord skip ;;
  (if skip then ret tt
   else call (EvHandle (sid stream) logRecord') (handle stream logRecord')) ;;;
  ret logRecord'.

(** [for (i = 0; i < streams.length; i++) { ... }]: the variable [logRecord]
    is declared outside the loop and lives across its iterations. *)
Fixpoint processStreams (fl : list Filter) (ol : list Obfuscator)
    (sl : list Stream) (logRecord : LogRecord V) : M State (LogRecord V) :=
  match sl with
  | [] => ret logRecord
  | stream :: sl' =>
      logRecord' <- processStream fl ol stream logRecord ;;
      processStreams fl ol sl' logRecord'
  end.

(** [Logger.logToStreams].  [None] is JavaScript's [undefined]. *)
Definition logToStreams (lv : Level) (m : MsgArg) (md : list V) : M State (option V) :=
  σ <- get ;;
  let this := logger σ in
  if minLevel this >? lv then
    ret (match m with Supplier _ => None | Value v => Some v end)
  else
    resolvedMsg <- match m with
                   | Supplier f => call EvSupplier f
                   | Value v => ret v
                   end ;;
    logRecord <- ImmutableLogRecord resolvedMsg md lv ;;
    checkTriggers (triggers this) logRecord ;;;
    processStreams (filters this) (obfuscators this) (streams this) logRecord ;;;
    ret (Some resolvedMsg).

Definition debug := logToStreams (DEBUG L).
Definition info := logToStreams (INFO L).
Definition warning := logToStreams (WARNING L).
Definition error := logToStreams (ERROR L).
Definition critical := logToStreams (CRITICAL L).
Definition log (lv : Level) := logToStreams lv.

(** The six public logging methods, as one entry point. *)
Inductive Method :=
  | MLog (lv : Level) | MDebug | MInfo | MWarning | MError | MCritical.

Definition methodLevel (m : Method) : Level :=
  match m with
  | MLog lv => lv
  | MDebug => DEBUG L
  | MInfo => INFO L
  | MWarning => WARNING L
  | MError => ERROR L
  | MCritical => CRITICAL L
  end.

Definition invoke (m : Method) : MsgArg → list V → M State (option V) :=
  match m with
  | MLog lv => log lv
  | MDebug => debug
  | MInfo => info
  | MWarning => warning
  | MError => error
  | MCritical => critical
  end.

(** *** Properties of the dispatch engine *)

(** The sink an event is addressed to. *)
Definition eventSink (e : Event) : option nat :=
  match e with
  | EvFilter _ s _ | EvObfuscate _ s _ | EvHandle s _ => Some s
  | EvSetup s | EvHeader s _ | EvFooter s _ | EvDestroy s => Some s
  | EvSupplier | EvCheck _ _ => None
  end.

(** What sink [s] observes in a trace: the calls addressed to it, in order. *)
Definition sinkEvents (s : nat) (tr : list Event) : list Event :=
  filter (λ e, eventSink e = Some s) tr.

(** The records that the filter chain, the obfuscator chain and [handle]
    receive for sink [s]: the record of the first filter call, of the first
    obfuscator call and of the handle call addressed to [s]. *)
Definition filterInput (s : nat) (tr : list Event) : option (LogRecord V) :=
  head (omap (λ e, match e with
                   | EvFilter _ s' r => if Nat.eqb s' s then Some r else None
                   | _ => None end) tr).
Definition obfuscatorInput (s : nat) (tr : list Event) : option (LogRecord V) :=
  head (omap (λ e, match e with
                   | EvObfuscate _ s' r => if Nat.eqb s' s then Some r else None
                   | _ => None end) tr).
Definition handled (s : nat) (tr : list Event) : option (LogRecord V) :=
  head (omap (λ e, match e with
                   | EvHandle s' r => if Nat.eqb s' s then Some r else None
                   | _ => None end) tr).

(** Sink [s2] receives, in its filter chain, in its obfuscator chain and in
    its [handle] call, the record that the obfuscator chain of [s1] produced
    (the record [s1] was handed). *)
Definition receivesOutputOf (s1 s2 : nat) (tr : list Event) : Prop :=
  ∃ r1, handled s1 tr = Some r1 ∧
        filterInput s2 tr = Some r1 ∧
        obfuscatorInput s2 tr = Some r1 ∧
        handled s2 tr = Some r1.

(** Every sink of [mid] is filtered out for record [r], taking the state
    from [σ] to [σ']. *)
Fixpoint allSkipped (fl : list Filter) (mid : list Stream) (r : LogRecord V)
    (σ σ' : State) : Prop :=
  match mid with
  | [] => σ = σ'
  | s :: mid' =>
      ∃ σm, applyFilters fl s r false σ = (Ok true, σm) ∧ allSkipped fl mid' r σm σ'
  end.

(** A handler that returns normally with an answer that does not depend on
    the state it runs in. *)
Definition answers {A} (h : Handler A) (a : A) : Prop :=
  ∀ w, (h w).1 = Ok a.

Definition agreeOff (a : nat) (f f' : Filter) : Prop :=
  fid f = fid f' ∧
  ∀ s r w, sid s ≠ a → shouldFilterOut f s r w = shouldFilterOut f' s r w.


(** **** Basic facts about the loops *)

Lemma call_spec {A} (ev : Event) (h : Handler A) (σ : State) :
  call ev h σ =
  ((h (world σ)).1,
   {| logger := logger σ; world := (h (world σ)).2; trace := trace σ ++ [ev] |}).
Proof. unfold call. by destruct (h (world σ)). Qed.

Lemma applyFilters_skip fl s r (σ : State) :
  applyFilters fl s r true σ = (Ok true, σ).
Proof. by destruct fl. Qed.

Lemma applyObfuscators_skip ol s r (σ : State) :
  applyObfuscators ol s r true σ = (Ok r, σ).
Proof. by destruct ol. Qed.

Lemma applyFilters_app fl1 fl2 s r skip (σ : State) :
  applyFilters (fl1 ++ fl2) s r skip σ =
  (b <- applyFilters fl1 s r skip ;; applyFilters fl2 s r b) σ.
Proof.
  revert skip σ. induction fl1 as [|f fl1 IH]; intros skip σ.
  - reflexivity.
  - simpl. destruct skip.
    + unfold bind, ret. by rewrite applyFilters_skip.
    + unfold bind in *.
      destruct (call _ _ σ) as [[out| |] σ1]; [apply IH|done..].
Qed.

(** A filter chain that ends with [skip = false] evaluated every filter. *)
Lemma applyFilters_false fl s r (σ σ1 : State) :
  applyFilters fl s r false σ = (Ok false, σ1) →
  trace σ1 = trace σ ++ map (λ g, EvFilter (fid g) (sid s) r) fl ∧
  logger σ1 = logger σ.
Proof.
  revert σ. induction fl as [|f fl IH]; intros σ H.
  - inversion H. by rewrite app_nil_r.
  - simpl in H. unfold bind in H. rewrite call_spec in H.
    destruct (shouldFilterOut f s r (world σ)) as [[[|]| |] w]; simpl in H;
      try discriminate.
    + by rewrite applyFilters_skip in H.
    + apply IH in H as [-> ->]. simpl. by rewrite <- app_assoc.
Qed.

Lemma processStreams_app fl ol sl1 sl2 r (σ : State) :
  processStreams fl ol (sl1 ++ sl2) r σ =
  (r' <- processStreams fl ol sl1 r ;; processStreams fl ol sl2 r') σ.
Proof.
  revert r σ. induction sl1 as [|s sl1 IH]; intros r σ.
  - reflexivity.
  - simpl. unfold bind in *.
    destruct (processStream fl ol s r σ) as [[r'| |] σ1]; [apply IH|done..].
Qed.

(** A sink that is filtered out leaves the record as it was. *)
Lemma processStream_skipped fl ol s r (σ σ1 : State) :
  applyFilters fl s r false σ = (Ok true, σ1) →
  processStream fl ol s r σ = (Ok r, σ1).
Proof.
  intros H. unfold processStream. rewrite (bind_Ok _ _ _ _ _ H).
  unfold bind. by rewrite applyObfuscators_skip.
Qed.

(** **** The level gate *)

(** C3. Lazy level gate: a call to log/debug/info/warning/error/critical
    whose level is strictly below the configured minimum returns
    [undefined] for a supplier and the value itself for a plain value, and
    leaves the state as it was: the handlers' world is untouched and no call
    was recorded, so neither the supplier nor any trigger, filter, obfuscator
    or sink was invoked. *)
Theorem lazy_level_gate (σ : State) (m : Method) (a : MsgArg) (md : list V) :
  methodLevel m < minLevel (logger σ) →
  invoke m a md σ =
  (Ok (match a with Supplier _ => None | Value v => Some v end), σ).
Proof.
  intros Hlt. apply Z.gtb_lt in Hlt.
  destruct m; simpl in *;
    unfold log, debug, info, warning, error, critical, logToStreams, bind, get;
    by rewrite Hlt.
Qed.

(** **** Filters within one sink *)

(** C8. Filter short-circuit: when the filters registered before [f] let the
    record through for sink [s] and [f] answers "filter out", the iteration
    for [s] ends in a state whose trace has grown by exactly the filter calls
    up to and including [f] (no later filter, no obfuscator and no [handle]
    for [s]), the record is unchanged, and the loop goes on with the
    remaining sinks from there. *)
Theorem filter_short_circuit fl1 f fl2 ol s rest r (σ σ1 : State) w2 :
  applyFilters fl1 s r false σ = (Ok false, σ1) →
  shouldFilterOut f s r (world σ1) = (Ok true, w2) →
  let σ2 := {| logger := logger σ; world := w2;
               trace := trace σ ++ map (λ g, EvFilter (fid g) (sid s) r) (fl1 ++ [f]) |} in
  processStream (fl1 ++ f :: fl2) ol s r σ = (Ok r, σ2) ∧
  processStreams (fl1 ++ f :: fl2) ol (s :: rest) r σ =
  processStreams (fl1 ++ f :: fl2) ol rest r σ2.
Proof.
  intros H1 Hf σ2.
  assert (Hs : processStream (fl1 ++ f :: fl2) ol s r σ = (Ok r, σ2)).
  { apply processStream_skipped. rewrite applyFilters_app.
    rewrite (bind_Ok _ _ _ _ _ H1). simpl. unfold bind. rewrite call_spec, Hf.
    simpl. rewrite applyFilters_skip. f_equal.
    apply applyFilters_false in H1 as [Ht Hl]. unfold σ2.
    rewrite Hl, Ht, map_app, app_assoc. reflexivity. }
  split; [exact Hs|]. simpl. by rewrite (bind_Ok _ _ _ _ _ Hs).
Qed.

(** **** Obfuscation across sinks *)

Lemma allSkipped_processStreams fl ol mid r (σ σ' : State) :
  allSkipped fl mid r σ σ' →
  processStreams fl ol mid r σ = (Ok r, σ').
Proof.
  revert σ. induction mid as [|s mid IH]; simpl; intros σ H.
  - by subst.
  - destruct H as (σm & Hs & Hrest).
    rewrite (bind_Ok _ _ _ _ _ (processStream_skipped fl ol s r σ σm Hs)).
    by apply IH.
Qed.

(** C1, as amended. Obfuscation accumulates across sinks in registration
    order: when sink [s1] is not filtered out and its obfuscator chain
    produces [r1], and every sink registered between [s1] and [s2] is
    filtered out (in particular when [s2] comes right after [s1]), then the
    iteration for [s2] starts from [r1]: the filter chain of [s2] is
    evaluated on [r1], its obfuscator chain starts from [r1], and its
    [handle] receives what that chain makes of [r1]. *)
Theorem obfuscation_carries_forward fl ol pre s1 mid s2 post r
    (σ σ0 σ1 σ2 σ3 σ4 : State) r0 r1 :
  processStreams fl ol pre r σ = (Ok r0, σ0) →
  applyFilters fl s1 r0 false σ0 = (Ok false, σ1) →
  applyObfuscators ol s1 r0 false σ1 = (Ok r1, σ2) →
  call (EvHandle (sid s1) r1) (handle s1 r1) σ2 = (Ok tt, σ3) →
  allSkipped fl mid r1 σ3 σ4 →
  processStreams fl ol (pre ++ s1 :: mid ++ s2 :: post) r σ =
  (skip <- applyFilters fl s2 r1 false ;;
   r2 <- applyObfuscators ol s2 r1 skip ;;
   (if skip then ret tt else call (EvHandle (sid s2) r2) (handle s2 r2)) ;;;
   processStreams fl ol post r2) σ4.
Proof.
  intros Hpre Hf Ho Hh Hmid.
  rewrite processStreams_app, (bind_Ok _ _ _ _ _ Hpre).
  change (s1 :: mid ++ s2 :: post) with ([s1] ++ mid ++ s2 :: post).
  rewrite processStreams_app.
  assert (H1 : processStreams fl ol [s1] r0 σ0 = (Ok r1, σ3)).
  { simpl. unfold processStream.
    rewrite bind_assoc, (bind_Ok _ _ _ _ _ Hf).
    rewrite bind_assoc, (bind_Ok _ _ _ _ _ Ho).
    rewrite bind_assoc, (bind_Ok _ _ _ _ _ Hh). reflexivity. }
  rewrite (bind_Ok _ _ _ _ _ H1), processStreams_app.
  rewrite (bind_Ok _ _ _ _ _ (allSkipped_processStreams _ ol _ _ _ _ Hmid)).
  simpl. unfold processStream. rewrite !bind_assoc.
  unfold bind. destruct (applyFilters fl s2 r1 false σ4) as [[skip| |] σ5]; [|done..].
  destruct (applyObfuscators ol s2 r1 skip σ5) as [[r2| |] σ6]; [|done..].
  destruct skip; simpl; [done|].
  by destruct (call _ _ σ6) as [[[]| |] σ7].
Qed.

(** **** Removing a sink *)



(** **** Filter decisions across sinks *)

(** A computation that, from any state, returns [a] normally and extends
    the trace by [evs]. *)
Definition runs {A} (c : M State A) (a : A) (evs : list Event) : Prop :=
  ∀ σ, ∃ σ1, c σ = (Ok a, σ1) ∧ trace σ1 = trace σ ++ evs.

Definition blindFilter (f : Filter) : Prop :=
  ∀ s r, ∃ b, answers (shouldFilterOut f s r) b.
Definition blindObfuscator (o : Obfuscator) : Prop :=
  ∀ s r, ∃ r', answers (obfuscate o s r) r'.
Definition blindSink (s : Stream) : Prop :=
  ∀ r, answers (handle s r) tt.
(** Obfuscator [o] hands back the record it is given for sink [a]. *)
Definition idOn (a : nat) (o : Obfuscator) : Prop :=
  ∀ s r, sid s = a → answers (obfuscate o s r) r.

Definition withFilters (fl : list Filter) (σ : State) : State :=
  {| logger := {| minLevel := minLevel (logger σ); streams := streams (logger σ);
                  filters := fl; triggers := triggers (logger σ);
                  obfuscators := obfuscators (logger σ);
                  streamAdded := streamAdded (logger σ); meta := meta (logger σ) |};
     world := world σ; trace := trace σ |}.

Lemma runs_ret {A} (a : A) : runs (ret a) a [].
Proof. intros σ. exists σ. by rewrite app_nil_r. Qed.

Lemma runs_bind {A B} (c : M State A) (k : A → M State B) a evs b evs' :
  runs c a evs → runs (k a) b evs' → runs (bind c k) b (evs ++ evs').
Proof.
  intros Hc Hk σ. destruct (Hc σ) as (σ1 & E1 & T1).
  destruct (Hk σ1) as (σ2 & E2 & T2). exists σ2.
  rewrite (bind_Ok _ _ _ _ _ E1). split; [done|]. by rewrite T2, T1, app_assoc.
Qed.

Lemma runs_call {A} ev (h : Handler A) a : answers h a → runs (call ev h) a [ev].
Proof.
  intros Hh σ. rewrite call_spec, Hh. eexists. split; reflexivity.
Qed.

Definition about (a : nat) (evs : list Event) : Prop :=
  Forall (λ e, eventSink e = Some a) evs.

Lemma sinkEvents_app b (l1 l2 : list Event) :
  sinkEvents b (l1 ++ l2) = sinkEvents b l1 ++ sinkEvents b l2.
Proof. apply filter_app. Qed.

Lemma sinkEvents_about a b evs : about a evs → b ≠ a → sinkEvents b evs = [].
Proof.
  intros Hall Hne. induction Hall as [|e l He _ IH]; [done|].
  unfold sinkEvents in *. rewrite filter_cons_False; [done|].
  rewrite He. congruence.
Qed.

(** The filter chain of a sink other than [a]: the same answer and the same
    calls under both filter lists. *)
Lemma applyFilters_agree a fl fl' s r skip :
  Forall2 (agreeOff a) fl fl' → Forall blindFilter fl → sid s ≠ a →
  ∃ b evs, runs (applyFilters fl s r skip) b evs ∧
           runs (applyFilters fl' s r skip) b evs.
Proof.
  intros H2 Hb Hs. revert skip.
  induction H2 as [|f f' fl fl' [Hid Hag] _ IH]; intros skip; simpl.
  - exists skip, []. split; apply runs_ret.
  - apply Forall_cons in Hb as [Hf Hb]. destruct skip.
    + exists true, []. split; apply runs_ret.
    + destruct (Hf s r) as [out Hout].
      destruct (IH Hb (if out then true else false)) as (b & evs & R1 & R2).
      exists b, ([EvFilter (fid f) (sid s) r] ++ evs). split.
      * eapply runs_bind; [by apply runs_call|]. exact R1.
      * rewrite Hid. eapply runs_bind; [|exact R2]. apply runs_call.
        intros w. rewrite <- Hag by done. apply Hout.
Qed.

Lemma applyFilters_runs fl s r skip :
  Forall blindFilter fl →
  ∃ b evs, runs (applyFilters fl s r skip) b evs ∧ about (sid s) evs.
Proof.
  intros Hb. revert skip. induction Hb as [|f fl Hf _ IH]; intros skip; simpl.
  - exists skip, []. split; [apply runs_ret|constructor].
  - destruct skip.
    + exists true, []. split; [apply runs_ret|constructor].
    + destruct (Hf s r) as [out Hout].
      destruct (IH (if out then true else false)) as (b & evs & R1 & Hab).
      exists b, ([EvFilter (fid f) (sid s) r] ++ evs). split.
      * eapply runs_bind; [by apply runs_call|]. exact R1.
      * by constructor.
Qed.

Lemma applyObfuscators_runs ol s r skip :
  Forall blindObfuscator ol →
  ∃ r' evs, runs (applyObfuscators ol s r skip) r' evs ∧ about (sid s) evs.
Proof.
  intros Hb. revert r. induction Hb as [|o ol Ho _ IH]; intros r; simpl.
  - exists r, []. split; [apply runs_ret|constructor].
  - destruct skip.
    + exists r, []. split; [apply runs_ret|constructor].
    + destruct (Ho s r) as [r1 Hr1]. destruct (IH r1) as (r' & evs & R1 & Hab).
      exists r', ([EvObfuscate (oid o) (sid s) r] ++ evs). split.
      * eapply runs_bind; [by apply runs_call|]. exact R1.
      * by constructor.
Qed.

Lemma applyObfuscators_id a ol s r skip :
  Forall (idOn a) ol → sid s = a →
  ∃ evs, runs (applyObfuscators ol s r skip) r evs ∧ about (sid s) evs.
Proof.
  intros Hb Hs. induction Hb as [|o ol Ho _ IH]; simpl.
  - exists []. split; [apply runs_ret|constructor].
  - destruct skip.
    + exists []. split; [apply runs_ret|constructor].
    + destruct IH as (evs & R1 & Hab).
      exists ([EvObfuscate (oid o) (sid s) r] ++ evs). split.
      * eapply runs_bind; [apply runs_call; by apply Ho|]. exact R1.
      * by constructor.
Qed.

Lemma handle_runs s r' (skip : bool) :
  blindSink s →
  ∃ evs, runs (if skip then ret tt
               else call (EvHandle (sid s) r') (handle s r')) tt evs ∧
         about (sid s) evs.
Proof.
  intros Hs. destruct skip.
  - exists []. split; [apply runs_ret|constructor].
  - exists [EvHandle (sid s) r']. split; [by apply runs_call|].
    by repeat constructor.
Qed.

Lemma processStream_other a fl fl' ol s r :
  Forall2 (agreeOff a) fl fl' → Forall blindFilter fl →
  Forall blindObfuscator ol → blindSink s → sid s ≠ a →
  ∃ r' evs, runs (processStream fl ol s r) r' evs ∧
            runs (processStream fl' ol s r) r' evs.
Proof.
  intros H2 Hfl Hol Hs Hne.
  destruct (applyFilters_agree a fl fl' s r false H2 Hfl Hne) as (b & e1 & F1 & F2).
  destruct (applyObfuscators_runs ol s r b Hol) as (r' & e2 & O1 & _).
  destruct (handle_runs s r' b Hs) as (e3 & Hd & _).
  exists r', (e1 ++ e2 ++ e3 ++ []).
  split; unfold processStream;
    (eapply runs_bind; [eassumption|]);
    (eapply runs_bind; [eassumption|]);
    (eapply runs_bind; [eassumption|]); apply runs_ret.
Qed.

Lemma processStream_own a fl ol s r :
  Forall blindFilter fl → Forall (idOn a) ol → blindSink s → sid s = a →
  ∃ evs, runs (processStream fl ol s r) r evs ∧ about a evs.
Proof.
  intros Hfl Hol Hs He.
  destruct (applyFilters_runs fl s r false Hfl) as (b & e1 & F1 & A1).
  destruct (applyObfuscators_id a ol s r b Hol He) as (e2 & O1 & A2).
  destruct (handle_runs s r b Hs) as (e3 & Hd & A3).
  exists (e1 ++ e2 ++ e3 ++ []). split.
  - unfold processStream.
    (eapply runs_bind; [eassumption|]).
    (eapply runs_bind; [eassumption|]).
    (eapply runs_bind; [eassumption|]). apply runs_ret.
  - rewrite <- He. unfold about in *. rewrite !Forall_app. by repeat split.
Qed.

Lemma processStreams_independent a fl fl' ol sl r :
  Forall2 (agreeOff a) fl fl' → Forall blindFilter fl → Forall blindFilter fl' →
  Forall blindObfuscator ol → Forall (idOn a) ol → Forall blindSink sl →
  ∃ r' evs evs',
    runs (processStreams fl ol sl r) r' evs ∧
    runs (processStreams fl' ol sl r) r' evs' ∧
    ∀ b, b ≠ a → sinkEvents b evs = sinkEvents b evs'.
Proof.
  intros H2 Hfl Hfl' Hol Hid Hsl. revert r.
  induction Hsl as [|s sl Hs _ IH]; intros r; simpl.
  - exists r, [], []. repeat split; apply runs_ret.
  - destruct (decide (sid s = a)) as [He|Hne].
    + destruct (processStream_own a fl ol s r Hfl Hid Hs He) as (e1 & R1 & A1).
      destruct (processStream_own a fl' ol s r Hfl' Hid Hs He) as (e1' & R1' & A1').
      destruct (IH r) as (r' & e2 & e2' & R2 & R2' & Heq).
      exists r', (e1 ++ e2), (e1' ++ e2'). repeat split.
      * eapply runs_bind; eassumption.
      * eapply runs_bind; eassumption.
      * intros b Hb. rewrite !sinkEvents_app, (Heq b Hb).
        by rewrite (sinkEvents_about a b e1), (sinkEvents_about a b e1').
    + destruct (processStream_other a fl fl' ol s r H2 Hfl Hol Hs Hne)
        as (r1 & e1 & R1 & R1').
      destruct (IH r1) as (r' & e2 & e2' & R2 & R2' & Heq).
      exists r', (e1 ++ e2), (e1 ++ e2'). repeat split.
      * eapply runs_bind; eassumption.
      * eapply runs_bind; eassumption.
      * intros b Hb. by rewrite !sinkEvents_app, (Heq b Hb).
Qed.

(** The part of [logToStreams] between the level gate and the sink loop:
    it resolves the message, builds the record and runs the triggers. *)
Definition dispatchPrefix (lv : Level) (m : MsgArg) (md : list V) :
    M State (V * LogRecord V) :=
  σ <- get ;;
  resolvedMsg <- match m with
                 | Supplier f => call EvSupplier f
                 | Value v => ret v
                 end ;;
  logRecord <- ImmutableLogRecord resolvedMsg md lv ;;
  checkTriggers (triggers (logger σ)) logRecord ;;;
  ret (resolvedMsg, logRecord).

Lemma checkTriggers_withFilters ts r fl (σ : State) :
  checkTriggers ts r (withFilters fl σ) =
  ((checkTriggers ts r σ).1, withFilters fl (checkTriggers ts r σ).2).
Proof.
  revert σ. induction ts as [|t ts IH]; intros σ; simpl; [done|].
  unfold bind. rewrite !call_spec. simpl.
  destruct (check t r (world σ)) as [[[]| |] w]; simpl; [|done..].
  apply (IH {| logger := logger σ; world := w; trace := _ |}).
Qed.

Lemma dispatchPrefix_withFilters lv m md fl (σ : State) :
  dispatchPrefix lv m md (withFilters fl σ) =
  ((dispatchPrefix lv m md σ).1, withFilters fl (dispatchPrefix lv m md σ).2).
Proof.
  unfold dispatchPrefix, ImmutableLogRecord, bind, get, ret. simpl.
  destruct m as [f|v]; simpl.
  - rewrite !call_spec. simpl.
    destruct (f (world σ)) as [[v| |] w]; simpl; [|done..].
    set (σ1 := {| logger := logger σ; world := w; trace := _ |}).
    change {| logger := _; world := w; trace := _ |} with (withFilters fl σ1).
    rewrite checkTriggers_withFilters.
    change (triggers (logger σ)) with (triggers (logger σ1)).
    by destruct (checkTriggers _ _ σ1) as [[[]| |] σ2].
  - rewrite checkTriggers_withFilters.
    by destruct (checkTriggers _ _ σ) as [[[]| |] σ2].
Qed.

Lemma logToStreams_prefix lv m md (σ : State) :
  logToStreams lv m md σ =
  if minLevel (logger σ) >? lv
  then (Ok (match m with Supplier _ => None | Value v => Some v end), σ)
  else (p <- dispatchPrefix lv m md ;;
        processStreams (filters (logger σ)) (obfuscators (logger σ))
                       (streams (logger σ)) p.2 ;;;
        ret (Some p.1)) σ.
Proof.
  unfold logToStreams, dispatchPrefix, bind at 1, get at 1.
  destruct (minLevel (logger σ) >? lv); [done|].
  unfold bind, get, ret.
  destruct m as [f|v]; simpl.
  - destruct (call EvSupplier f σ) as [[v| |] σ1]; [|done..].
    by destruct (checkTriggers _ _ σ1) as [[[]| |] σ3].
  - by destruct (checkTriggers _ _ σ) as [[[]| |] σ3].
Qed.

(** C2, as amended. Take two runs of the same call that differ only in how
    the filters decide for sink [a] (the filter lists agree on every other
    sink).  If the handlers return normally with answers that do not depend
    on shared state, and the obfuscators hand back unchanged the records
    they are given for [a], then every other sink [b] observes the same
    calls with the same records in both runs: the same filter evaluations,
    the same obfuscator inputs and the same [handle] calls. *)
Theorem filter_skip_independence a b fl fl' lv m md (σ : State) :
  Forall2 (agreeOff a) fl fl' →
  Forall blindFilter fl → Forall blindFilter fl' →
  Forall blindObfuscator (obfuscators (logger σ)) →
  Forall (idOn a) (obfuscators (logger σ)) →
  Forall blindSink (streams (logger σ)) →
  b ≠ a →
  sinkEvents b (trace (logToStreams lv m md (withFilters fl σ)).2) =
  sinkEvents b (trace (logToStreams lv m md (withFilters fl' σ)).2).
Proof.
  intros H2 Hfl Hfl' Hol Hid Hsl Hb.
  rewrite !logToStreams_prefix. simpl.
  destruct (minLevel (logger σ) >? lv); [done|].
  unfold bind at 1 3. rewrite !dispatchPrefix_withFilters.
  destruct (dispatchPrefix lv m md σ) as [[[v r]| |] σ1]; simpl; [|done..].
  destruct (processStreams_independent a fl fl' (obfuscators (logger σ))
              (streams (logger σ)) r H2 Hfl Hfl' Hol Hid Hsl)
    as (r' & evs & evs' & R & R' & Heq).
  destruct (R (withFilters fl σ1)) as (σ2 & E2 & T2).
  destruct (R' (withFilters fl' σ1)) as (σ2' & E2' & T2').
  rewrite (bind_Ok _ _ _ _ _ E2), (bind_Ok _ _ _ _ _ E2'). simpl.
  rewrite T2, T2'. simpl. by rewrite !sinkEvents_app, (Heq b Hb).
Qed.

End Dispatch.

(** *** Concrete runs

    Messages are strings; the handlers' world is a counter of the handler
    calls that touched it. *)

(** Ordinals for the concrete runs, ascending with severity; the theorems
    above hold for any ordinals. *)
Definition levels : Levels :=
  {| DEBUG := 10; INFO := 20; WARNING := 30; ERROR := 40; CRITICAL := 50 |}.

Definition clock0 : nat → Z := λ _, 0.

Definition rec (m : string) : LogRecord string :=
  {| msg := m; metadata := []; dateTime := 0; level := 20 |}.

(** A sink without lifecycle hooks. *)
Definition sink (k : nat) : @Stream string nat :=
  {| sid := k; logHeader := None; logFooter := None; setup := None;
     destroy := None; handle := λ _ w, (Ok tt, S w) |}.

(** A sink with all four hooks, like [TestStream] of the logger tests. *)
Definition testStream (k : nat) : @Stream string nat :=
  {| sid := k;
     logHeader := Some (λ _ w, (Ok tt, S w));
     logFooter := Some (λ _ w, (Ok tt, S w));
     setup := Some (λ w, (Ok tt, S w));
     destroy := Some (λ w, (Ok tt, S w));
     handle := λ _ w, (Ok tt, S w) |}.

Definition pass (i : nat) : @Filter string nat :=
  {| fid := i; shouldFilterOut := λ _ _ w, (Ok false, S w) |}.

(** Filters out every record for sink [k]. *)
Definition dropFor (i k : nat) : @Filter string nat :=
  {| fid := i; shouldFilterOut := λ s _ w, (Ok (Nat.eqb (sid s) k), S w) |}.

(** Rewrites the message for sink [k] only. *)
Definition redactFor (i k : nat) : @Obfuscator string nat :=
  {| oid := i;
     obfuscate := λ s r w,
       (Ok (if Nat.eqb (sid s) k
            then {| msg := "*****"; metadata := metadata r;
                    dateTime := dateTime r; level := level r |}
            else r), S w) |}.

(** Appends a mark to the message for every sink. *)
Definition mark (i : nat) : @Obfuscator string nat :=
  {| oid := i;
     obfuscate := λ _ r w,
       (Ok {| msg := msg r +:+ "*"; metadata := metadata r;
              dateTime := dateTime r; level := level r |}, S w) |}.

Definition costly : @MsgArg string nat :=
  Supplier (λ w, (Ok "expensive", S w)).

Definition meta0 : LogMeta :=
  {| minLogLevel := 10; minLogLevelFrom := "default value";
     sessionStarted := 0; hostname := "unavailable" |}.

Definition mkLogger (lv : Level) (sl : list (@Stream string nat))
    (fl : list (@Filter string nat)) (ol : list (@Obfuscator string nat)) :
    @State string nat :=
  {| logger := {| minLevel := lv; streams := sl; filters := fl; triggers := [];
                  obfuscators := ol; streamAdded := true; meta := meta0 |};
     world := 0%nat; trace := [] |}.

Lemma lazy_level_gate_witness :
  let σ := mkLogger 20 [sink 1] [pass 0] [mark 0] in
  invoke clock0 levels MDebug costly [] σ = (Ok None, σ).
Proof.
  apply (lazy_level_gate clock0 levels
           (mkLogger 20 [sink 1] [pass 0] [mark 0]) MDebug costly []).
  reflexivity.
Defined.

Lemma filter_short_circuit_witness :
  let σ := mkLogger 10 [sink 1; sink 2] [pass 0; dropFor 1 1; dropFor 2 1] [mark 0] in
  let σ2 := {| logger := logger σ; world := 2%nat;
               trace := [EvFilter 0 1 (rec "m"); EvFilter 1 1 (rec "m")] |} in
  processStream ([pass 0] ++ dropFor 1 1 :: [dropFor 2 1]) [mark 0]
                (sink 1) (rec "m") σ = (Ok (rec "m"), σ2) ∧
  processStreams ([pass 0] ++ dropFor 1 1 :: [dropFor 2 1]) [mark 0]
                 (sink 1 :: [sink 2]) (rec "m") σ =
  processStreams ([pass 0] ++ dropFor 1 1 :: [dropFor 2 1]) [mark 0]
                 [sink 2] (rec "m") σ2.
Proof.
  apply (filter_short_circuit [pass 0] (dropFor 1 1) [dropFor 2 1] [mark 0]
           (sink 1) [sink 2] (rec "m")
           (mkLogger 10 [sink 1; sink 2] [pass 0; dropFor 1 1; dropFor 2 1] [mark 0])
           {| logger := logger (mkLogger 10 [sink 1; sink 2]
                                  [pass 0; dropFor 1 1; dropFor 2 1] [mark 0]);
              world := 1%nat; trace := [EvFilter 0 1 (rec "m")] |}
           2%nat); reflexivity.
Defined.

(** The scenario of the logger test "Obfuscators can be added/removed and
    obfuscate messages": the second sink is handed the rewritten message. *)
Lemma obfuscation_carries_forward_witness :
  let σ := mkLogger 10 [sink 1; sink 2] [] [redactFor 0 1] in
  ∃ σ3,
    processStreams [] [redactFor 0 1] ([] ++ sink 1 :: [] ++ sink 2 :: [])
                   (rec "secret") σ =
    (skip <- applyFilters [] (sink 2) (rec "*****") false ;;
     r2 <- applyObfuscators [redactFor 0 1] (sink 2) (rec "*****") skip ;;
     (if skip then ret tt else call (EvHandle 2 r2) (handle (sink 2) r2)) ;;;
     processStreams [] [redactFor 0 1] [] r2) σ3 ∧
    trace (processStreams [] [redactFor 0 1] [sink 1; sink 2] (rec "secret") σ).2 =
    [EvObfuscate 0 1 (rec "secret"); EvHandle 1 (rec "*****");
     EvObfuscate 0 2 (rec "*****"); EvHandle 2 (rec "*****")].
Proof.
  eexists. split; [|reflexivity].
  eapply (obfuscation_carries_forward [] [redactFor 0 1] [] (sink 1) []
            (sink 2) [] (rec "secret")); reflexivity.
Defined.

(** C1, as stated, fails. With an obfuscator that marks the message for
    every sink: (two sinks) the second sink's [handle] receives the output
    of its own obfuscator chain, not the record the first sink's chain
    produced; (three sinks) the filter chain of the last sink receives what
    the chain of the sink in between produced. *)
Lemma obfuscation_claim_counterexample :
  let tr2 := trace (info clock0 levels (Value "m") []
                      (mkLogger 10 [sink 1; sink 2] [pass 0] [mark 0])).2 in
  let tr3 := trace (info clock0 levels (Value "m") []
                      (mkLogger 10 [sink 1; sink 3; sink 2] [pass 0] [mark 0])).2 in
  (handled 1 tr2 = Some (rec "m*") ∧
   filterInput 2 tr2 = Some (rec "m*") ∧
   obfuscatorInput 2 tr2 = Some (rec "m*") ∧
   handled 2 tr2 = Some (rec "m**") ∧
   ¬ receivesOutputOf 1 2 tr2) ∧
  (handled 1 tr3 = Some (rec "m*") ∧
   filterInput 2 tr3 = Some (rec "m**") ∧
   ¬ receivesOutputOf 1 2 tr3).
Proof.
  repeat split; try reflexivity.
  - intros (r1 & H1 & _ & _ & H4). vm_compute in H1, H4. congruence.
  - intros (r1 & H1 & H2 & _). vm_compute in H1, H2. congruence.
Qed.

Lemma filter_skip_independence_witness :
  let σ := mkLogger 10 [sink 1; sink 2] [] [redactFor 0 2] in
  sinkEvents 2 (trace (logToStreams clock0 20 (Value "m") []
                         (withFilters [pass 0] σ)).2) =
  sinkEvents 2 (trace (logToStreams clock0 20 (Value "m") []
                         (withFilters [dropFor 0 1] σ)).2).
Proof.
  apply (filter_skip_independence clock0 1%nat 2%nat [pass 0] [dropFor 0 1] 20
           (Value "m") [] (mkLogger 10 [sink 1; sink 2] [] [redactFor 0 2])).
  - repeat constructor. intros s r w Hs. simpl.
    apply Nat.eqb_neq in Hs. by rewrite Hs.
  - repeat constructor. intros s r. by exists false.
  - repeat constructor. intros s r. by exists (Nat.eqb (sid s) 1).
  - repeat constructor. intros s r. eexists. intros w. reflexivity.
  - repeat constructor. intros s r Hs w. simpl. by rewrite Hs.
  - repeat constructor; intros r w; reflexivity.
  - lia.
Defined.

(** A sink whose [handle] throws. *)
Definition failing (k : nat) : @Stream string nat :=
  {| sid := k; logHeader := None; logFooter := None; setup := None;
     destroy := None; handle := λ _ w, (Throw (Error "sink failed"), S w) |}.

(** A filter whose answer depends on the state the handlers share. *)
Definition oddWorld (i : nat) : @Filter string nat :=
  {| fid := i; shouldFilterOut := λ _ _ w, (Ok (Nat.odd w), S w) |}.

(** C2, as stated, fails. Each part compares two runs that differ only in
    whether sink 1 is filtered out, and shows what sink 2 observes.
    (1) With an obfuscator that rewrites the message for sink 1, sink 2 is
    handed the rewritten record when sink 1 was processed and the original
    one when sink 1 was skipped.
    (2) When the [handle] of sink 1 throws, sink 2 is not reached unless
    sink 1 was skipped.
    (3) With a filter that reads state shared by the handlers, the filters
    decide differently for sink 2 when sink 1 was handled. *)
Lemma filter_independence_counterexample :
  let run sl fl ol :=
    sinkEvents 2 (trace (logToStreams clock0 20 (Value "secret") []
                           (withFilters fl (mkLogger 10 sl [] ol))).2) in
  let r := rec "secret" in
  (Forall2 (agreeOff 1) [pass 0] [dropFor 0 1] ∧
   run [sink 1; sink 2] [pass 0] [redactFor 0 1] =
     [EvFilter 0 2 (rec "*****"); EvObfuscate 0 2 (rec "*****");
      EvHandle 2 (rec "*****")] ∧
   run [sink 1; sink 2] [dropFor 0 1] [redactFor 0 1] =
     [EvFilter 0 2 r; EvObfuscate 0 2 r; EvHandle 2 r] ∧
   run [sink 1; sink 2] [pass 0] [redactFor 0 1] ≠
   run [sink 1; sink 2] [dropFor 0 1] [redactFor 0 1]) ∧
  (run [failing 1; sink 2] [pass 0] [] = [] ∧
   run [failing 1; sink 2] [dropFor 0 1] [] = [EvFilter 0 2 r; EvHandle 2 r]) ∧
  (Forall2 (agreeOff 1) [oddWorld 0; pass 1] [oddWorld 0; dropFor 1 1] ∧
   run [sink 1; sink 2] [oddWorld 0; pass 1] [] = [EvFilter 0 2 r] ∧
   run [sink 1; sink 2] [oddWorld 0; dropFor 1 1] [] =
     [EvFilter 0 2 r; EvFilter 1 2 r; EvHandle 2 r]).
Proof.
  assert (Hag : ∀ i, agreeOff 1 (pass i) (dropFor i 1)).
  { intros i. split; [done|]. intros s r w Hs. simpl.
    apply Nat.eqb_neq in Hs. by rewrite Hs. }
  split; [|split].
  - split; [constructor; [apply Hag|constructor]|]. split; [reflexivity|].
    split; [reflexivity|]. vm_compute. congruence.
  - split; reflexivity.
  - split; [|split; reflexivity].
    constructor; [by split|]. constructor; [apply Hag|constructor].
Qed.

(** [removeStream] on a sink that was never added: its hooks are called all
    the same, and the list is as before. *)
Example removeStream_unregistered :
  let σ := mkLogger 10 [sink 1] [] [] in
  removeStream (testStream 9) σ =
  (Ok tt, {| logger := logger σ; world := 2%nat;
             trace := [EvFooter 9 meta0; EvDestroy 9] |}).
Proof. reflexivity. Qed.



(** *** Registration, lifecycle and the phases of a call *)

Section Lifecycle.

Context {V W : Type}.
Variable clock : W → Z.

Definition removeTrigger (t : @Trigger V W) : M (@State V W) unit :=
  setLogger (λ lg,
    {| minLevel := minLevel lg; streams := streams lg; filters := filters lg;
       triggers := filter (λ g, Nat.eqb (tid g) (tid t) = false) (triggers lg);
       obfuscators := obfuscators lg;
       streamAdded := streamAdded lg; meta := meta lg |}).

Definition removeObfuscator (o : @Obfuscator V W) : M (@State V W) unit :=
  setLogger (λ lg,
    {| minLevel := minLevel lg; streams := streams lg; filters := filters lg;
       triggers := triggers lg;
       obfuscators := filter (λ g, Nat.eqb (oid g) (oid o) = false) (obfuscators lg);
       streamAdded := streamAdded lg; meta := meta lg |}).

(** The listener the constructor registers for the [unload] event:
    [for (const stream of this.#streams)
       { if (stream.logFooter) ...; if (stream.destroy) ... }] *)
Fixpoint unloadStreams (sl : list (@Stream V W)) (m : LogMeta) :
    M (@State V W) unit :=
  match sl with
  | [] => ret tt
  | stream :: sl' =>
      callIfPresent (EvFooter (sid stream) m)
                    ((λ h, h m) <$> logFooter stream) ;;;
      callIfPresent (EvDestroy (sid stream)) (destroy stream) ;;;
      unloadStreams sl' m
  end.

Definition unload : M (@State V W) unit :=
  σ <- get ;;
  unloadStreams (streams (logger σ)) (meta (logger σ)).

(** The events of the optional hooks of a sink. *)
Definition setupEvents (s : @Stream V W) (m : LogMeta) : list (@Event V) :=
  match setup s with Some _ => [EvSetup (sid s)] | None => [] end ++
  match logHeader s with Some _ => [EvHeader (sid s) m] | None => [] end.

Definition teardownEvents (s : @Stream V W) (m : LogMeta) : list (@Event V) :=
  match logFooter s with Some _ => [EvFooter (sid s) m] | None => [] end ++
  match destroy s with Some _ => [EvDestroy (sid s)] | None => [] end.

(** Every hook the sink has returns normally. *)
Definition hooksReturn (s : @Stream V W) : Prop :=
  (∀ h m, logHeader s = Some h → answers (h m) tt) ∧
  (∀ h m, logFooter s = Some h → answers (h m) tt) ∧
  (∀ h, setup s = Some h → answers h tt) ∧
  (∀ h, destroy s = Some h → answers h tt).

(** The hooks [addStream] calls, [setup] and [logHeader], return normally
    when the sink has them. *)
Definition setupHooksReturn (s : @Stream V W) : Prop :=
  (∀ h, setup s = Some h → answers h tt) ∧
  (∀ h m, logHeader s = Some h → answers (h m) tt).

Definition blindTrigger (t : @Trigger V W) : Prop :=
  ∀ r, answers (check t r) tt.

(** A computation that returns [a] from any state, extends the trace by
    [evs] and leaves the logger's fields as they are. *)
Definition runsKeeping {A} (c : M (@State V W) A) (a : A) (evs : list (@Event V)) :
    Prop :=
  ∀ σ, ∃ σ1, c σ = (Ok a, σ1) ∧ trace σ1 = trace σ ++ evs ∧
             logger σ1 = logger σ.

Lemma runsKeeping_ret {A} (a : A) : runsKeeping (ret a) a [].
Proof. intros σ. exists σ. by rewrite app_nil_r. Qed.

Lemma runsKeeping_bind {A B} (c : M State A) (k : A → M State B) a evs b evs' :
  runsKeeping c a evs → runsKeeping (k a) b evs' →
  runsKeeping (bind c k) b (evs ++ evs').
Proof.
  intros Hc Hk σ. destruct (Hc σ) as (σ1 & E1 & T1 & L1).
  destruct (Hk σ1) as (σ2 & E2 & T2 & L2). exists σ2.
  rewrite (bind_Ok _ _ _ _ _ E1). split; [done|].
  split; [by rewrite T2, T1, app_assoc|congruence].
Qed.

Lemma runsKeeping_call {A} ev (h : Handler A) a :
  answers h a → runsKeeping (call ev h) a [ev].
Proof.
  intros Hh σ. rewrite call_spec, Hh. eexists. by repeat split.
Qed.

Lemma runsKeeping_hook ev (o : option (Handler unit)) :
  (∀ h, o = Some h → answers h tt) →
  runsKeeping (callIfPresent ev o) tt (match o with Some _ => [ev] | None => [] end).
Proof.
  intros Ho. destruct o as [h|]; simpl.
  - apply runsKeeping_call. by apply Ho.
  - apply runsKeeping_ret.
Qed.

Lemma runsKeeping_metaHook ev (o : option (LogMeta → Handler unit)) m :
  (∀ h, o = Some h → answers (h m) tt) →
  runsKeeping (callIfPresent ev ((λ h, h m) <$> o)) tt
              (match o with Some _ => [ev] | None => [] end).
Proof.
  intros Ho. destruct o as [h|]; simpl.
  - apply runsKeeping_call. by apply Ho.
  - apply runsKeeping_ret.
Qed.

Lemma runsKeeping_runs {A} (c : M State A) a evs :
  runsKeeping c a evs → runs c a evs.
Proof. intros H σ. destruct (H σ) as (σ1 & ? & ? & _). eauto. Qed.

Lemma teardown_runs (s : @Stream V W) m :
  hooksReturn s →
  runsKeeping (callIfPresent (EvFooter (sid s) m) ((λ h, h m) <$> logFooter s) ;;;
               callIfPresent (EvDestroy (sid s)) (destroy s))
              tt (teardownEvents s m).
Proof.
  intros (_ & Hf & _ & Hd). unfold teardownEvents.
  eapply runsKeeping_bind.
  - apply runsKeeping_metaHook. intros h Hh. by apply Hf.
  - apply runsKeeping_hook. intros h Hh. by apply Hd.
Qed.

Lemma hooksReturn_setup (s : @Stream V W) : hooksReturn s → setupHooksReturn s.
Proof. intros (Hh & _ & Hs & _). by split. Qed.

Lemma setup_runs (s : @Stream V W) m :
  setupHooksReturn s →
  runsKeeping (callIfPresent (EvSetup (sid s)) (setup s) ;;;
               callIfPresent (EvHeader (sid s) m) ((λ h, h m) <$> logHeader s))
              tt (setupEvents s m).
Proof.
  intros (Hs & Hh). unfold setupEvents.
  eapply runsKeeping_bind.
  - apply runsKeeping_hook. intros h Hs'. by apply Hs.
  - apply runsKeeping_metaHook. intros h Hh'. by apply Hh.
Qed.

Lemma addStream_spec (σ : @State V W) (s : @Stream V W) :
  setupHooksReturn s →
  ∃ σ', addStream s σ = (Ok tt, σ') ∧
        streams (logger σ') =
          (if streamAdded (logger σ) then streams (logger σ) else []) ++ [s] ∧
        streamAdded (logger σ') = true ∧
        trace σ' = trace σ ++ setupEvents s (meta (logger σ)) ∧
        minLevel (logger σ') = minLevel (logger σ) ∧
        filters (logger σ') = filters (logger σ) ∧
        triggers (logger σ') = triggers (logger σ) ∧
        obfuscators (logger σ') = obfuscators (logger σ) ∧
        meta (logger σ') = meta (logger σ).
Proof.
  intros Hs. unfold addStream, bind at 1, get at 1.
  unfold bind at 1. unfold setStreams, setLogger.
  match goal with |- context [(_ ;;; _) ?σ0] =>
    destruct (setup_runs s (meta (logger σ)) Hs σ0) as (σ' & Hrun & Ht & Hl) end.
  exists σ'. rewrite Hrun. split; [done|]. rewrite Hl, Ht. by repeat split.
Qed.

(** X1. [addStream], for a sink whose [setup] and [logHeader] return
    normally when it has them, whatever its other hooks do: the first sink
    added replaces whatever the list held (the default console sink), later
    ones are appended; [setup] and then [logHeader] are called, with the
    logger's meta, when the sink has them, and no other hook is; no other
    field of the logger changes. *)
Theorem addStream_replaces_default (σ : @State V W) (s : @Stream V W) :
  setupHooksReturn s →
  ∃ σ', addStream s σ = (Ok tt, σ') ∧
        streams (logger σ') =
          (if streamAdded (logger σ) then streams (logger σ) else []) ++ [s] ∧
        streamAdded (logger σ') = true ∧
        trace σ' = trace σ ++ setupEvents s (meta (logger σ)) ∧
        minLevel (logger σ') = minLevel (logger σ) ∧
        filters (logger σ') = filters (logger σ) ∧
        triggers (logger σ') = triggers (logger σ) ∧
        obfuscators (logger σ') = obfuscators (logger σ) ∧
        meta (logger σ') = meta (logger σ).
Proof. apply addStream_spec. Qed.

(** X2. Adding a sink and removing it again: the hooks run in the order
    setup, logHeader, logFooter, destroy, and the list is back to what it
    was before the sink was added (to the empty list, if the sink was the
    first one added and so replaced the default). *)
Theorem addStream_removeStream_round_trip (σ : @State V W) (s : @Stream V W) :
  hooksReturn s →
  Forall (λ x, sid x ≠ sid s) (streams (logger σ)) →
  ∃ σ', (addStream s ;;; removeStream s) σ = (Ok tt, σ') ∧
        streams (logger σ') =
          (if streamAdded (logger σ) then streams (logger σ) else []) ∧
        trace σ' = trace σ ++ setupEvents s (meta (logger σ))
                           ++ teardownEvents s (meta (logger σ)).
Proof.
  intros Hs Hfresh.
  destruct (addStream_spec σ s (hooksReturn_setup s Hs))
    as (σ1 & Hadd & Hst & _ & Ht & _ & _ & _ & _ & Hm).
  rewrite (bind_Ok _ _ _ _ _ Hadd).
  unfold removeStream, bind at 1, get at 1. unfold bind at 1.
  unfold setStreams, setLogger.
  match goal with |- context [(_ ;;; _) ?σ0] =>
    destruct (teardown_runs s (meta (logger σ1)) Hs σ0) as (σ' & Hrun & Ht' & Hl) end.
  exists σ'. rewrite Hrun. split; [done|]. rewrite Hl, Ht'. simpl.
  rewrite Ht, Hm, Hst, <- app_assoc. split; [|done].
  rewrite filter_app, filter_cons_False, filter_nil, app_nil_r.
  2:{ unfold sameStream. rewrite Nat.eqb_refl. done. }
  assert (Hall : ∀ l : list (@Stream V W),
             Forall (λ x, sid x ≠ sid s) l →
             filter (λ x, sameStream x s = false) l = l).
  { induction 1 as [|x l Hx _ IH]; [done|].
    rewrite filter_cons_True; [by rewrite IH|].
    unfold sameStream. by apply Nat.eqb_neq. }
  destruct (streamAdded (logger σ)); [by apply Hall|done].
Qed.

(** X3. The [unload] listener calls, for every registered sink in
    registration order, its [logFooter] and then its [destroy] (those it
    has), and nothing else; the logger is left as it was. *)
Theorem unload_footers_then_destroys (σ : @State V W) :
  Forall hooksReturn (streams (logger σ)) →
  ∃ σ', unload σ = (Ok tt, σ') ∧
        trace σ' = trace σ ++
          concat (map (λ s, teardownEvents s (meta (logger σ))) (streams (logger σ))) ∧
        logger σ' = logger σ.
Proof.
  intros Hall. unfold unload, bind at 1, get at 1.
  assert (H : ∀ sl m, Forall hooksReturn sl →
            runsKeeping (unloadStreams sl m) tt
                        (concat (map (λ s, teardownEvents s m) sl))).
  { intros sl m. induction 1 as [|s sl (_ & Hf & _ & Hd) _ IH]; simpl.
    - apply runsKeeping_ret.
    - unfold teardownEvents at 1. rewrite <- app_assoc.
      eapply runsKeeping_bind.
      { apply runsKeeping_metaHook. intros h Hh. by apply Hf. }
      eapply runsKeeping_bind; [|exact IH].
      apply runsKeeping_hook. intros h Hh. by apply Hd. }
  destruct (H _ (meta (logger σ)) Hall σ) as (σ' & Hrun & Ht & Hl). eauto.
Qed.

(** X4. Filters, triggers and obfuscators are removed by identity: removing
    a handler that was just added gives back the list as it was, provided
    the handler was not in it already; removing one that is not registered
    changes nothing. *)
Theorem add_remove_handler_round_trip (σ : @State V W)
    (f : @Filter V W) (t : @Trigger V W) (o : @Obfuscator V W) :
  Forall (λ g, fid g ≠ fid f) (filters (logger σ)) →
  Forall (λ g, tid g ≠ tid t) (triggers (logger σ)) →
  Forall (λ g, oid g ≠ oid o) (obfuscators (logger σ)) →
  (addFilter f ;;; removeFilter f) σ = (Ok tt, σ) ∧
  (addTrigger t ;;; removeTrigger t) σ = (Ok tt, σ) ∧
  (addObfuscator o ;;; removeObfuscator o) σ = (Ok tt, σ) ∧
  removeFilter f σ = (Ok tt, σ) ∧
  removeTrigger t σ = (Ok tt, σ) ∧
  removeObfuscator o σ = (Ok tt, σ).
Proof.
  intros Hf Ht Ho.
  assert (Hkeep : ∀ {A} (key : A → nat) (k : nat) (l : list A),
             Forall (λ g, key g ≠ k) l →
             filter (λ g, Nat.eqb (key g) k = false) l = l).
  { intros A key k l. induction 1 as [|x l Hx _ IH]; [done|].
    rewrite filter_cons_True; [by rewrite IH|]. by apply Nat.eqb_neq. }
  assert (Hdrop : ∀ {A} (key : A → nat) (x : A) (l : list A),
             Forall (λ g, key g ≠ key x) l →
             filter (λ g, Nat.eqb (key g) (key x) = false) (l ++ [x]) = l).
  { intros A key x l Hl. rewrite filter_app, (Hkeep _ key _ l Hl).
    rewrite filter_cons_False, filter_nil, app_nil_r; [done|].
    by rewrite Nat.eqb_refl. }
  destruct σ as [[ml sl fl tl ol added mt] w tr]. simpl in *.
  unfold bind, addFilter, removeFilter, addTrigger, removeTrigger,
    addObfuscator, removeObfuscator, setLogger. simpl.
  rewrite (Hdrop _ fid f fl Hf), (Hdrop _ tid t tl Ht), (Hdrop _ oid o ol Ho).
  rewrite (Hkeep _ fid _ fl Hf), (Hkeep _ tid _ tl Ht), (Hkeep _ oid _ ol Ho).
  by repeat split.
Qed.

(** A computation of the engine only ever appends to the record of calls and
    does not touch the logger's fields. *)
Definition extends {A} (c : M (@State V W) A) : Prop :=
  ∀ σ, ∃ l, trace (c σ).2 = trace σ ++ l ∧ logger (c σ).2 = logger σ.

Lemma extends_ret {A} (a : A) : extends (ret a).
Proof. intros σ. exists []. by rewrite app_nil_r. Qed.

Lemma extends_call {A} ev (h : Handler A) : extends (call ev h).
Proof. intros σ. exists [ev]. by rewrite call_spec. Qed.

Lemma extends_bind {A B} (c : M State A) (k : A → M State B) :
  extends c → (∀ a, extends (k a)) → extends (bind c k).
Proof.
  intros Hc Hk σ. destruct (Hc σ) as (l & Hl & Hg). unfold bind.
  destruct (c σ) as [[a| |] σ1]; simpl in *; [|by eauto..].
  destruct (Hk a σ1) as (l' & Hl' & Hg'). exists (l ++ l').
  by rewrite Hl', Hl, app_assoc, Hg', Hg.
Qed.

Lemma extends_get {A} (k : State → M State A) :
  (∀ s, extends (k s)) → extends (bind get k).
Proof. intros Hk σ. apply (Hk σ σ). Qed.

Lemma extends_checkTriggers ts r : extends (checkTriggers ts r).
Proof.
  induction ts as [|t ts IH]; simpl; [apply extends_ret|].
  apply extends_bind; [apply extends_call|done].
Qed.

Lemma extends_applyFilters fl s r skip : extends (applyFilters fl s r skip).
Proof.
  revert skip. induction fl as [|f fl IH]; intros skip; simpl; [apply extends_ret|].
  destruct skip; [apply extends_ret|].
  apply extends_bind; [apply extends_call|]. intros a. apply IH.
Qed.

Lemma extends_applyObfuscators ol s r skip : extends (applyObfuscators ol s r skip).
Proof.
  revert r. induction ol as [|o ol IH]; intros r; simpl; [apply extends_ret|].
  destruct skip; [apply extends_ret|].
  apply extends_bind; [apply extends_call|]. intros a. apply IH.
Qed.

Lemma extends_processStreams fl ol sl r : extends (processStreams fl ol sl r).
Proof.
  revert r. induction sl as [|s sl IH]; intros r; simpl; [apply extends_ret|].
  apply extends_bind; [|done]. unfold processStream.
  apply extends_bind; [apply extends_applyFilters|]. intros skip.
  apply extends_bind; [apply extends_applyObfuscators|]. intros r'.
  apply extends_bind; [|intros; apply extends_ret].
  destruct skip; [apply extends_ret|apply extends_call].
Qed.

(** The part of [logToStreams] that follows the resolution of the
    message. *)
Definition dispatchResolved (lg : @Logger V W) (lv : Level) (md : list V)
    (resolvedMsg : V) : M (@State V W) (option V) :=
  logRecord <- ImmutableLogRecord clock resolvedMsg md lv ;;
  checkTriggers (triggers lg) logRecord ;;;
  processStreams (filters lg) (obfuscators lg) (streams lg) logRecord ;;;
  ret (Some resolvedMsg).

Lemma extends_dispatchResolved lg lv md v : extends (dispatchResolved lg lv md v).
Proof.
  unfold dispatchResolved, ImmutableLogRecord.
  apply extends_bind.
  { apply extends_get. intros; apply extends_ret. }
  intros r. apply extends_bind; [apply extends_checkTriggers|]. intros _.
  apply extends_bind; [apply extends_processStreams|]. intros; apply extends_ret.
Qed.

Lemma logToStreams_passing lv (m : MsgArg) md (σ : @State V W) :
  (minLevel (logger σ) >? lv) = false →
  logToStreams clock lv m md σ =
  (resolvedMsg <- match m with
                  | Supplier f => call EvSupplier f
                  | Value v => ret v
                  end ;;
   dispatchResolved (logger σ) lv md resolvedMsg) σ.
Proof.
  intros Hgate. unfold logToStreams, bind at 1, get at 1. by rewrite Hgate.
Qed.

(** X5. [withLevel] and the gate: after [withLevel lv] the meta records the
    level and its origin, a call below [lv] is discarded without calling the
    supplier, and a call at or above [lv] starts by calling the supplier. *)
Theorem withLevel_moves_the_gate (σ : @State V W) (lv below above : Level)
    (f : Handler V) (md : list V) :
  below < lv → lv ≤ above →
  let σ1 := (withLevel lv σ).2 in
  minLevel (logger σ1) = lv ∧
  minLogLevel (meta (logger σ1)) = lv ∧
  minLogLevelFrom (meta (logger σ1)) = "logger.level()" ∧
  logToStreams clock below (Supplier f) md σ1 = (Ok None, σ1) ∧
  ∃ l, trace (logToStreams clock above (Supplier f) md σ1).2
       = trace σ ++ EvSupplier :: l.
Proof.
  intros Hb Ha σ1. unfold σ1, withLevel, setLogger. simpl.
  split; [done|]. split; [done|]. split; [done|]. split.
  - unfold logToStreams, bind, get. simpl.
    by rewrite (proj2 (Z.gtb_lt lv below) Hb).
  - rewrite logToStreams_passing.
    2:{ simpl. destruct (lv >? above) eqn:E; [|done]. apply Z.gtb_lt in E. lia. }
    unfold bind. rewrite call_spec. simpl.
    destruct (f (world σ)) as [[v| |] w]; simpl; [|by exists []..].
    match goal with |- context [dispatchResolved ?lg _ _ _ ?σ0] =>
      destruct (extends_dispatchResolved lg above md v σ0) as (l & Hl & _) end.
    exists l. rewrite Hl. simpl. by rewrite <- app_assoc.
Qed.

(** **** The phases of a call that passes the gate *)

(** The message argument resolves to [v]: a supplier returns it whatever the
    state, a plain value is it. *)
Definition resolvesTo (m : @MsgArg V W) (v : V) : Prop :=
  match m with
  | Supplier f => answers f v
  | Value v' => v' = v
  end.

Definition supplierEvents (m : @MsgArg V W) : list (@Event V) :=
  match m with Supplier _ => [EvSupplier] | Value _ => [] end.

(** The record a call builds: stamped when the message has been resolved. *)
Definition recordOf (m : @MsgArg V W) (v : V) (md : list V) (lv : Level)
    (σ : @State V W) : LogRecord V :=
  {| msg := v; metadata := md;
     dateTime := clock (match m with
                        | Supplier f => (f (world σ)).2
                        | Value _ => world σ
                        end);
     level := lv |}.

(** The events are addressed to sinks of [sl]. *)
Definition amongSinks (sl : list (@Stream V W)) (evs : list (@Event V)) : Prop :=
  Forall (λ e, ∃ x, x ∈ sl ∧ eventSink e = Some (sid x)) evs.

Lemma amongSinks_about s sl evs :
  s ∈ sl → about (sid s) evs → amongSinks sl evs.
Proof. intros Hs H. eapply Forall_impl; [exact H|]. simpl. eauto. Qed.

Lemma amongSinks_mono sl sl' evs :
  sl ⊆ sl' → amongSinks sl evs → amongSinks sl' evs.
Proof.
  intros Hsub H. eapply Forall_impl; [exact H|].
  intros e (x & Hx & He). eauto.
Qed.

Lemma checkTriggers_runs (ts : list (@Trigger V W)) r :
  Forall blindTrigger ts →
  runs (checkTriggers ts r) tt (map (λ t, EvCheck (tid t) r) ts).
Proof.
  induction 1 as [|t ts Ht _ IH]; simpl; [apply runs_ret|].
  apply (runs_bind _ _ tt [_] tt); [by apply runs_call|done].
Qed.

Lemma processStream_runs (fl : list (@Filter V W)) (ol : list (@Obfuscator V W))
    (s : @Stream V W) r :
  Forall blindFilter fl → Forall blindObfuscator ol → blindSink s →
  ∃ r' evs, runs (processStream fl ol s r) r' evs ∧ about (sid s) evs.
Proof.
  intros Hfl Hol Hs.
  destruct (applyFilters_runs fl s r false Hfl) as (b & e1 & F1 & A1).
  destruct (applyObfuscators_runs ol s r b Hol) as (r' & e2 & O1 & A2).
  destruct (handle_runs s r' b Hs) as (e3 & Hd & A3).
  exists r', (e1 ++ e2 ++ e3 ++ []). split.
  - unfold processStream.
    (eapply runs_bind; [eassumption|]).
    (eapply runs_bind; [eassumption|]).
    (eapply runs_bind; [eassumption|]). apply runs_ret.
  - unfold about in *. rewrite !Forall_app. by repeat split.
Qed.

Lemma processStreams_runs (fl : list (@Filter V W)) (ol : list (@Obfuscator V W))
    (sl : list (@Stream V W)) r :
  Forall blindFilter fl → Forall blindObfuscator ol → Forall blindSink sl →
  ∃ r' evs, runs (processStreams fl ol sl r) r' evs ∧ amongSinks sl evs.
Proof.
  intros Hfl Hol Hsl. revert r. induction Hsl as [|s sl Hs _ IH]; intros r; simpl.
  - exists r, []. split; [apply runs_ret|constructor].
  - destruct (processStream_runs fl ol s r Hfl Hol Hs) as (r1 & e1 & R1 & A1).
    destruct (IH r1) as (r' & e2 & R2 & A2).
    exists r', (e1 ++ e2). split; [eapply runs_bind; eassumption|].
    apply Forall_app. split.
    + apply (amongSinks_about s); [left|done].
    + eapply amongSinks_mono; [|exact A2]. set_solver.
Qed.

(** The shape of a call that passes the gate, given how the sink loop
    runs on the record the call builds. *)
Lemma emit_trace lv (m : @MsgArg V W) md (σ : @State V W) v r' evs :
  (minLevel (logger σ) >? lv) = false →
  resolvesTo m v →
  Forall blindTrigger (triggers (logger σ)) →
  runs (processStreams (filters (logger σ)) (obfuscators (logger σ))
          (streams (logger σ)) (recordOf m v md lv σ)) r' evs →
  ∃ σ', logToStreams clock lv m md σ = (Ok (Some v), σ') ∧
        trace σ' = trace σ ++ supplierEvents m
                     ++ map (λ t, EvCheck (tid t) (recordOf m v md lv σ))
                            (triggers (logger σ))
                     ++ evs.
Proof.
  intros Hgate Hm Hts Hsl. rewrite logToStreams_passing by done.
  assert (Hres : ∃ σ1, match m with
                       | Supplier f => call EvSupplier f
                       | Value v => ret v
                       end σ = (Ok v, σ1) ∧
                       logger σ1 = logger σ ∧
                       trace σ1 = trace σ ++ supplierEvents m ∧
                       recordOf m v md lv σ =
                       {| msg := v; metadata := md; dateTime := clock (world σ1);
                          level := lv |}).
  { destruct m as [f|v']; simpl in *.
    - rewrite call_spec, Hm. eexists. by repeat split.
    - subst. exists σ. by rewrite app_nil_r. }
  destruct Hres as (σ1 & Hrun1 & Hl1 & Ht1 & Hrec).
  rewrite (bind_Ok _ _ _ _ _ Hrun1). unfold dispatchResolved, ImmutableLogRecord.
  unfold bind at 1. unfold bind at 1. unfold get, ret. cbv beta iota.
  rewrite <- Hrec.
  destruct (checkTriggers_runs _ (recordOf m v md lv σ) Hts σ1) as (σ2 & Hrun2 & Ht2).
  rewrite (bind_Ok _ _ _ _ _ Hrun2).
  destruct (Hsl σ2) as (σ3 & Hrun3 & Ht3).
  rewrite (bind_Ok _ _ _ _ _ Hrun3). exists σ3. split; [done|].
  by rewrite Ht3, Ht2, Ht1, <- !app_assoc.
Qed.

(** X6. A call that passes the gate, with handlers that return: the call
    returns the resolved message; the supplier, if the message is one, is
    called once and first; then every trigger is called once, in
    registration order, with the record the call built; only then come the
    calls addressed to sinks. *)
Theorem emit_phases lv (m : @MsgArg V W) md (σ : @State V W) v :
  (minLevel (logger σ) >? lv) = false →
  resolvesTo m v →
  Forall blindTrigger (triggers (logger σ)) →
  Forall blindFilter (filters (logger σ)) →
  Forall blindObfuscator (obfuscators (logger σ)) →
  Forall blindSink (streams (logger σ)) →
  ∃ σ' sinkPart,
    logToStreams clock lv m md σ = (Ok (Some v), σ') ∧
    trace σ' = trace σ ++ supplierEvents m
                 ++ map (λ t, EvCheck (tid t) (recordOf m v md lv σ))
                        (triggers (logger σ))
                 ++ sinkPart ∧
    amongSinks (streams (logger σ)) sinkPart.
Proof.
  intros Hgate Hm Hts Hfl Hol Hsl.
  destruct (processStreams_runs _ _ _ (recordOf m v md lv σ) Hfl Hol Hsl)
    as (r' & evs & Hruns & Hamong).
  destruct (emit_trace lv m md σ v r' evs Hgate Hm Hts Hruns) as (σ' & Hrun & Ht).
  by exists σ', evs.
Qed.

Lemma processStreams_plain (sl : list (@Stream V W)) r :
  Forall blindSink sl →
  runs (processStreams [] [] sl r) r (map (λ s, EvHandle (sid s) r) sl).
Proof.
  induction 1 as [|s sl Hs _ IH]; simpl; [apply runs_ret|].
  apply (runs_bind _ _ r [_] r); [|done].
  unfold processStream. simpl.
  apply (runs_bind _ _ false [] r [_]); [apply runs_ret|].
  apply (runs_bind _ _ r [] r [_]); [apply runs_ret|].
  apply (runs_bind _ _ tt [_] r []); [by apply runs_call|apply runs_ret].
Qed.

(** X7. Without filters and obfuscators every registered sink is handed the
    same record, the one the call built, once and in registration order. *)
Theorem every_sink_gets_the_record lv (m : @MsgArg V W) md (σ : @State V W) v :
  (minLevel (logger σ) >? lv) = false →
  resolvesTo m v →
  filters (logger σ) = [] → obfuscators (logger σ) = [] →
  Forall blindTrigger (triggers (logger σ)) →
  Forall blindSink (streams (logger σ)) →
  ∃ σ', logToStreams clock lv m md σ = (Ok (Some v), σ') ∧
        trace σ' = trace σ ++ supplierEvents m
                     ++ map (λ t, EvCheck (tid t) (recordOf m v md lv σ))
                            (triggers (logger σ))
                     ++ map (λ s, EvHandle (sid s) (recordOf m v md lv σ))
                            (streams (logger σ)).
Proof.
  intros Hgate Hm Hfl Hol Hts Hsl.
  apply (emit_trace lv m md σ v (recordOf m v md lv σ)); try done.
  rewrite Hfl, Hol. by apply processStreams_plain.
Qed.

(** **** Handlers that throw *)

(** A computation that throws [e] from any state, after extending the trace
    by [evs]. *)
Definition throwsAfter {A} (c : M (@State V W) A) (e : JsError)
    (evs : list (@Event V)) : Prop :=
  ∀ σ, ∃ σ1, c σ = (Throw e, σ1) ∧ trace σ1 = trace σ ++ evs.

Lemma throwsAfter_call {A} ev (h : Handler A) e :
  (∀ w, (h w).1 = Throw e) → throwsAfter (call ev h) e [ev].
Proof. intros Hh σ. rewrite call_spec, Hh. eexists. split; reflexivity. Qed.

Lemma throwsAfter_bind {A B} (c : M State A) (k : A → M State B) e evs :
  throwsAfter c e evs → throwsAfter (bind c k) e evs.
Proof.
  intros Hc σ. destruct (Hc σ) as (σ1 & E1 & T1). exists σ1.
  by rewrite (bind_Throw _ _ _ _ _ E1).
Qed.

Lemma throwsAfter_then {A B} (c : M State A) (k : A → M State B) a evs e evs' :
  runs c a evs → throwsAfter (k a) e evs' →
  throwsAfter (bind c k) e (evs ++ evs').
Proof.
  intros Hc Hk σ. destruct (Hc σ) as (σ1 & E1 & T1).
  destruct (Hk σ1) as (σ2 & E2 & T2). exists σ2.
  rewrite (bind_Ok _ _ _ _ _ E1). split; [done|]. by rewrite T2, T1, app_assoc.
Qed.

Lemma checkTriggers_throws (ts1 ts2 : list (@Trigger V W)) t r e :
  Forall blindTrigger ts1 →
  (∀ w, (check t r w).1 = Throw e) →
  throwsAfter (checkTriggers (ts1 ++ t :: ts2) r) e
              (map (λ t, EvCheck (tid t) r) (ts1 ++ [t])).
Proof.
  intros H1 Ht. induction H1 as [|t1 ts1 Ht1 _ IH]; simpl.
  - apply throwsAfter_bind. by apply throwsAfter_call.
  - apply (throwsAfter_then _ _ tt [_]); [by apply runs_call|done].
Qed.

Lemma resolve_runs (m : @MsgArg V W) v md lv (σ : @State V W) :
  resolvesTo m v →
  ∃ σ1, match m with
        | Supplier f => call EvSupplier f
        | Value v => ret v
        end σ = (Ok v, σ1) ∧
        logger σ1 = logger σ ∧
        trace σ1 = trace σ ++ supplierEvents m ∧
        ImmutableLogRecord clock v md lv σ1 = (Ok (recordOf m v md lv σ), σ1).
Proof.
  intros Hm. destruct m as [f|v']; simpl in *.
  - rewrite call_spec, Hm. eexists. by repeat split.
  - subst. exists σ. by rewrite app_nil_r.
Qed.

(** X8. A trigger that throws aborts the call: the error comes out of the
    logging method, the triggers registered after it are not called, and no
    filter, obfuscator or sink is called. *)
Theorem throwing_trigger_aborts lv (m : @MsgArg V W) md (σ : @State V W) v
    ts1 t ts2 e :
  (minLevel (logger σ) >? lv) = false →
  resolvesTo m v →
  triggers (logger σ) = ts1 ++ t :: ts2 →
  Forall blindTrigger ts1 →
  (∀ r w, (check t r w).1 = Throw e) →
  (logToStreams clock lv m md σ).1 = Throw e ∧
  trace (logToStreams clock lv m md σ).2 =
    trace σ ++ supplierEvents m
      ++ map (λ t, EvCheck (tid t) (recordOf m v md lv σ)) (ts1 ++ [t]).
Proof.
  intros Hgate Hm Hts H1 Ht. rewrite logToStreams_passing by done.
  destruct (resolve_runs m v md lv σ Hm) as (σ1 & Hrun1 & Hl1 & Ht1 & Hrec).
  rewrite (bind_Ok _ _ _ _ _ Hrun1). unfold dispatchResolved.
  rewrite (bind_Ok _ _ _ _ _ Hrec), Hts.
  destruct (checkTriggers_throws ts1 ts2 t (recordOf m v md lv σ) e H1 (Ht _) σ1)
    as (σ2 & Hrun2 & Ht2).
  rewrite (bind_Throw _ _ _ _ _ Hrun2). simpl.
  by rewrite Ht2, Ht1, <- app_assoc.
Qed.

Lemma applyFilters_pass (fl : list (@Filter V W)) (s : @Stream V W) r :
  Forall (λ f, answers (shouldFilterOut f s r) false) fl →
  runs (applyFilters fl s r false) false
       (map (λ f, EvFilter (fid f) (sid s) r) fl).
Proof.
  induction 1 as [|f fl Hf _ IH]; simpl; [apply runs_ret|].
  apply (runs_bind _ _ false [_] false); [by apply runs_call|done].
Qed.

(** X9. A sink whose [handle] throws aborts the call: the error comes out of
    the logging method and the sinks registered after it are not processed;
    every call that was made to a sink is addressed to the throwing sink or
    to one registered before it. *)
Theorem throwing_sink_aborts lv (m : @MsgArg V W) md (σ : @State V W) v
    pre s post e :
  (minLevel (logger σ) >? lv) = false →
  resolvesTo m v →
  streams (logger σ) = pre ++ s :: post →
  Forall blindTrigger (triggers (logger σ)) →
  Forall blindFilter (filters (logger σ)) →
  Forall blindObfuscator (obfuscators (logger σ)) →
  Forall blindSink pre →
  (∀ r, Forall (λ f, answers (shouldFilterOut f s r) false) (filters (logger σ))) →
  (∀ r w, (handle s r w).1 = Throw e) →
  ∃ sinkPart,
    (logToStreams clock lv m md σ).1 = Throw e ∧
    trace (logToStreams clock lv m md σ).2 =
      trace σ ++ supplierEvents m
        ++ map (λ t, EvCheck (tid t) (recordOf m v md lv σ)) (triggers (logger σ))
        ++ sinkPart ∧
    amongSinks (pre ++ [s]) sinkPart.
Proof.
  intros Hgate Hm Hsl Hts Hfl Hol Hpre Hpass Hthrow.
  set (r := recordOf m v md lv σ).
  destruct (processStreams_runs _ _ pre r Hfl Hol Hpre) as (r0 & e0 & R0 & A0).
  destruct (applyObfuscators_runs (obfuscators (logger σ)) s r0 false Hol)
    as (r1 & e2 & O1 & A2).
  set (e1 := map (λ f, EvFilter (fid f) (sid s) r0) (filters (logger σ))).
  assert (Hs : throwsAfter (processStream (filters (logger σ))
                              (obfuscators (logger σ)) s r0) e
                           (e1 ++ e2 ++ [EvHandle (sid s) r1])).
  { unfold processStream.
    eapply throwsAfter_then; [by apply applyFilters_pass|].
    eapply throwsAfter_then; [exact O1|].
    apply throwsAfter_bind. by apply throwsAfter_call. }
  assert (Hloop : throwsAfter (processStreams (filters (logger σ))
                                 (obfuscators (logger σ)) (pre ++ s :: post) r) e
                              (e0 ++ e1 ++ e2 ++ [EvHandle (sid s) r1])).
  { intros σa. rewrite processStreams_app.
    destruct (R0 σa) as (σb & Eb & Tb). rewrite (bind_Ok _ _ _ _ _ Eb). simpl.
    destruct (Hs σb) as (σc & Ec & Tc). rewrite (bind_Throw _ _ _ _ _ Ec).
    exists σc. split; [done|]. by rewrite Tc, Tb, <- app_assoc. }
  exists (e0 ++ e1 ++ e2 ++ [EvHandle (sid s) r1]).
  rewrite logToStreams_passing by done.
  destruct (resolve_runs m v md lv σ Hm) as (σ1 & Hrun1 & Hl1 & Ht1 & Hrec).
  rewrite (bind_Ok _ _ _ _ _ Hrun1). unfold dispatchResolved.
  rewrite (bind_Ok _ _ _ _ _ Hrec).
  destruct (checkTriggers_runs _ r Hts σ1) as (σ2 & Hrun2 & Ht2).
  rewrite (bind_Ok _ _ _ _ _ Hrun2), Hsl.
  destruct (Hloop σ2) as (σ3 & Hrun3 & Ht3).
  rewrite (bind_Throw _ _ _ _ _ Hrun3). simpl.
  split; [done|]. split; [by rewrite Ht3, Ht2, Ht1, <- !app_assoc|].
  unfold amongSinks. rewrite !Forall_app. repeat split.
  - eapply amongSinks_mono; [|exact A0]. set_solver.
  - apply Forall_forall. intros ev Hev. apply list_elem_of_fmap in Hev as (f & -> & _).
    exists s. split; [set_solver|done].
  - apply (amongSinks_about s); [set_solver|done].
  - repeat constructor. exists s. split; [set_solver|done].
Qed.

End Lifecycle.

(** *** Construction: where the minimum level comes from *)

Section Construction.

Context {V W : Type}.

(** [nameToLevel] is in [levels.ts], which is not among the sources; the
    constructor only asks whether its answer is [undefined]. *)
Variable nameToLevel : string → option Level.
Variable L : Levels.
(** [new ConsoleStream()], the default sink. *)
Variable console : @Stream V W.

(** [arg.slice(n)] *)
Fixpoint slice (n : nat) (s : string) : string :=
  match n, s with
  | O, _ => s
  | S n', String _ s' => slice n' s'
  | S _, EmptyString => EmptyString
  end.

(** [getArgsMinLevel]: the rest of the first argument that starts with
    ["minLogLevel="]. *)
Fixpoint getArgsMinLevel (args : list string) : option string :=
  match args with
  | [] => None
  | arg :: rest =>
      if String.prefix "minLogLevel=" arg
      then Some (slice (String.length "minLogLevel=") arg)
      else getArgsMinLevel rest
  end.

(** [getEnvMinLevel]: the lookup may throw (no permission to read the
    environment); any error is caught and answered with [undefined]. *)
Definition getEnvMinLevel (getEnv : string → result (option string)) :
    option string :=
  match getEnv "LOGGEAR_MIN_LEVEL" with
  | Ok v => v
  | _ => None
  end.

(** A string is truthy when it is not empty. *)
Definition truthy (s : string) : bool :=
  match s with EmptyString => false | _ => true end.

(** The level and its origin, as the constructor settles them. *)
Definition resolveMinLevel (args : list string)
    (getEnv : string → result (option string)) : Level * string :=
  let fromEnv :=
    match getEnvMinLevel getEnv with
    | Some envDefaultMinLevel =>
        if truthy envDefaultMinLevel then
          match nameToLevel envDefaultMinLevel with
          | Some lv => (lv, "environment variable")
          | None => (DEBUG L, "default value")
          end
        else (DEBUG L, "default value")
    | None => (DEBUG L, "default value")
    end in
  match getArgsMinLevel args with
  | Some argsMinLevel =>
      match nameToLevel argsMinLevel with
      | Some lv => (lv, "command line arguments")
      | None => fromEnv
      end
  | None => fromEnv
  end.

(** [new Logger()], with the process arguments, the environment and the
    time of the call. *)
Definition newLogger (args : list string)
    (getEnv : string → result (option string)) (now : Z) : @Logger V W :=
  let (lv, origin) := resolveMinLevel args getEnv in
  {| minLevel := lv; streams := [console]; filters := []; triggers := [];
     obfuscators := []; streamAdded := false;
     meta := {| minLogLevel := lv; minLogLevelFrom := origin;
                sessionStarted := now; hostname := "unavailable" |} |}.

Definition levelArg (name : string) : string := "minLogLevel=" +:+ name.

Lemma prefix_app (p s : string) : String.prefix p (p +:+ s) = true.
Proof.
  induction p as [|c p IH]; [by destruct s|].
  change (String c p +:+ s) with (String c (p +:+ s)). simpl.
  destruct (Ascii.ascii_dec c c); [exact IH|done].
Qed.

Lemma getArgsMinLevel_first pre name post :
  Forall (λ a, String.prefix "minLogLevel=" a = false) pre →
  getArgsMinLevel (pre ++ levelArg name :: post) = Some name.
Proof.
  induction 1 as [|a pre Ha _ IH]; simpl.
  - unfold levelArg. rewrite prefix_app. f_equal.
  - by rewrite Ha.
Qed.

Lemma getArgsMinLevel_none args :
  Forall (λ a, String.prefix "minLogLevel=" a = false) args →
  getArgsMinLevel args = None.
Proof. induction 1 as [|a args Ha _ IH]; simpl; [done|]. by rewrite Ha. Qed.

(** X10. [getArgsMinLevel] gives back the name that follows
    ["minLogLevel="] in the first argument that starts with it, whatever
    comes after that argument, and nothing when no argument starts with
    it. *)
Theorem args_min_level_first_match pre name post others :
  Forall (λ a, String.prefix "minLogLevel=" a = false) pre →
  Forall (λ a, String.prefix "minLogLevel=" a = false) others →
  getArgsMinLevel (pre ++ levelArg name :: post) = Some name ∧
  getArgsMinLevel others = None.
Proof.
  intros Hpre Hothers.
  split; [by apply getArgsMinLevel_first|by apply getArgsMinLevel_none].
Qed.

(** X11. A level named on the command line wins over the environment: with
    a first ["minLogLevel=name"] argument whose name is a level, the logger
    starts at that level and its meta says so, whatever the environment
    holds and whether or not it can be read.  The logger starts with the
    console sink alone. *)
Theorem command_line_level_wins pre name post getEnv now lv :
  Forall (λ a, String.prefix "minLogLevel=" a = false) pre →
  nameToLevel name = Some lv →
  let lg := newLogger (pre ++ levelArg name :: post) getEnv now in
  minLevel lg = lv ∧
  minLogLevel (meta lg) = lv ∧
  minLogLevelFrom (meta lg) = "command line arguments" ∧
  streams lg = [console] ∧ streamAdded lg = false.
Proof.
  intros Hpre Hname. unfold newLogger, resolveMinLevel.
  by rewrite (getArgsMinLevel_first pre name post Hpre), Hname.
Qed.

(** X12. Without a ["minLogLevel="] argument the environment variable
    decides.  A non-empty value sets the level that [nameToLevel] gives for
    it, with origin "environment variable": whatever the value is, also
    when it is not the name of a level and [nameToLevel] answers with a
    number all the same.  A variable that is unset or empty, or an
    environment that cannot be read, leaves the default, DEBUG.  In every
    case the meta records the level the logger uses. *)
Theorem environment_level_fallback args getEnv now :
  getArgsMinLevel args = None →
  let lg := newLogger args getEnv now in
  minLogLevel (meta lg) = minLevel lg ∧
  (∀ e lv, getEnv "LOGGEAR_MIN_LEVEL" = Ok (Some e) → truthy e = true →
           nameToLevel e = Some lv →
           minLevel lg = lv ∧ minLogLevelFrom (meta lg) = "environment variable") ∧
  ((getEnv "LOGGEAR_MIN_LEVEL" = Ok None ∨
    getEnv "LOGGEAR_MIN_LEVEL" = Ok (Some "") ∨
    (∃ err, getEnv "LOGGEAR_MIN_LEVEL" = Throw err)) →
   minLevel lg = DEBUG L ∧ minLogLevelFrom (meta lg) = "default value").
Proof.
  intros Hargs lg.
  assert (Hres : resolveMinLevel args getEnv =
            match getEnvMinLevel getEnv with
            | Some e =>
                if truthy e then
                  match nameToLevel e with
                  | Some lv => (lv, "environment variable")
                  | None => (DEBUG L, "default value")
                  end
                else (DEBUG L, "default value")
            | None => (DEBUG L, "default value")
            end).
  { unfold resolveMinLevel. by rewrite Hargs. }
  unfold lg, newLogger. rewrite Hres. unfold getEnvMinLevel.
  split; [|split].
  - by destruct (match getEnv _ with Ok v => v | _ => None end) as [e|];
      [destruct (truthy e), (nameToLevel e)|].
  - intros e lv -> Ht Hn. by rewrite Ht, Hn.
  - intros [->|[->|(err & ->)]]; done.
Qed.

End Construction.

(** *** Concrete runs of the lifecycle, the phases and the constructor *)

(** The names of the levels; any other name is answered with 1, as the
    tests of the logger expect. *)
Definition nameToLevel0 (name : string) : option Level :=
  if String.eqb name "DEBUG" then Some 10
  else if String.eqb name "INFO" then Some 20
  else if String.eqb name "WARNING" then Some 30
  else if String.eqb name "ERROR" then Some 40
  else if String.eqb name "CRITICAL" then Some 50
  else Some 1.

(** A logger as the constructor leaves it, with [sink 0] for the console
    sink. *)
Definition started (args : list string) (getEnv : string → result (option string)) :
    @State string nat :=
  {| logger := newLogger nameToLevel0 levels (sink 0) args getEnv 0;
     world := 0%nat; trace := [] |}.

Definition noEnv : string → result (option string) := λ _, Ok None.

Definition counting (i : nat) : @Trigger string nat :=
  {| tid := i; check := λ _ w, (Ok tt, S w) |}.

Definition alarm (i : nat) : @Trigger string nat :=
  {| tid := i; check := λ _ w, (Throw (Error "trigger failed"), S w) |}.

Lemma testStream_hooksReturn k : hooksReturn (testStream k).
Proof.
  repeat split; intros h; intros; simplify_eq/=; by intros w.
Qed.

Lemma sink_blind k : blindSink (sink k).
Proof. by intros r w. Qed.

Lemma testStream_blind k : blindSink (testStream k).
Proof. by intros r w. Qed.

Lemma counting_blind i : blindTrigger (counting i).
Proof. by intros r w. Qed.

(** A sink whose [setup] and [logHeader] return and whose [logFooter] and
    [destroy] throw. *)
Definition oneWay (k : nat) : @Stream string nat :=
  {| sid := k;
     logHeader := Some (λ _ w, (Ok tt, S w));
     logFooter := Some (λ _ w, (Throw (Error "footer failed"), S w));
     setup := Some (λ w, (Ok tt, S w));
     destroy := Some (λ w, (Throw (Error "destroy failed"), S w));
     handle := λ _ w, (Ok tt, S w) |}.

Lemma addStream_replaces_default_witness :
  let σ := started [] noEnv in
  ∃ σ', addStream (oneWay 5) σ = (Ok tt, σ') ∧
        streams (logger σ') =
          (if streamAdded (logger σ) then streams (logger σ) else []) ++ [oneWay 5] ∧
        streamAdded (logger σ') = true ∧
        trace σ' = trace σ ++ setupEvents (oneWay 5) (meta (logger σ)) ∧
        minLevel (logger σ') = minLevel (logger σ) ∧
        filters (logger σ') = filters (logger σ) ∧
        triggers (logger σ') = triggers (logger σ) ∧
        obfuscators (logger σ') = obfuscators (logger σ) ∧
        meta (logger σ') = meta (logger σ).
Proof.
  apply (addStream_replaces_default (started [] noEnv) (oneWay 5)).
  split; intros h; intros; simplify_eq/=; by intros w.
Defined.

(** The run of the previous lemma: the console sink is replaced, and the
    hooks called are [setup] and [logHeader]. *)
Example addStream_first_sink_run :
  let σ' := (addStream (oneWay 5) (started [] noEnv)).2 in
  streams (logger (started [] noEnv)) = [sink 0] ∧
  streams (logger σ') = [oneWay 5] ∧
  trace σ' = [EvSetup 5; EvHeader 5 (meta (logger (started [] noEnv)))].
Proof. repeat split. Qed.

Lemma addStream_removeStream_round_trip_witness :
  let σ := mkLogger 10 [sink 1] [] [] in
  ∃ σ', (addStream (testStream 5) ;;; removeStream (testStream 5)) σ = (Ok tt, σ') ∧
        streams (logger σ') =
          (if streamAdded (logger σ) then streams (logger σ) else []) ∧
        trace σ' = trace σ ++ setupEvents (testStream 5) (meta (logger σ))
                           ++ teardownEvents (testStream 5) (meta (logger σ)).
Proof.
  apply (addStream_removeStream_round_trip (mkLogger 10 [sink 1] [] []) (testStream 5)).
  - apply testStream_hooksReturn.
  - repeat constructor. simpl. lia.
Defined.

Lemma unload_footers_then_destroys_witness :
  let σ := mkLogger 10 [testStream 1; testStream 2] [] [] in
  ∃ σ', unload σ = (Ok tt, σ') ∧
        trace σ' = trace σ ++
          concat (map (λ s, teardownEvents s (meta (logger σ))) (streams (logger σ))) ∧
        logger σ' = logger σ.
Proof.
  apply (unload_footers_then_destroys (mkLogger 10 [testStream 1; testStream 2] [] [])).
  repeat constructor; apply testStream_hooksReturn.
Defined.

Lemma add_remove_handler_round_trip_witness :
  let σ := mkLogger 10 [sink 1] [pass 0] [mark 0] in
  (addFilter (dropFor 1 1) ;;; removeFilter (dropFor 1 1)) σ = (Ok tt, σ) ∧
  (addTrigger (counting 0) ;;; removeTrigger (counting 0)) σ = (Ok tt, σ) ∧
  (addObfuscator (redactFor 1 1) ;;; removeObfuscator (redactFor 1 1)) σ = (Ok tt, σ) ∧
  removeFilter (dropFor 1 1) σ = (Ok tt, σ) ∧
  removeTrigger (counting 0) σ = (Ok tt, σ) ∧
  removeObfuscator (redactFor 1 1) σ = (Ok tt, σ).
Proof.
  apply (add_remove_handler_round_trip (mkLogger 10 [sink 1] [pass 0] [mark 0])
           (dropFor 1 1) (counting 0) (redactFor 1 1));
    repeat constructor; simpl; lia.
Defined.

Lemma withLevel_moves_the_gate_witness :
  let σ := mkLogger 10 [sink 1] [] [] in
  let f : Handler string := λ w, (Ok "expensive", S w) in
  let σ1 := (withLevel 30 σ).2 in
  minLevel (logger σ1) = 30 ∧
  minLogLevel (meta (logger σ1)) = 30 ∧
  minLogLevelFrom (meta (logger σ1)) = "logger.level()" ∧
  logToStreams clock0 20 (Supplier f) [] σ1 = (Ok None, σ1) ∧
  ∃ l, trace (logToStreams clock0 40 (Supplier f) [] σ1).2
       = trace σ ++ EvSupplier :: l.
Proof.
  apply (withLevel_moves_the_gate clock0 (mkLogger 10 [sink 1] [] []) 30 20 40
           (λ w, (Ok "expensive", S w)) []); lia.
Defined.

(** A logger with two triggers, a filter, an obfuscator and two sinks. *)
Definition busy : @State string nat :=
  {| logger := {| minLevel := 10; streams := [sink 1; sink 2];
                  filters := [dropFor 0 1]; triggers := [counting 0; counting 1];
                  obfuscators := [mark 0]; streamAdded := true; meta := meta0 |};
     world := 0%nat; trace := [] |}.

Lemma busy_blind :
  Forall blindTrigger (triggers (logger busy)) ∧
  Forall blindFilter (filters (logger busy)) ∧
  Forall blindObfuscator (obfuscators (logger busy)) ∧
  Forall blindSink (streams (logger busy)).
Proof.
  repeat split; repeat constructor;
    try (intros r w; reflexivity);
    intros s r; eexists; intros w; reflexivity.
Qed.

Lemma emit_phases_witness :
  ∃ σ' sinkPart,
    logToStreams clock0 20 costly [] busy = (Ok (Some "expensive"), σ') ∧
    trace σ' = trace busy ++ supplierEvents costly
                 ++ map (λ t, EvCheck (tid t) (recordOf clock0 costly "expensive" [] 20 busy))
                        (triggers (logger busy))
                 ++ sinkPart ∧
    amongSinks (streams (logger busy)) sinkPart.
Proof.
  destruct busy_blind as (Ht & Hf & Ho & Hs).
  apply (emit_phases clock0 20 costly [] busy "expensive"); done.
Defined.

Definition hello : @MsgArg string nat := Value "hello".

Definition plainMsg : @MsgArg string nat := Value "m".

Lemma every_sink_gets_the_record_witness :
  let σ := mkLogger 10 [sink 1; sink 2; sink 3] [] [] in
  ∃ σ', logToStreams clock0 20 hello [] σ = (Ok (Some "hello"), σ') ∧
        trace σ' = trace σ ++ supplierEvents hello
                     ++ map (λ t, EvCheck (tid t)
                                    (recordOf clock0 hello "hello" [] 20 σ))
                            (triggers (logger σ))
                     ++ map (λ s, EvHandle (sid s)
                                    (recordOf clock0 hello "hello" [] 20 σ))
                            (streams (logger σ)).
Proof.
  apply (every_sink_gets_the_record clock0 20 hello []
           (mkLogger 10 [sink 1; sink 2; sink 3] [] []) "hello"); try done.
  repeat constructor; apply sink_blind.
Defined.

Lemma throwing_trigger_aborts_witness :
  let σ := {| logger := {| minLevel := 10; streams := [sink 1];
                           filters := []; obfuscators := [];
                           triggers := [counting 0; alarm 1; counting 2];
                           streamAdded := true; meta := meta0 |};
              world := 0%nat; trace := [] |} in
  (logToStreams clock0 20 plainMsg [] σ).1 = Throw (Error "trigger failed") ∧
  trace (logToStreams clock0 20 plainMsg [] σ).2 =
    trace σ ++ supplierEvents plainMsg
      ++ map (λ t, EvCheck (tid t) (recordOf clock0 plainMsg "m" [] 20 σ))
             ([counting 0] ++ [alarm 1]).
Proof.
  apply (throwing_trigger_aborts clock0 20 plainMsg [] _ "m"
           [counting 0] (alarm 1) [counting 2] (Error "trigger failed")); try done.
  constructor; [apply counting_blind|constructor].
Defined.

Lemma throwing_sink_aborts_witness :
  let σ := mkLogger 10 [sink 1; failing 2; sink 3] [pass 0] [mark 0] in
  ∃ sinkPart,
    (logToStreams clock0 20 plainMsg [] σ).1 = Throw (Error "sink failed") ∧
    trace (logToStreams clock0 20 plainMsg [] σ).2 =
      trace σ ++ supplierEvents plainMsg
        ++ map (λ t, EvCheck (tid t) (recordOf clock0 plainMsg "m" [] 20 σ))
               (triggers (logger σ))
        ++ sinkPart ∧
    amongSinks ([sink 1] ++ [failing 2]) sinkPart.
Proof.
  apply (throwing_sink_aborts clock0 20 plainMsg []
           (mkLogger 10 [sink 1; failing 2; sink 3] [pass 0] [mark 0]) "m"
           [sink 1] (failing 2) [sink 3] (Error "sink failed")); try done.
  - constructor; [|constructor]. intros s r. by exists false.
  - constructor; [|constructor]. intros s r. eexists. by intros w.
  - constructor; [apply sink_blind|constructor].
  - intros r. constructor; [|constructor]. by intros w.
Defined.

Lemma args_min_level_first_match_witness :
  getArgsMinLevel (["--verbose"] ++ levelArg "INFO" :: ["minLogLevel=ERROR"])
    = Some "INFO" ∧
  getArgsMinLevel ["--verbose"; "MINLOGLEVEL=INFO"] = None.
Proof.
  apply (args_min_level_first_match ["--verbose"] "INFO" ["minLogLevel=ERROR"]
           ["--verbose"; "MINLOGLEVEL=INFO"]); by repeat constructor.
Defined.

(** The test "Args trump env variable min log levels". *)
Lemma command_line_level_wins_witness :
  let lg := newLogger (V := string) (W := nat) nameToLevel0 levels (sink 0)
              ([] ++ levelArg "INFO" :: [])
              (λ _, Ok (Some "ERROR")) 0 in
  minLevel lg = 20 ∧
  minLogLevel (meta lg) = 20 ∧
  minLogLevelFrom (meta lg) = "command line arguments" ∧
  streams lg = [sink 0] ∧ streamAdded lg = false.
Proof.
  apply (command_line_level_wins nameToLevel0 levels (sink 0) [] "INFO" []
           (λ _, Ok (Some "ERROR")) 0 20); [constructor|reflexivity].
Defined.

(** An environment whose variable holds a value that is not the name of a
    level. *)
Definition rubbishEnv : string → result (option string) :=
  λ key, Ok (if String.eqb key "LOGGEAR_MIN_LEVEL" then Some "rubbish!" else None).

Lemma environment_level_fallback_witness :
  let lg := newLogger (V := string) (W := nat) nameToLevel0 levels (sink 0)
              ["--verbose"] rubbishEnv 0 in
  minLogLevel (meta lg) = minLevel lg ∧
  (∀ e lv, rubbishEnv "LOGGEAR_MIN_LEVEL" = Ok (Some e) → truthy e = true →
           nameToLevel0 e = Some lv →
           minLevel lg = lv ∧ minLogLevelFrom (meta lg) = "environment variable") ∧
  ((rubbishEnv "LOGGEAR_MIN_LEVEL" = Ok None ∨
    rubbishEnv "LOGGEAR_MIN_LEVEL" = Ok (Some "") ∨
    (∃ err, rubbishEnv "LOGGEAR_MIN_LEVEL" = Throw err)) →
   minLevel lg = DEBUG levels ∧ minLogLevelFrom (meta lg) = "default value").
Proof.
  apply (environment_level_fallback nameToLevel0 levels (sink 0) ["--verbose"]
           rubbishEnv 0).
  reflexivity.
Defined.

(** The logger of the previous lemma starts at level 1, the answer for a name
    that is not a level, and not at the default; with the variable unset,
    empty or out of reach it starts at DEBUG. *)
Example environment_runs :
  let emptyEnv : string → result (option string) := λ _, Ok (Some "") in
  let denied : string → result (option string) :=
    λ _, Throw (Error "PermissionDenied") in
  resolveMinLevel nameToLevel0 levels ["--verbose"] rubbishEnv
    = (1, "environment variable") ∧
  resolveMinLevel nameToLevel0 levels ["--verbose"] noEnv = (10, "default value") ∧
  resolveMinLevel nameToLevel0 levels ["--verbose"] emptyEnv = (10, "default value") ∧
  resolveMinLevel nameToLevel0 levels ["--verbose"] denied = (10, "default value").
Proof. repeat split. Qed.

(** The tests "Logger min level can be set via env variable" and "Logger min
    level set to 1 if rubbish set for cli argument", and a logger whose
    environment cannot be read. *)
Example constructor_runs :
  let env : string → result (option string) :=
    λ key, Ok (if String.eqb key "LOGGEAR_MIN_LEVEL" then Some "ERROR" else None) in
  let denied : string → result (option string) :=
    λ _, Throw (Error "PermissionDenied") in
  resolveMinLevel nameToLevel0 levels [] env = (40, "environment variable") ∧
  resolveMinLevel nameToLevel0 levels ["minLogLevel=rubbish!"] env
    = (1, "command line arguments") ∧
  resolveMinLevel nameToLevel0 levels [] denied = (10, "default value").
Proof. repeat split. Qed.

End Logger.

(** ** The file system, as the file sink uses it *)

Module Deno.

(** A file system is a finite map from paths to file contents.  A path that
    is not in the map does not exist; [Deno.statSync] on it throws
    [NotFound], which is the only failure of the file system in this
    model. *)
Abbreviation FS := (gmap string (list Byte.byte)).

Record FileInfo := { size : Z }.

Definition statSync (path : string) (fs : FS) : result FileInfo :=
  match fs !! path with
  | Some content => Ok {| size := Z.of_nat (length content) |}
  | None => Throw (NotFound path)
  end.

Definition removeSync (path : string) : M FS unit :=
  λ fs, match fs !! path with
        | Some _ => (Ok tt, delete path fs)
        | None => (Throw (NotFound path), fs)
        end.

(** [Deno.renameSync(oldpath, newpath)] replaces [newpath] if it exists. *)
Definition renameSync (oldpath newpath : string) : M FS unit :=
  λ fs, match fs !! oldpath with
        | Some content => (Ok tt, <[newpath := content]> (delete oldpath fs))
        | None => (Throw (NotFound oldpath), fs)
        end.

Record OpenOptions := {
  createNew : bool;
  create : bool;
  append : bool;
  truncate : bool;
  write : bool;
}.

(** An open file: its resource id and the path it was opened at.  The sink
    closes a file before it renames it, so a write through an open file
    lands at that path; every write of the sink is at the end of the file
    (a file opened without [append] was truncated or is new).  Whether a
    resource id is still open is not tracked: the sink replaces its file and
    its buffer right after it closes the old file. *)
Record File := { rid : nat; path : string }.

(** The effect of [Deno.openSync(path, options)] on the file system. *)
Definition openFile (p : string) (o : OpenOptions) : M FS unit :=
  λ fs, match fs !! p with
        | Some content =>
            if createNew o then (Throw (AlreadyExists p), fs)
            else if truncate o then (Ok tt, <[p := []]> fs)
            else (Ok tt, fs)
        | None =>
            if createNew o || create o then (Ok tt, <[p := []]> fs)
            else (Throw (NotFound p), fs)
        end.

Definition content (p : string) (fs : FS) : list Byte.byte :=
  default [] (fs !! p).

(** [Deno.writeAllSync(file, data)] *)
Definition writeAllSync (f : File) (data : list Byte.byte) (fs : FS) : FS :=
  <[path f := content (path f) fs ++ data]> fs.

(** [BufWriterSync] of the Deno standard library, [io/bufio.ts]: a writer
    with a buffer of [bufSize] bytes in front of [writer]. *)
Record BufWriterSync := {
  writer : File;
  bufSize : nat;
  pending : list Byte.byte;   (* buf[0 .. usedBufferBytes) *)
}.

Definition DEFAULT_BUF_SIZE : nat := 4096.

(** [new BufWriterSync(writer, size)]: a size that is not positive is
    replaced by the default size. *)
Definition newBufWriterSync (w : File) (size : Z) : BufWriterSync :=
  {| writer := w;
     bufSize := if size <=? 0 then DEFAULT_BUF_SIZE else Z.to_nat size;
     pending := [] |}.

Definition buffered (b : BufWriterSync) : nat := length (pending b).
Definition available (b : BufWriterSync) : nat := (bufSize b - buffered b)%nat.

Definition setPending (b : BufWriterSync) (l : list Byte.byte) : BufWriterSync :=
  {| writer := writer b; bufSize := bufSize b; pending := l |}.

(** [BufWriterSync.flush()] *)
Definition bufFlush (b : BufWriterSync) (fs : FS) : BufWriterSync * FS :=
  if Nat.eqb (buffered b) 0 then (b, fs)
  else (setPending b [], writeAllSync (writer b) (pending b) fs).

(** [BufWriterSync.writeSync(data)].  The library loops while the data do
    not fit in the free part of the buffer: with an empty buffer it writes
    the data straight to the file; otherwise it fills the buffer, flushes it
    and goes round again with the rest.  The loop therefore runs at most
    twice, and is written out here. *)
Definition bufWriteSync (data : list Byte.byte) (b : BufWriterSync) (fs : FS) :
    BufWriterSync * FS :=
  if (length data <=? available b)%nat then
    (setPending b (pending b ++ data), fs)
  else if Nat.eqb (buffered b) 0 then
    (b, writeAllSync (writer b) data fs)
  else
    let n := available b in
    let '(b1, fs1) := bufFlush (setPending b (pending b ++ take n data)) fs in
    let rest := drop n data in
    if (length rest <=? available b1)%nat then (setPending b1 rest, fs1)
    else (b1, writeAllSync (writer b1) rest fs1).

(** Everything written through [b] so far, flushed or not. *)
Definition written (b : BufWriterSync) (fs : FS) : list Byte.byte :=
  content (path (writer b)) fs ++ pending b.

Lemma content_writeAllSync f data fs :
  content (path f) (writeAllSync f data fs) = content (path f) fs ++ data.
Proof. unfold content, writeAllSync. by rewrite lookup_insert_eq. Qed.

Lemma bufFlush_spec b fs :
  pending (bufFlush b fs).1 = [] ∧
  writer (bufFlush b fs).1 = writer b ∧
  bufSize (bufFlush b fs).1 = bufSize b ∧
  content (path (writer b)) (bufFlush b fs).2 = written b fs.
Proof.
  unfold bufFlush, written, buffered.
  destruct (pending b) as [|x l] eqn:E; simpl.
  - by rewrite E, app_nil_r.
  - by rewrite content_writeAllSync.
Qed.

(** Writing through the buffer appends the data to what was written, in
    order, whatever the state of the buffer. *)
Lemma bufWriteSync_written data b fs :
  written (bufWriteSync data b fs).1 (bufWriteSync data b fs).2 =
  written b fs ++ data ∧
  writer (bufWriteSync data b fs).1 = writer b.
Proof.
  unfold bufWriteSync.
  destruct (length data <=? available b)%nat.
  { unfold written. simpl. by rewrite app_assoc. }
  destruct (Nat.eqb (buffered b) 0) eqn:E.
  { unfold written. simpl. rewrite content_writeAllSync.
    apply Nat.eqb_eq in E. unfold buffered in E.
    apply length_zero_iff_nil in E. by rewrite E, !app_nil_r. }
  set (b0 := setPending b (pending b ++ take (available b) data)).
  pose proof (bufFlush_spec b0 fs) as (Hp & Hw & _ & Hc).
  destruct (bufFlush b0 fs) as [b1 fs1]. simpl in *.
  assert (Hdata : (pending b ++ take (available b) data) ++ drop (available b) data
                  = pending b ++ data) by by rewrite <- app_assoc, take_drop.
  destruct (length (drop (available b) data) <=? available b1)%nat;
    unfold written in *; simpl in *.
  - split; [|done]. rewrite Hw, Hc, <- !app_assoc.
    by rewrite (app_assoc (pending b)), Hdata.
  - split; [|done]. rewrite Hw, content_writeAllSync, Hc, Hp, app_nil_r.
    rewrite <- !app_assoc. by rewrite (app_assoc (pending b)), Hdata.
Qed.

(** The writer only touches the file it was opened on. *)
Lemma bufFlush_lookup b fs c :
  fs !! path (writer b) = Some c →
  (bufFlush b fs).2 !! path (writer b) = Some (c ++ pending b).
Proof.
  intros Hc. unfold bufFlush, buffered.
  destruct (pending b) as [|x l] eqn:E; simpl.
  - by rewrite app_nil_r.
  - unfold writeAllSync, content. by rewrite lookup_insert_eq, Hc.
Qed.

Lemma bufFlush_other b fs p :
  p ≠ path (writer b) → (bufFlush b fs).2 !! p = fs !! p.
Proof.
  intros Hp. unfold bufFlush. destruct (Nat.eqb (buffered b) 0); [done|].
  simpl. unfold writeAllSync. by rewrite lookup_insert_ne.
Qed.

Lemma bufWriteSync_other data b fs p :
  p ≠ path (writer b) → (bufWriteSync data b fs).2 !! p = fs !! p.
Proof.
  intros Hp. unfold bufWriteSync.
  destruct (length data <=? available b)%nat; [done|].
  destruct (Nat.eqb (buffered b) 0).
  { simpl. unfold writeAllSync. by rewrite lookup_insert_ne. }
  set (b0 := setPending b (pending b ++ take (available b) data)).
  pose proof (bufFlush_other b0 fs p Hp) as Hfl.
  pose proof (bufFlush_spec b0 fs) as (_ & Hw & _).
  destruct (bufFlush b0 fs) as [b1 fs1]. simpl in *.
  destruct (length (drop (available b) data) <=? available b1)%nat; [done|].
  simpl. unfold writeAllSync. rewrite lookup_insert_ne by by rewrite Hw. done.
Qed.

End Deno.

(** ** Rotation strategies ([src/streams/fileStream/rotationStrategy.ts]) *)

Module Rotation.
Import Deno.

(** ["append" | "overwrite" | "mustNotExist"] *)
Inductive LogFileInitStrategy := Append | Overwrite | MustNotExist.

#[export] Instance LogFileInitStrategy_eq_dec : EqDecision LogFileInitStrategy.
Proof. solve_decision. Defined.

Inductive RetentionType := Files | Days | Hours.

(** Modelled from the spec: [LogFileRetentionPolicy] of [retentionPolicy.ts],
    which is not among the sources.  The strategy reads its [type] and its
    [quantity]; the policy is a tagged value, "keep n files" or "keep files
    newer than n days or hours", with no mutable state. *)
Record LogFileRetentionPolicy := {
  type : RetentionType;
  quantity : nat;
}.

(** [of(n).files()] *)
Definition ofFiles (n : nat) : LogFileRetentionPolicy :=
  {| type := Files; quantity := n |}.

(** [interface RotationStrategy]: an object with state [S]; its methods run
    on that state and on the file system. *)
Class RotationStrategy (S : Type) := {
  initLogs : string → LogFileInitStrategy → M (S * FS) unit;
  shouldRotate : list Byte.byte → S → bool;
  rotate : string → list Byte.byte → M (S * FS) unit;
}.

Definition onFS {S A} (c : M FS A) : M (S * FS) A :=
  λ st, let (r, fs') := c st.2 in (r, (st.1, fs')).

Definition onSelf {S} (f : S → S) : M (S * FS) unit :=
  λ st, (Ok tt, (f st.1, st.2)).

(** [fileInfo]: [undefined] for a path that is not found, any other error is
    thrown again. *)
Definition fileInfo (filePath : string) : M FS (option FileInfo) :=
  λ fs, match statSync filePath fs with
        | Ok fi => (Ok (Some fi), fs)
        | Throw (NotFound _) => (Ok None, fs)
        | Throw e => (Throw e, fs)
        | Diverge => (Diverge, fs)
        end.

Definition exists_ (file : string) : M FS bool :=
  fi <- fileInfo file ;; ret (bool_decide (is_Some fi)).

(** [filename + "." + i] *)
Definition backupName (filename : string) (i : nat) : string :=
  filename +:+ "." +:+ pretty i.

Definition collision (file : string) : JsError :=
  Error ("Found existing log file which must not exist: " +:+ file).

Record ByteRotationStrategy := {
  maxBytes : Z;
  logFileRetentionPolicy : LogFileRetentionPolicy;
  currentFileSize : Z;
}.

Definition setCurrentFileSize (n : Z) (this : ByteRotationStrategy) :=
  {| maxBytes := maxBytes this;
     logFileRetentionPolicy := logFileRetentionPolicy this;
     currentFileSize := n |}.

(** [every(maxBytes).bytes()] *)
Definition newByteRotationStrategy (maxBytes : Z) : result ByteRotationStrategy :=
  if maxBytes <? 1 then Throw (Error "Max bytes cannot be less than 1")
  else Ok {| maxBytes := maxBytes; logFileRetentionPolicy := ofFiles 7;
             currentFileSize := 0 |}.

Definition withLogFileRetentionPolicy (p : LogFileRetentionPolicy)
    (this : ByteRotationStrategy) : ByteRotationStrategy :=
  {| maxBytes := maxBytes this; logFileRetentionPolicy := p;
     currentFileSize := currentFileSize this |}.

(** [for (let i = ...; i <= quantity; i++)] of [initLogs], with [n]
    iterations left and the loop variable at [i]: an existing
    [filename.i] is a collision under [mustNotExist] and is removed
    otherwise. *)
Fixpoint sweepBackups (initStrategy : LogFileInitStrategy) (filename : string)
    (n i : nat) : M FS unit :=
  match n with
  | O => ret tt
  | S n' =>
      found <- exists_ (backupName filename i) ;;
      (if found then
         match initStrategy with
         | MustNotExist => throw (collision (backupName filename i))
         | _ => removeSync (backupName filename i)
         end
       else ret tt) ;;;
      sweepBackups initStrategy filename n' (S i)
  end.

(** [for (let i = maxFiles - 1; i >= 0; i--)] of [rotate], with the loop
    variable at [n - 1]. *)
Fixpoint cascade (filename : string) (n : nat) : M FS unit :=
  match n with
  | O => ret tt
  | S i =>
      let source := if Nat.eqb i 0 then filename else backupName filename i in
      let dest := backupName filename (i + 1) in
      found <- exists_ source ;;
      (if found then renameSync source dest else ret tt) ;;;
      cascade filename i
  end.

Section ByteRotation.

(** The branches of [initLogs] and [rotate] for a retention policy by age
    scan the directory and compare file birth times with
    [LogFileRetentionPolicy.maxPeriodDate()], which is in
    [retentionPolicy.ts]; they are taken as given. *)
Variable initLogsByAge :
  LogFileRetentionPolicy → string → LogFileInitStrategy → M FS unit.
Variable highestBackup : LogFileRetentionPolicy → string → FS → nat.

Definition ByteRotationStrategy_initLogs (filename : string)
    (initStrategy : LogFileInitStrategy) : M (ByteRotationStrategy * FS) unit :=
  match initStrategy with
  | Append =>
      fi <- onFS (fileInfo filename) ;;
      onSelf (setCurrentFileSize (match fi with Some i => size i | None => 0 end))
  | _ =>
      st <- get ;;
      let policy := logFileRetentionPolicy st.1 in
      match type policy with
      | Files => onFS (sweepBackups initStrategy filename (quantity policy) 1)
      | _ => onFS (initLogsByAge policy filename initStrategy)
      end
  end.

Definition ByteRotationStrategy_shouldRotate (encodedMessage : list Byte.byte)
    (this : ByteRotationStrategy) : bool :=
  currentFileSize this + Z.of_nat (length encodedMessage) >? maxBytes this.

Definition ByteRotationStrategy_rotate (filename : string)
    (logMessage : list Byte.byte) : M (ByteRotationStrategy * FS) unit :=
  st <- get ;;
  let policy := logFileRetentionPolicy st.1 in
  let maxFiles := match type policy with
                  | Files => quantity policy
                  | _ => highestBackup policy filename st.2
                  end in
  onFS (cascade filename maxFiles) ;;;
  onSelf (setCurrentFileSize (Z.of_nat (length logMessage))).

#[export] Instance ByteRotation : RotationStrategy ByteRotationStrategy := {
  initLogs := ByteRotationStrategy_initLogs;
  shouldRotate := ByteRotationStrategy_shouldRotate;
  rotate := ByteRotationStrategy_rotate;
}.

End ByteRotation.

Inductive Periods := Minutes | PHours | PDays.

Record DateTimeRotationStrategy := {
  interval : Z;
  period : Periods;
  useUTCTime : bool;
  dtRetentionPolicy : LogFileRetentionPolicy;
}.

(** The date/time strategy of this version does nothing. *)
#[export] Instance DateTimeRotation : RotationStrategy DateTimeRotationStrategy := {
  initLogs := λ _ _, ret tt;
  shouldRotate := λ _ _, false;
  rotate := λ _ _, ret tt;
}.

(** The indices up to [bound] at which a numbered backup of [filename]
    exists. *)
Definition backups (filename : string) (bound : nat) (fs : FS) : list nat :=
  filter (λ i, is_Some (fs !! backupName filename i)) (seq 1 bound).

(** *** Properties of the sweep *)

Lemma exists_spec file (fs : FS) :
  exists_ file fs = (Ok (bool_decide (is_Some (fs !! file))), fs).
Proof.
  unfold exists_, bind, fileInfo, statSync, ret.
  destruct (fs !! file) as [c|]; simpl; f_equal; f_equal;
    apply bool_decide_ext; split; intros [x Hx]; by eauto.
Qed.

Lemma backupName_inj filename i j :
  backupName filename i = backupName filename j → i = j.
Proof.
  unfold backupName. intros H.
  apply (inj (String.app filename)) in H.
  apply (inj (String.app ".")) in H.
  by apply (inj pretty) in H.
Qed.

(** Under [mustNotExist] the sweep never changes the file system. *)
Lemma sweepBackups_mustNotExist_fs filename n i (fs : FS) :
  (sweepBackups MustNotExist filename n i fs).2 = fs.
Proof.
  revert i. induction n as [|n IH]; intros i; simpl; [done|].
  unfold bind. rewrite exists_spec.
  destruct (bool_decide _); simpl; [done|]. apply IH.
Qed.

(** Under [mustNotExist] the sweep stops with a collision at the first
    backup it finds. *)
Lemma sweepBackups_mustNotExist_hit filename n i j (fs : FS) :
  (i ≤ j < i + n)%nat → is_Some (fs !! backupName filename j) →
  ∃ k, (i ≤ k ≤ j)%nat ∧ is_Some (fs !! backupName filename k) ∧
       sweepBackups MustNotExist filename n i fs =
       (Throw (collision (backupName filename k)), fs).
Proof.
  revert i. induction n as [|n IH]; intros i Hj Hex; [lia|].
  simpl. unfold bind. rewrite exists_spec.
  destruct (decide (is_Some (fs !! backupName filename i))) as [Hi|Hi].
  - exists i. rewrite bool_decide_eq_true_2 by done. simpl.
    split; [lia|]. by split.
  - rewrite bool_decide_eq_false_2 by done. simpl.
    assert (j ≠ i) by (intros ->; done).
    destruct (IH (S i)) as (k & Hk & Hk' & Hrun); [lia|done|].
    exists k. split; [lia|]. by split.
Qed.

(** Under [overwrite] the sweep returns, removes the backups numbered
    [i .. i + n - 1] and leaves every other path alone. *)
Lemma sweepBackups_overwrite filename n i (fs : FS) :
  ∃ fs', sweepBackups Overwrite filename n i fs = (Ok tt, fs') ∧
         (∀ j, (i ≤ j < i + n)%nat → fs' !! backupName filename j = None) ∧
         (∀ p, (∀ j, (i ≤ j < i + n)%nat → p ≠ backupName filename j) →
               fs' !! p = fs !! p).
Proof.
  revert i fs. induction n as [|n IH]; intros i fs; simpl.
  - exists fs. split; [done|]. split; [lia|done].
  - unfold bind at 1. rewrite exists_spec.
    set (fs1 := delete (backupName filename i) fs).
    assert (Hstep : ((if bool_decide (is_Some (fs !! backupName filename i))
                      then removeSync (backupName filename i) else ret tt) ;;;
                     sweepBackups Overwrite filename n (S i)) fs
                    = sweepBackups Overwrite filename n (S i) fs1).
    { unfold bind, removeSync, ret, fs1.
      destruct (fs !! backupName filename i) as [c|] eqn:E.
      - rewrite bool_decide_eq_true_2 by eauto. by rewrite E.
      - rewrite bool_decide_eq_false_2 by (intros [? ?]; done).
        by rewrite delete_id. }
    rewrite Hstep. destruct (IH (S i) fs1) as (fs' & Hrun & Hgone & Hkeep).
    exists fs'. split; [done|]. split.
    + intros j Hj. destruct (decide (j = i)) as [->|Hne].
      * rewrite Hkeep; [apply lookup_delete_eq|].
        intros k Hk Heq. apply backupName_inj in Heq. lia.
      * apply Hgone. lia.
    + intros p Hp. rewrite Hkeep by (intros j Hj; apply Hp; lia).
      apply lookup_delete_ne. intros Heq. apply (Hp i); [lia|done].
Qed.

(** *** Properties of the rename cascade *)

(** The path of the log of age [i]: the log file itself for 0, the backup
    numbered [i] after that. *)
Definition slot (filename : string) (i : nat) : string :=
  if Nat.eqb i 0 then filename else backupName filename i.

Lemma length_append (s1 s2 : string) :
  String.length (s1 +:+ s2) = (String.length s1 + String.length s2)%nat.
Proof.
  induction s1 as [|c s1 IH]; [done|].
  change (String c s1 +:+ s2) with (String c (s1 +:+ s2)). simpl. by rewrite IH.
Qed.

Lemma backupName_fresh filename i : backupName filename i ≠ filename.
Proof.
  intros H. apply (f_equal String.length) in H.
  unfold backupName in H. rewrite !length_append in H. simpl in H. lia.
Qed.

Lemma slot_inj filename i j : slot filename i = slot filename j → i = j.
Proof.
  unfold slot. destruct i as [|i], j as [|j]; simpl; intros H; try done.
  - symmetry in H. by apply backupName_fresh in H.
  - by apply backupName_fresh in H.
  - by apply backupName_inj in H.
Qed.

(** One turn of the loop of [rotate]. *)
Lemma rename_if_exists source dest (fs : FS) :
  (found <- exists_ source ;;
   (if found then renameSync source dest else ret tt)) fs =
  (Ok tt, match fs !! source with
          | Some c => <[dest := c]> (delete source fs)
          | None => fs
          end).
Proof.
  unfold bind. rewrite exists_spec. unfold renameSync, ret.
  destruct (fs !! source) as [c|] eqn:E.
  - rewrite bool_decide_eq_true_2 by eauto. by rewrite E.
  - by rewrite bool_decide_eq_false_2 by (intros [? ?]; done).
Qed.

(** The cascade over [n] slots returns; it moves the content of every slot
    below [n - 1] one slot up, leaves slot 0 free, and fills slot [n] from
    slot [n - 1] if that exists, in which case the old content of slot [n]
    is lost.  No other path is touched. *)
Lemma cascade_spec filename n (fs : FS) :
  ∃ fs', cascade filename n fs = (Ok tt, fs') ∧
         (∀ p, (∀ i, (i ≤ n)%nat → p ≠ slot filename i) → fs' !! p = fs !! p) ∧
         (∀ i, (i + 1 < n)%nat →
               fs' !! slot filename (S i) = fs !! slot filename i) ∧
         ((0 < n)%nat → fs' !! slot filename 0 = None) ∧
         ((0 < n)%nat →
          fs' !! slot filename n =
            match fs !! slot filename (n - 1) with
            | Some c => Some c
            | None => fs !! slot filename n
            end).
Proof.
  revert fs. induction n as [|n IH]; intros fs.
  - exists fs. split; [done|]. repeat split; try done; lia.
  - simpl cascade. fold (slot filename n).
    replace (n + 1)%nat with (Datatypes.S n) by lia.
    change (backupName filename (Datatypes.S n)) with (slot filename (Datatypes.S n)).
    set (fs1 := match fs !! slot filename n with
                | Some c => <[slot filename (Datatypes.S n) := c]>
                              (delete (slot filename n) fs)
                | None => fs
                end).
    assert (Hstep : ∀ k : M FS unit,
              (found <- exists_ (slot filename n) ;;
               (if found then renameSync (slot filename n) (slot filename (Datatypes.S n))
                else ret tt) ;;; k) fs = k fs1).
    { intros k. rewrite <- bind_assoc.
      by rewrite (bind_Ok _ _ _ _ _ (rename_if_exists _ _ fs)). }
    rewrite Hstep. clear Hstep.
    assert (Hne : slot filename (Datatypes.S n) ≠ slot filename n)
      by (intros H; apply slot_inj in H; lia).
    assert (Hfree : fs1 !! slot filename n = None).
    { unfold fs1. destruct (fs !! slot filename n) eqn:E; [|done].
      rewrite lookup_insert_ne by done. apply lookup_delete_eq. }
    assert (Htop : fs1 !! slot filename (Datatypes.S n) =
                   match fs !! slot filename n with
                   | Some c => Some c
                   | None => fs !! slot filename (Datatypes.S n)
                   end).
    { unfold fs1. destruct (fs !! slot filename n) eqn:E; [|done].
      apply lookup_insert_eq. }
    assert (Hother : ∀ p, p ≠ slot filename n → p ≠ slot filename (Datatypes.S n) →
                          fs1 !! p = fs !! p).
    { intros p H1 H2. unfold fs1. destruct (fs !! slot filename n) eqn:E; [|done].
      rewrite lookup_insert_ne by done. by apply lookup_delete_ne. }
    destruct (IH fs1) as (fs' & Hrun & Hkeep & Hshift & Hzero & Hlast).
    exists fs'. split; [exact Hrun|]. split; [|split; [|split]].
    + intros p Hp. rewrite Hkeep by (intros i Hi; apply Hp; lia).
      apply Hother; apply Hp; lia.
    + intros i Hi. destruct (decide (i + 1 = n)%nat) as [Heq|Hneq].
      * assert (Hn : (0 < n)%nat) by lia.
        replace (Datatypes.S i) with n by lia.
        rewrite (Hlast Hn). replace (n - 1)%nat with i by lia.
        rewrite Hfree.
        rewrite Hother by (intros H; apply slot_inj in H; lia).
        by destruct (fs !! slot filename i).
      * rewrite Hshift by lia.
        apply Hother; intros H; apply slot_inj in H; lia.
    + intros _. destruct n as [|n'].
      * simpl in Hrun. injection Hrun as <-. exact Hfree.
      * apply Hzero. lia.
    + intros _. replace (Datatypes.S n - 1)%nat with n by lia.
      rewrite Hkeep by (intros i Hi H; apply slot_inj in H; lia).
      exact Htop.
Qed.

(** Under [mustNotExist] a sweep that finds none of the backups it looks
    for returns and leaves the file system alone. *)
Lemma sweepBackups_mustNotExist_clean filename n i (fs : FS) :
  (∀ j, (i ≤ j < i + n)%nat → fs !! backupName filename j = None) →
  sweepBackups MustNotExist filename n i fs = (Ok tt, fs).
Proof.
  revert i. induction n as [|n IH]; intros i Hnone; simpl; [done|].
  unfold bind at 1. rewrite exists_spec.
  rewrite bool_decide_eq_false_2
    by (rewrite Hnone by lia; intros [? ?]; done).
  unfold bind, ret. simpl. rewrite IH by (intros j Hj; apply Hnone; lia). done.
Qed.

Lemma fileInfo_spec filePath (fs : FS) :
  fileInfo filePath fs =
  (Ok ((λ c, {| size := Z.of_nat (length c) |}) <$> fs !! filePath), fs).
Proof. unfold fileInfo, statSync. by destruct (fs !! filePath). Qed.

End Rotation.

(** ** The buffered file sink ([src/streams/fileStream/fileStream.ts]) *)

Module FileStream.
Import Deno Rotation.

Definition diverge {St A} : M St A := λ s, (Diverge, s).

(** The line terminator ["\n"]. *)
Definition newline : string := String (Ascii.ascii_of_nat 10) EmptyString.

(** [TextEncoder.encode]: strings are held in their UTF-8 encoding. *)
Definition encode (s : string) : list Byte.byte := String.list_byte_of_string s.

Section Sink.

Context {V S : Type} `{RS : RotationStrategy S}.

(** [BaseStream] ([baseStream.ts]) is not among the sources.  Its private
    state is [B]; the sink uses its [setup], [destroy], the getter
    [minLogLevel] and [format], which renders a record with the formatter
    the base class holds.  None of them touches the fields of the file sink
    or the file system. *)
Context {B : Type}.
Variable baseSetup baseDestroy : B → B.
Variable baseMinLogLevel : B → Level.
Variable format : B → LogRecord V → string.
Variable L : Levels.

(** The fields of [class FileStream].  [buffer] and [logFile] are
    [undefined] until [setup] has run. *)
Record FileStream := {
  super : B;
  filename : string;
  rotationStrategy : option S;
  logFileInitStrategy : LogFileInitStrategy;
  maxBufferSize : Z;
  buffer : option BufWriterSync;
  logFile : option File;
  deferredLogQueue : list (LogRecord V);
}.

(** [new FileStream(filename)] *)
Definition newFileStream (base : B) (name : string) : FileStream :=
  {| super := base; filename := name; rotationStrategy := None;
     logFileInitStrategy := Append; maxBufferSize := 8192;
     buffer := None; logFile := None; deferredLogQueue := [] |}.

(** A scheduled microtask; the sink schedules one kind only,
    [() => this.processDeferredQueue()]. *)
Inductive Task := Drain.

(** The calls the sink makes that the properties speak about. *)
Inductive Call :=
  | CInitLogs
  | CShouldRotate (encodedMsg : list Byte.byte)
  | CRotate (encodedMsg : list Byte.byte)
  | COpen (p : string) (o : OpenOptions)
  | CClose (r : nat)
  | CLog (msg : string).

(** The sink, the file system it writes to, the microtask queue of the
    runtime and the record of calls. *)
Record Sys := {
  this : FileStream;
  fs : FS;
  nextRid : nat;
  microtasks : list Task;
  calls : list Call;
}.

Definition updThis (f : FileStream → FileStream) : M Sys unit :=
  λ σ, (Ok tt, {| this := f (this σ); fs := fs σ; nextRid := nextRid σ;
                  microtasks := microtasks σ; calls := calls σ |}).

Definition setFs (fs' : FS) : M Sys unit :=
  λ σ, (Ok tt, {| this := this σ; fs := fs'; nextRid := nextRid σ;
                  microtasks := microtasks σ; calls := calls σ |}).

Definition record (c : Call) : M Sys unit :=
  λ σ, (Ok tt, {| this := this σ; fs := fs σ; nextRid := nextRid σ;
                  microtasks := microtasks σ; calls := calls σ ++ [c] |}).

Definition queueMicrotask (t : Task) : M Sys unit :=
  λ σ, (Ok tt, {| this := this σ; fs := fs σ; nextRid := nextRid σ;
                  microtasks := microtasks σ ++ [t]; calls := calls σ |}).

Definition freshRid : M Sys nat :=
  λ σ, (Ok (nextRid σ),
        {| this := this σ; fs := fs σ; nextRid := Datatypes.S (nextRid σ);
           microtasks := microtasks σ; calls := calls σ |}).

Definition setSuper (f : B → B) (t : FileStream) : FileStream :=
  {| super := f (super t); filename := filename t;
     rotationStrategy := rotationStrategy t;
     logFileInitStrategy := logFileInitStrategy t;
     maxBufferSize := maxBufferSize t; buffer := buffer t;
     logFile := logFile t; deferredLogQueue := deferredLogQueue t |}.

Definition setRotationStrategy (st : option S) (t : FileStream) : FileStream :=
  {| super := super t; filename := filename t; rotationStrategy := st;
     logFileInitStrategy := logFileInitStrategy t;
     maxBufferSize := maxBufferSize t; buffer := buffer t;
     logFile := logFile t; deferredLogQueue := deferredLogQueue t |}.

Definition setInitStrategy (m : LogFileInitStrategy) (t : FileStream) : FileStream :=
  {| super := super t; filename := filename t;
     rotationStrategy := rotationStrategy t; logFileInitStrategy := m;
     maxBufferSize := maxBufferSize t; buffer := buffer t;
     logFile := logFile t; deferredLogQueue := deferredLogQueue t |}.

Definition setMaxBufferSize (n : Z) (t : FileStream) : FileStream :=
  {| super := super t; filename := filename t;
     rotationStrategy := rotationStrategy t;
     logFileInitStrategy := logFileInitStrategy t;
     maxBufferSize := n; buffer := buffer t;
     logFile := logFile t; deferredLogQueue := deferredLogQueue t |}.

Definition setBuffer (b : option BufWriterSync) (t : FileStream) : FileStream :=
  {| super := super t; filename := filename t;
     rotationStrategy := rotationStrategy t;
     logFileInitStrategy := logFileInitStrategy t;
     maxBufferSize := maxBufferSize t; buffer := b;
     logFile := logFile t; deferredLogQueue := deferredLogQueue t |}.

Definition setLogFile (f : option File) (t : FileStream) : FileStream :=
  {| super := super t; filename := filename t;
     rotationStrategy := rotationStrategy t;
     logFileInitStrategy := logFileInitStrategy t;
     maxBufferSize := maxBufferSize t; buffer := buffer t;
     logFile := f; deferredLogQueue := deferredLogQueue t |}.

Definition setQueue (q : list (LogRecord V)) (t : FileStream) : FileStream :=
  {| super := super t; filename := filename t;
     rotationStrategy := rotationStrategy t;
     logFileInitStrategy := logFileInitStrategy t;
     maxBufferSize := maxBufferSize t; buffer := buffer t;
     logFile := logFile t; deferredLogQueue := q |}.

(** [withLogFileRotation], [withBufferSize], [withLogFileInitMode] *)
Definition withLogFileRotation (strategy : S) : M Sys unit :=
  updThis (setRotationStrategy (Some strategy)).

Definition withBufferSize (bytes : Z) : M Sys unit :=
  if bytes <? 0 then throw (Error "Buffer size cannot be negative")
  else updThis (setMaxBufferSize bytes).

Definition withLogFileInitMode (mode : LogFileInitStrategy) : M Sys unit :=
  updThis (setInitStrategy mode).

(** A method call on [this.#rotationStrategy]. *)
Definition onStrategy (c : M (S * FS) unit) : M Sys unit :=
  λ σ, match rotationStrategy (this σ) with
       | Some st =>
           let (r, st') := c (st, fs σ) in
           (r, {| this := setRotationStrategy (Some st'.1) (this σ);
                  fs := st'.2; nextRid := nextRid σ;
                  microtasks := microtasks σ; calls := calls σ |})
       | None => (Throw (TypeError "rotationStrategy is undefined"), σ)
       end.

(** [Deno.openSync(path, options)] *)
Definition openSync (p : string) (o : OpenOptions) : M Sys File :=
  record (COpen p o) ;;;
  σ <- get ;;
  match openFile p o (fs σ) with
  | (Ok _, fs') => setFs fs' ;;; r <- freshRid ;; ret {| rid := r; path := p |}
  | (Throw e, _) => throw e
  | (Diverge, _) => diverge
  end.

(** [Deno.close(this.#logFile.rid)] and [this.#logFile.close()] *)
Definition closeLogFile : M Sys unit :=
  σ <- get ;;
  match logFile (this σ) with
  | Some f => record (CClose (rid f))
  | None => throw (TypeError "logFile is undefined")
  end.

(** [this.#buffer.writeSync(encodedMsg)] *)
Definition bufferWriteSync (encodedMsg : list Byte.byte) : M Sys unit :=
  σ <- get ;;
  match buffer (this σ) with
  | Some b =>
      let (b', fs') := bufWriteSync encodedMsg b (fs σ) in
      setFs fs' ;;; updThis (setBuffer (Some b'))
  | None => throw (TypeError "buffer is undefined")
  end.

(** [if (this.#buffer?.buffered() > 0) this.#buffer.flush()] *)
Definition bufferFlush : M Sys unit :=
  σ <- get ;;
  match buffer (this σ) with
  | Some b =>
      if (0 <? buffered b)%nat then
        let (b', fs') := bufFlush b (fs σ) in
        setFs fs' ;;; updThis (setBuffer (Some b'))
      else ret tt
  | None => ret tt
  end.

(** [this.#maxBufferSize > 0 && this.#rotationStrategy?.shouldRotate(encodedMsg)]:
    the strategy is consulted only when the buffer size is positive and a
    strategy is configured. *)
Definition shouldRotateNow (encodedMsg : list Byte.byte) : M Sys bool :=
  σ <- get ;;
  if 0 <? maxBufferSize (this σ) then
    match rotationStrategy (this σ) with
    | Some st =>
        record (CShouldRotate encodedMsg) ;;;
        ret (shouldRotate encodedMsg st)
    | None => ret false
    end
  else ret false.

(** The body of the [if] in [log]: flush, close the file, rotate, open a new
    file and a new buffer.  [doFlush] is the call [this.flush()]. *)
Definition rotateLogFile (doFlush : M Sys unit) (encodedMsg : list Byte.byte) :
    M Sys unit :=
  doFlush ;;;
  closeLogFile ;;;
  record (CRotate encodedMsg) ;;;
  σ <- get ;;
  onStrategy (rotate (filename (this σ)) encodedMsg) ;;;
  f <- openSync (filename (this σ))
         {| createNew := true; create := false; append := false;
            truncate := false; write := true |} ;;
  updThis (setLogFile (Some f)) ;;;
  updThis (setBuffer (Some (newBufWriterSync f (maxBufferSize (this σ))))).

(** [log], [flush] and [processDeferredQueue] call one another; [fuel]
    bounds the depth of the calls, and a computation that needs more is
    [Diverge].  [drainFrom i] is the loop of [processDeferredQueue] with the
    loop variable at [i]; it reads the queue again at every turn, as the
    source does. *)
Fixpoint log (fuel : nat) (msg : string) {struct fuel} : M Sys unit :=
  match fuel with
  | O => diverge
  | Datatypes.S n =>
      record (CLog msg) ;;;
      let encodedMsg := encode (msg +:+ newline) in
      doRotate <- shouldRotateNow encodedMsg ;;
      (if doRotate : bool then rotateLogFile (flush n) encodedMsg else ret tt) ;;;
      bufferWriteSync encodedMsg
  end

with flush (fuel : nat) {struct fuel} : M Sys unit :=
  match fuel with
  | O => diverge
  | Datatypes.S n =>
      σ <- get ;;
      (if (0 <? length (deferredLogQueue (this σ)))%nat
       then processDeferredQueue n else ret tt) ;;;
      bufferFlush
  end

with processDeferredQueue (fuel : nat) {struct fuel} : M Sys unit :=
  match fuel with
  | O => diverge
  | Datatypes.S n =>
      drainFrom n 0 ;;;
      updThis (setQueue [])
  end

with drainFrom (fuel : nat) (i : nat) {struct fuel} : M Sys unit :=
  match fuel with
  | O => diverge
  | Datatypes.S n =>
      σ <- get ;;
      match deferredLogQueue (this σ) !! i with
      | Some logRecord =>
          log n (format (super (this σ)) logRecord) ;;;
          drainFrom n (Datatypes.S i)
      | None => ret tt
      end
  end.

(** [FileStream.handle] *)
Definition handle (fuel : nat) (logRecord : LogRecord V) : M Sys unit :=
  σ <- get ;;
  if baseMinLogLevel (super (this σ)) >? level logRecord then ret tt
  else if level logRecord >? ERROR L then
    updThis (λ t, setQueue (deferredLogQueue t ++ [logRecord]) t) ;;;
    processDeferredQueue fuel ;;;
    flush fuel
  else
    (if Nat.eqb (length (deferredLogQueue (this σ))) 0
     then queueMicrotask Drain else ret tt) ;;;
    updThis (λ t, setQueue (deferredLogQueue t ++ [logRecord]) t).

(** The runtime runs the scheduled microtasks, in order, once the current
    synchronous turn is over. *)
Fixpoint runTasks (fuel : nat) (ts : list Task) : M Sys unit :=
  match ts with
  | [] => ret tt
  | Drain :: ts' => processDeferredQueue fuel ;;; runTasks fuel ts'
  end.

Definition runMicrotasks (fuel : nat) : M Sys unit :=
  σ <- get ;;
  (λ σ', (Ok tt, {| this := this σ'; fs := fs σ'; nextRid := nextRid σ';
                    microtasks := []; calls := calls σ' |})) ;;;
  runTasks fuel (microtasks σ).

(** [FileStream.setup] *)
Definition setup : M Sys unit :=
  updThis (setSuper baseSetup) ;;;
  σ <- get ;;
  let mode := logFileInitStrategy (this σ) in
  match rotationStrategy (this σ) with
  | Some _ => record CInitLogs ;;; onStrategy (initLogs (filename (this σ)) mode)
  | None => ret tt
  end ;;;
  f <- openSync (filename (this σ))
         {| createNew := bool_decide (mode = MustNotExist);
            create := bool_decide (mode ≠ MustNotExist);
            append := bool_decide (mode = Append);
            truncate := bool_decide (mode ≠ Append);
            write := true |} ;;
  updThis (setLogFile (Some f)) ;;;
  updThis (setBuffer (Some (newBufWriterSync f (maxBufferSize (this σ))))).

(** [FileStream.destroy] *)
Definition destroy (fuel : nat) : M Sys unit :=
  updThis (setSuper baseDestroy) ;;;
  flush fuel ;;;
  closeLogFile.

(** *** Properties of the file sink *)

Lemma log_S n msg :
  log (Datatypes.S n) msg =
  (record (CLog msg) ;;;
   doRotate <- shouldRotateNow (encode (msg +:+ newline)) ;;
   (if doRotate : bool
    then rotateLogFile (flush n) (encode (msg +:+ newline)) else ret tt) ;;;
   bufferWriteSync (encode (msg +:+ newline))).
Proof. reflexivity. Qed.

Lemma flush_S n :
  flush (Datatypes.S n) =
  (σ <- get ;;
   (if (0 <? length (deferredLogQueue (this σ)))%nat
    then processDeferredQueue n else ret tt) ;;;
   bufferFlush).
Proof. reflexivity. Qed.

Lemma processDeferredQueue_S n :
  processDeferredQueue (Datatypes.S n) = (drainFrom n 0 ;;; updThis (setQueue [])).
Proof. reflexivity. Qed.

Lemma drainFrom_S n i :
  drainFrom (Datatypes.S n) i =
  (σ <- get ;;
   match deferredLogQueue (this σ) !! i with
   | Some logRecord =>
       log n (format (super (this σ)) logRecord) ;;;
       drainFrom n (Datatypes.S i)
   | None => ret tt
   end).
Proof. reflexivity. Qed.

(** The bytes of one log line. *)
Definition line (msg : string) : list Byte.byte := encode (msg +:+ newline).

(** The messages [log] was called with, in call order. *)
Definition logged (σ : Sys) : list string :=
  omap (λ c, match c with CLog m => Some m | _ => None end) (calls σ).

(** The calls to the rotation strategy's [shouldRotate] and [rotate]. *)
Definition rotationCalls (σ : Sys) : list Call :=
  omap (λ c, match c with CShouldRotate _ | CRotate _ => Some c | _ => None end)
       (calls σ).

(** The state after the line of [msg] went through buffer [b]. *)
Definition afterWrite (extra : list Call) (msg : string) (b : BufWriterSync)
    (σ : Sys) : Sys :=
  {| this := setBuffer (Some (bufWriteSync (line msg) b (fs σ)).1) (this σ);
     fs := (bufWriteSync (line msg) b (fs σ)).2;
     nextRid := nextRid σ; microtasks := microtasks σ;
     calls := calls σ ++ CLog msg :: extra |}.

(** Whether [log] finds a rotation due for the encoded line, and the calls
    to the strategy it makes to find out. *)
Definition rotationDue (t : FileStream) (encodedMsg : list Byte.byte) : bool :=
  if 0 <? maxBufferSize t then
    match rotationStrategy t with
    | Some st => shouldRotate encodedMsg st
    | None => false
    end
  else false.

Definition consulted (t : FileStream) (encodedMsg : list Byte.byte) : list Call :=
  if 0 <? maxBufferSize t then
    match rotationStrategy t with
    | Some _ => [CShouldRotate encodedMsg]
    | None => []
    end
  else [].

Definition addCalls (l : list Call) (σ : Sys) : Sys :=
  {| this := this σ; fs := fs σ; nextRid := nextRid σ;
     microtasks := microtasks σ; calls := calls σ ++ l |}.

Lemma shouldRotateNow_spec encodedMsg (σ : Sys) :
  shouldRotateNow encodedMsg σ =
  (Ok (rotationDue (this σ) encodedMsg),
   addCalls (consulted (this σ) encodedMsg) σ).
Proof.
  unfold shouldRotateNow, rotationDue, consulted, addCalls, bind, get, record, ret.
  destruct (0 <? maxBufferSize (this σ)); [|by destruct σ; rewrite app_nil_r].
  destruct (rotationStrategy (this σ)); [done|].
  by destruct σ; rewrite app_nil_r.
Qed.

(** [log] when no rotation is due: the line goes through the buffer. *)
Lemma log_no_rotation n msg (σ : Sys) b :
  rotationDue (this σ) (line msg) = false →
  buffer (this σ) = Some b →
  log (Datatypes.S n) msg σ =
  (Ok tt, afterWrite (consulted (this σ) (line msg)) msg b σ).
Proof.
  intros Hdue Hb. rewrite log_S. fold (line msg).
  unfold bind at 1. unfold record at 1. unfold bind at 1.
  rewrite shouldRotateNow_spec. simpl this. rewrite Hdue.
  unfold bind at 1. unfold ret at 1.
  unfold bufferWriteSync, bind, get, addCalls. simpl. rewrite Hb.
  unfold afterWrite.
  destruct (bufWriteSync (line msg) b (fs σ)) as [b' fs']. simpl.
  by rewrite <- app_assoc.
Qed.

(** [log] when a rotation is due: it calls [flush] first. *)
Lemma log_rotation n msg (σ : Sys) :
  rotationDue (this σ) (line msg) = true →
  (flush n (addCalls (consulted (this σ) (line msg)) (addCalls [CLog msg] σ))).1
    = Diverge →
  (log (Datatypes.S n) msg σ).1 = Diverge.
Proof.
  intros Hdue Hflush. rewrite log_S. fold (line msg).
  unfold bind at 1. unfold record at 1. fold (addCalls [CLog msg] σ).
  unfold bind at 1. rewrite shouldRotateNow_spec. simpl this. rewrite Hdue.
  apply bind_diverges. unfold rotateLogFile. by apply bind_diverges.
Qed.

(** [log] on a sink that has no buffer yet ([setup] has not run): the write
    fails, after the strategy was consulted or not as above. *)
Lemma log_no_buffer n msg (σ : Sys) :
  rotationDue (this σ) (line msg) = false →
  buffer (this σ) = None →
  log (Datatypes.S n) msg σ =
  (Throw (TypeError "buffer is undefined"),
   addCalls (consulted (this σ) (line msg)) (addCalls [CLog msg] σ)).
Proof.
  intros Hdue Hb. rewrite log_S. fold (line msg).
  unfold bind at 1. unfold record at 1. fold (addCalls [CLog msg] σ).
  unfold bind at 1. rewrite shouldRotateNow_spec. simpl this. rewrite Hdue.
  unfold bind at 1. unfold ret at 1.
  unfold bufferWriteSync, bind, get. simpl. by rewrite Hb.
Qed.

(** C9. With a buffer size of 0, [log] never consults the rotation strategy:
    whatever strategy is configured and whatever the message, the call makes
    no [shouldRotate] and no [rotate] call and leaves the strategy as it
    was.  Buffering is not affected: on a sink that was set up the call
    returns, and the encoded line went through the buffered writer, which
    appended it to what was written before; a writer created with size 0
    still has a buffer, of the default size. *)
Theorem buffer_size_zero_skips_rotation n msg (σ : Sys) :
  maxBufferSize (this σ) = 0 →
  rotationCalls (log (Datatypes.S n) msg σ).2 = rotationCalls σ ∧
  rotationStrategy (this (log (Datatypes.S n) msg σ).2) = rotationStrategy (this σ) ∧
  (∀ b, buffer (this σ) = Some b →
        log (Datatypes.S n) msg σ = (Ok tt, afterWrite [] msg b σ) ∧
        ∃ b', buffer (this (afterWrite [] msg b σ)) = Some b' ∧
              written b' (fs (afterWrite [] msg b σ)) =
              written b (fs σ) ++ encode (msg +:+ newline)) ∧
  (∀ f, bufSize (newBufWriterSync f 0) = DEFAULT_BUF_SIZE).
Proof.
  intros Hsize.
  assert (Hdue : rotationDue (this σ) (line msg) = false)
    by (unfold rotationDue; by rewrite Hsize).
  assert (Hcons : consulted (this σ) (line msg) = [])
    by (unfold consulted; by rewrite Hsize).
  assert (Hwrite : ∀ b, buffer (this σ) = Some b →
                        log (Datatypes.S n) msg σ = (Ok tt, afterWrite [] msg b σ)).
  { intros b Hb. by rewrite (log_no_rotation n msg σ b Hdue Hb), Hcons. }
  split; [|split; [|split]].
  - destruct (buffer (this σ)) as [b|] eqn:Hb.
    + rewrite (Hwrite b eq_refl). unfold rotationCalls, afterWrite. simpl.
      rewrite omap_app. simpl. by rewrite app_nil_r.
    + rewrite (log_no_buffer n msg σ Hdue Hb), Hcons.
      unfold rotationCalls, addCalls. simpl.
      rewrite !omap_app. simpl. by rewrite !app_nil_r.
  - destruct (buffer (this σ)) as [b|] eqn:Hb.
    + by rewrite (Hwrite b eq_refl).
    + by rewrite (log_no_buffer n msg σ Hdue Hb).
  - intros b Hb. split; [by apply Hwrite|].
    eexists. split; [reflexivity|]. apply bufWriteSync_written.
  - reflexivity.
Qed.

(** **** Draining when no rotation is triggered *)

(** The configured strategy, if it is consulted at all, never asks for a
    rotation. *)
Definition neverRotates (t : FileStream) : Prop :=
  0 < maxBufferSize t →
  ∀ st, rotationStrategy t = Some st → ∀ m, shouldRotate m st = false.

(** From [σ] to [σ'] exactly the lines of [msgs] went through the buffered
    writer, in this order, by calls to [log] in this order; nothing else
    about the sink changed. *)
Definition wrote (msgs : list string) (σ σ' : Sys) : Prop :=
  ∃ b b', buffer (this σ) = Some b ∧
          this σ' = setBuffer (Some b') (this σ) ∧
          writer b' = writer b ∧
          written b' (fs σ') = written b (fs σ) ++ concat (map line msgs) ∧
          logged σ' = logged σ ++ msgs ∧
          microtasks σ' = microtasks σ.

Lemma wrote_nil (σ : Sys) b : buffer (this σ) = Some b → wrote [] σ σ.
Proof.
  intros Hb. exists b, b. repeat split; rewrite ?app_nil_r; try done.
  destruct (this σ); simpl in *. by subst.
Qed.

Lemma wrote_trans l1 l2 (σ σ1 σ2 : Sys) :
  wrote l1 σ σ1 → wrote l2 σ1 σ2 → wrote (l1 ++ l2) σ σ2.
Proof.
  intros (b & b1 & Hb & Ht & Hw & Hwr & Hl & Hm)
         (b1' & b2 & Hb1 & Ht2 & Hw2 & Hwr2 & Hl2 & Hm2).
  rewrite Ht in Hb1. simpl in Hb1. injection Hb1 as <-.
  exists b, b2. repeat split.
  - done.
  - rewrite Ht2, Ht. reflexivity.
  - congruence.
  - by rewrite Hwr2, Hwr, map_app, concat_app, app_assoc.
  - by rewrite Hl2, Hl, app_assoc.
  - congruence.
Qed.

Lemma neverRotates_due (t : FileStream) m :
  neverRotates t → rotationDue t m = false.
Proof.
  intros Hq. unfold rotationDue.
  destruct (0 <? maxBufferSize t) eqn:Hsz; [|done].
  destruct (rotationStrategy t) as [st|] eqn:Hst; [|done].
  apply Z.ltb_lt in Hsz. by apply (Hq Hsz st).
Qed.

Lemma log_quiet n msg (σ : Sys) b :
  neverRotates (this σ) → buffer (this σ) = Some b →
  log (Datatypes.S n) msg σ =
  (Ok tt, afterWrite (consulted (this σ) (line msg)) msg b σ).
Proof. intros Hq. apply log_no_rotation. by apply neverRotates_due. Qed.

Lemma logged_app (σ : Sys) l :
  omap (λ c, match c with CLog m => Some m | _ => None end) (calls σ ++ l) =
  logged σ ++ omap (λ c, match c with CLog m => Some m | _ => None end) l.
Proof. apply omap_app. Qed.

Lemma wrote_afterWrite msg (σ : Sys) b :
  buffer (this σ) = Some b →
  wrote [msg] σ (afterWrite (consulted (this σ) (line msg)) msg b σ).
Proof.
  intros Hb. exists b, (bufWriteSync (line msg) b (fs σ)).1.
  destruct (bufWriteSync_written (line msg) b (fs σ)) as [Hwr Hw].
  repeat split; try done.
  - simpl. by rewrite Hwr, app_nil_r.
  - unfold logged at 1. simpl. rewrite logged_app. simpl. f_equal.
    unfold consulted.
    destruct (0 <? _); [|done]. by destruct (rotationStrategy _).
Qed.

(** The loop of [processDeferredQueue], started at index [i] with enough
    fuel, returns and has written the queued records from [i] on, each once
    and in queue order. *)
Lemma drainFrom_quiet fuel i (σ : Sys) :
  neverRotates (this σ) → is_Some (buffer (this σ)) →
  (length (deferredLogQueue (this σ)) - i < fuel)%nat →
  ∃ σ', drainFrom fuel i σ = (Ok tt, σ') ∧
        wrote (map (format (super (this σ))) (drop i (deferredLogQueue (this σ))))
              σ σ'.
Proof.
  revert i σ. induction fuel as [|n IH]; intros i σ Hq [b Hb] Hfuel; [lia|].
  rewrite drainFrom_S. unfold bind at 1. unfold get at 1.
  destruct (deferredLogQueue (this σ) !! i) as [r|] eqn:Hi.
  - pose proof (lookup_lt_Some _ _ _ Hi) as Hlt.
    destruct n as [|n']; [lia|].
    rewrite (bind_Ok _ _ _ _ _ (log_quiet n' _ σ b Hq Hb)).
    set (σ1 := afterWrite _ _ b σ).
    destruct (IH (Datatypes.S i) σ1) as (σ' & Hrun & Hw).
    { exact Hq. } { simpl. eauto. } { simpl. lia. }
    exists σ'. split; [exact Hrun|].
    rewrite (drop_S _ _ _ Hi). simpl.
    apply (wrote_trans [_] _ σ σ1 σ'); [by apply wrote_afterWrite|exact Hw].
  - exists σ. split; [done|].
    rewrite drop_ge by by apply lookup_ge_None. by eapply wrote_nil.
Qed.

(** A drain pass with enough fuel, when no rotation is triggered: it
    returns, every queued record has been passed to [log] once, in queue
    order, their lines went through the buffered writer in that order, and
    the queue is empty. *)
Lemma processDeferredQueue_quiet fuel (σ : Sys) b :
  neverRotates (this σ) → buffer (this σ) = Some b →
  (length (deferredLogQueue (this σ)) + 1 < fuel)%nat →
  let msgs := map (format (super (this σ))) (deferredLogQueue (this σ)) in
  ∃ σ' b', processDeferredQueue fuel σ = (Ok tt, σ') ∧
           this σ' = setQueue [] (setBuffer (Some b') (this σ)) ∧
           writer b' = writer b ∧
           written b' (fs σ') = written b (fs σ) ++ concat (map line msgs) ∧
           logged σ' = logged σ ++ msgs ∧
           microtasks σ' = microtasks σ.
Proof.
  intros Hq Hb Hfuel msgs. destruct fuel as [|n]; [lia|].
  rewrite processDeferredQueue_S.
  destruct (drainFrom_quiet n 0 σ Hq (ex_intro _ b Hb)) as (σ1 & Hrun & Hw); [lia|].
  rewrite drop_0 in Hw.
  destruct Hw as (b0 & b' & Hb0 & Ht & Hwr & Hbytes & Hl & Hm).
  rewrite Hb in Hb0. injection Hb0 as <-.
  rewrite (bind_Ok _ _ _ _ _ Hrun). unfold updThis.
  eexists _, b'. split; [reflexivity|]. simpl. rewrite Ht. by repeat split.
Qed.

(** The deferred branch of [handle]: the record is appended to the queue,
    and a drain is scheduled exactly when the queue was empty before. *)
Lemma handle_deferred fuel r (σ : Sys) :
  (baseMinLogLevel (super (this σ)) >? level r) = false →
  (level r >? ERROR L) = false →
  handle fuel r σ =
  (Ok tt,
   {| this := setQueue (deferredLogQueue (this σ) ++ [r]) (this σ);
      fs := fs σ; nextRid := nextRid σ;
      microtasks := microtasks σ ++
                    (if decide (deferredLogQueue (this σ) = []) then [Drain] else []);
      calls := calls σ |}).
Proof.
  intros Hmin Hsev. unfold handle, bind at 1, get at 1. rewrite Hmin, Hsev.
  destruct (deferredLogQueue (this σ)) as [|r0 q] eqn:Hq; simpl.
  - unfold bind, queueMicrotask, updThis. simpl. by rewrite Hq.
  - unfold bind, ret, updThis. simpl. by rewrite Hq, app_nil_r.
Qed.

Lemma flush_empty_queue n (σ : Sys) :
  deferredLogQueue (this σ) = [] → flush (Datatypes.S n) σ = bufferFlush σ.
Proof.
  intros Hq. rewrite flush_S. unfold bind at 1. unfold get at 1.
  rewrite Hq. simpl. unfold bind, ret. by destruct (bufferFlush σ) as [[[]| |] σ'].
Qed.

Lemma bufferFlush_spec (σ : Sys) b :
  buffer (this σ) = Some b →
  ∃ b' fs', bufferFlush σ =
            (Ok tt, {| this := setBuffer (Some b') (this σ); fs := fs';
                       nextRid := nextRid σ; microtasks := microtasks σ;
                       calls := calls σ |}) ∧
            pending b' = [] ∧ writer b' = writer b ∧
            content (path (writer b)) fs' = written b (fs σ).
Proof.
  intros Hb. unfold bufferFlush, bind, get. simpl. rewrite Hb.
  destruct (bufFlush_spec b (fs σ)) as (Hp & Hw & _ & Hc).
  destruct (0 <? buffered b)%nat eqn:Hbuf.
  - destruct (bufFlush b (fs σ)) as [b2 fs2]. simpl in *.
    exists b2, fs2. by repeat split.
  - apply Nat.ltb_ge in Hbuf. unfold buffered in Hbuf.
    assert (Hnil : pending b = []) by (apply length_zero_iff_nil; lia).
    exists b, (fs σ). unfold ret. repeat split; try done.
    + do 2 f_equal. destruct σ as [t ? ? ? ?]. simpl in *. f_equal.
      destruct t. simpl in *. by subst.
    + unfold written. by rewrite Hnil, app_nil_r.
Qed.

(** The high-severity branch of [handle] when no rotation is triggered: with
    enough fuel the call returns, the queue is empty, the buffer is empty,
    and the file holds everything written before followed by the lines of
    the queued records and of the new record, in that order; no microtask
    was scheduled. *)
Lemma handle_high_severity_quiet fuel r (σ : Sys) b :
  neverRotates (this σ) → buffer (this σ) = Some b →
  (baseMinLogLevel (super (this σ)) >? level r) = false →
  (level r >? ERROR L) = true →
  (length (deferredLogQueue (this σ)) + 3 ≤ fuel)%nat →
  let msgs := map (format (super (this σ))) (deferredLogQueue (this σ) ++ [r]) in
  ∃ σ' b', handle fuel r σ = (Ok tt, σ') ∧
           deferredLogQueue (this σ') = [] ∧
           buffer (this σ') = Some b' ∧ pending b' = [] ∧
           content (path (writer b)) (fs σ') =
             written b (fs σ) ++ concat (map line msgs) ∧
           logged σ' = logged σ ++ msgs ∧
           microtasks σ' = microtasks σ.
Proof.
  intros Hq Hb Hmin Hsev Hfuel msgs.
  unfold handle, bind at 1, get at 1. rewrite Hmin, Hsev.
  unfold bind at 1, updThis at 1.
  set (σ0 := {| this := setQueue (deferredLogQueue (this σ) ++ [r]) (this σ);
                fs := fs σ; nextRid := nextRid σ; microtasks := microtasks σ;
                calls := calls σ |}).
  destruct (processDeferredQueue_quiet fuel σ0 b) as
    (σ1 & b1 & Hrun & Ht & Hw & Hbytes & Hl & Hm).
  { exact Hq. } { exact Hb. } { simpl. rewrite length_app. simpl. lia. }
  rewrite (bind_Ok _ _ _ _ _ Hrun).
  destruct fuel as [|n]; [lia|].
  rewrite flush_empty_queue by by rewrite Ht.
  destruct (bufferFlush_spec σ1 b1) as (b2 & fs2 & Hfl & Hp & Hw2 & Hc).
  { by rewrite Ht. }
  rewrite Hfl. eexists _, b2. split; [reflexivity|]. simpl. rewrite Ht. simpl.
  repeat split; try done.
  rewrite <- Hw, Hc. exact Hbytes.
Qed.

(** **** Draining when a queued record triggers a rotation *)

(** The sink holds queue [q], a buffer, and a strategy [st] that asks for a
    rotation when it is shown the line of record number [k] of the queue. *)
Definition rotationPending (q : list (LogRecord V)) (k : nat) (st : S)
    (t : FileStream) : Prop :=
  deferredLogQueue t = q ∧
  rotationStrategy t = Some st ∧
  0 < maxBufferSize t ∧
  is_Some (buffer t) ∧
  ∃ rk, q !! k = Some rk ∧ shouldRotate (line (format (super t) rk)) st = true.

Lemma rotationPending_setBuffer q k st t b :
  rotationPending q k st t → rotationPending q k st (setBuffer (Some b) t).
Proof.
  intros (Hq & Hst & Hsz & _ & Hk).
  split; [done|]. split; [done|]. split; [done|]. split; [simpl; eauto|done].
Qed.

Lemma rotationPending_due q k st t m :
  rotationPending q k st t → rotationDue t m = shouldRotate m st.
Proof.
  intros (_ & Hst & Hsz & _). unfold rotationDue.
  apply Z.ltb_lt in Hsz. by rewrite Hsz, Hst.
Qed.

(** With a queued record that triggers a rotation, a drain pass never
    returns: [log] flushes before it rotates, [flush] starts a new drain
    pass because the queue is not empty yet, and that pass comes to the same
    record with the strategy in the same state.  No amount of fuel is
    enough; in the runtime the call stack is exhausted. *)
Lemma rotation_reenters_drain q k st n :
  ∀ σ : Sys, rotationPending q k st (this σ) →
    (flush n σ).1 = Diverge ∧
    (processDeferredQueue n σ).1 = Diverge ∧
    (∀ i, (i ≤ k)%nat → (drainFrom n i σ).1 = Diverge) ∧
    (∀ msg, (log n msg σ).1 = Diverge ∨
            (shouldRotate (line msg) st = false ∧
             ∃ σ', log n msg σ = (Ok tt, σ') ∧ rotationPending q k st (this σ'))).
Proof.
  induction n as [|n IH]; intros σ Hinv.
  { repeat split; try done. intros msg. by left. }
  pose proof Hinv as (Hq & Hst & Hsz & [b Hb] & rk & Hk & Hrot).
  pose proof (lookup_lt_Some _ _ _ Hk) as Hlen.
  destruct (IH σ Hinv) as (_ & Hpdq & Hdrain & Hlog).
  split; [|split; [|split]].
  - rewrite flush_S. unfold bind at 1. unfold get at 1. cbv beta iota.
    rewrite Hq. destruct q as [|r0 q']; [simpl in Hlen; lia|]. simpl.
    by apply bind_diverges.
  - rewrite processDeferredQueue_S. apply bind_diverges. apply Hdrain. lia.
  - intros i Hi. rewrite drainFrom_S. unfold bind at 1. unfold get at 1.
    cbv beta iota. rewrite Hq.
    destruct (q !! i) as [ri|] eqn:Hqi.
    2:{ apply lookup_ge_None in Hqi. lia. }
    destruct (Hlog (format (super (this σ)) ri)) as [Hd|(Hno & σ' & Hrun & Hinv')].
    + by apply bind_diverges.
    + rewrite (bind_Ok _ _ _ _ _ Hrun). destruct (decide (i = k)) as [->|Hne].
      * rewrite Hk in Hqi. injection Hqi as <-. congruence.
      * destruct (IH σ' Hinv') as (_ & _ & Hdrain' & _). apply Hdrain'. lia.
  - intros msg. destruct (shouldRotate (line msg) st) eqn:Hdue.
    + left. apply log_rotation.
      * by rewrite (rotationPending_due q k st).
      * by apply IH.
    + right. split; [done|]. eexists. split.
      * apply (log_no_rotation n msg σ b); [|done].
        by rewrite (rotationPending_due q k st).
      * by apply rotationPending_setBuffer.
Qed.

(** A high-severity record whose own line triggers a rotation: [handle]
    never returns. *)
Lemma handle_high_severity_rotation fuel r (σ : Sys) st :
  (baseMinLogLevel (super (this σ)) >? level r) = false →
  (level r >? ERROR L) = true →
  rotationStrategy (this σ) = Some st →
  0 < maxBufferSize (this σ) →
  is_Some (buffer (this σ)) →
  shouldRotate (line (format (super (this σ)) r)) st = true →
  (handle fuel r σ).1 = Diverge.
Proof.
  intros Hmin Hsev Hst Hsz Hb Hrot.
  unfold handle, bind at 1, get at 1. rewrite Hmin, Hsev.
  unfold bind at 1. unfold updThis at 1. apply bind_diverges.
  apply (rotation_reenters_drain (deferredLogQueue (this σ) ++ [r])
           (length (deferredLogQueue (this σ))) st fuel).
  split; [done|]. split; [done|]. split; [done|]. split; [done|].
  exists r. split; [|done]. by rewrite list_lookup_middle.
Qed.

(** **** Batches, drains and flushes when no queued line triggers a rotation *)

(** [handle] called for each record of [rs] in turn, within one synchronous
    turn. *)
Fixpoint handleAll (fuel : nat) (rs : list (LogRecord V)) : M Sys unit :=
  match rs with
  | [] => ret tt
  | r :: rs' => handle fuel r ;;; handleAll fuel rs'
  end.

(** The records of [rs] at or above the minimum level of the sink. *)
Definition accepted (t : FileStream) (rs : list (LogRecord V)) : list (LogRecord V) :=
  filter (λ r, baseMinLogLevel (super t) ≤ level r) rs.

(** None of the records [q], rendered by the sink, triggers a rotation. *)
Definition calm (t : FileStream) (q : list (LogRecord V)) : Prop :=
  Forall (λ r, rotationDue t (line (format (super t) r)) = false) q.

Lemma Sys_eta (σ : Sys) :
  {| this := this σ; fs := fs σ; nextRid := nextRid σ;
     microtasks := microtasks σ; calls := calls σ |} = σ.
Proof. by destruct σ. Qed.

Lemma setQueue_same (t : FileStream) : setQueue (deferredLogQueue t) t = t.
Proof. by destruct t. Qed.

Lemma handle_below_minimum fuel r (σ : Sys) :
  (baseMinLogLevel (super (this σ)) >? level r) = true →
  handle fuel r σ = (Ok tt, σ).
Proof. intros Hmin. unfold handle, bind, get. by rewrite Hmin. Qed.

Lemma handleAll_deferred fuel rs (σ : Sys) :
  Forall (λ r, (level r >? ERROR L) = false) rs →
  handleAll fuel rs σ =
  (Ok tt,
   {| this := setQueue (deferredLogQueue (this σ) ++ accepted (this σ) rs) (this σ);
      fs := fs σ; nextRid := nextRid σ;
      microtasks := microtasks σ ++
        (if decide (deferredLogQueue (this σ) = [] ∧ accepted (this σ) rs ≠ [])
         then [Drain] else []);
      calls := calls σ |}).
Proof.
  intros Hrs. revert σ. induction Hrs as [|r rs Hr _ IH]; intros σ.
  - simpl. unfold ret, accepted.
    change (filter _ []) with (@nil (LogRecord V)).
    rewrite !app_nil_r, setQueue_same.
    destruct (decide _) as [[_ H]|_]; [done|].
    by rewrite app_nil_r, Sys_eta.
  - simpl. unfold accepted.
    destruct (baseMinLogLevel (super (this σ)) >? level r) eqn:Hmin.
    + rewrite (bind_Ok _ _ _ _ _ (handle_below_minimum fuel r σ Hmin)).
      rewrite IH. unfold accepted.
      rewrite (filter_cons_False (λ r, baseMinLogLevel (super (this σ)) ≤ level r))
        by (apply Z.gtb_lt in Hmin; lia).
      done.
    + rewrite (bind_Ok _ _ _ _ _ (handle_deferred fuel r σ Hmin Hr)).
      rewrite IH. unfold accepted. cbn [this super setQueue deferredLogQueue].
      assert (Hle : baseMinLogLevel (super (this σ)) ≤ level r).
      { destruct (Z.gtb_spec (baseMinLogLevel (super (this σ))) (level r)); [done|lia]. }
      rewrite (filter_cons_True (λ r, baseMinLogLevel (super (this σ)) ≤ level r)
                 r rs Hle).
      cbn [fs nextRid microtasks calls].
      rewrite <- !app_assoc. simpl.
      destruct (decide (_ ++ [r] = [] ∧ _)) as [[H _]|_];
        [by destruct (deferredLogQueue (this σ))|].
      rewrite app_nil_r.
      destruct (decide (deferredLogQueue (this σ) = [])) as [Hq|Hq];
        destruct (decide (_ ∧ _)) as [[H1 H2]|H]; try done.
      exfalso. apply H. by split.
Qed.

(** X13. Records at or below ERROR handled in one synchronous turn: the
    call for each of them returns, the records at or above the minimum level
    of the sink are appended to the queue in call order and the others are
    dropped, one drain is scheduled if the queue was empty and a record was
    accepted and none otherwise, and nothing is written, opened or logged. *)
Theorem batch_schedules_one_drain fuel rs (σ : Sys) :
  Forall (λ r, (level r >? ERROR L) = false) rs →
  ∃ σ', handleAll fuel rs σ = (Ok tt, σ') ∧
        this σ' = setQueue (deferredLogQueue (this σ) ++ accepted (this σ) rs) (this σ) ∧
        microtasks σ' = microtasks σ ++
          (if decide (deferredLogQueue (this σ) = [] ∧ accepted (this σ) rs ≠ [])
           then [Drain] else []) ∧
        fs σ' = fs σ ∧ calls σ' = calls σ.
Proof.
  intros Hrs. eexists. split; [by apply handleAll_deferred|]. by repeat split.
Qed.

Lemma drainFrom_calm fuel i (σ : Sys) :
  calm (this σ) (deferredLogQueue (this σ)) → is_Some (buffer (this σ)) →
  (length (deferredLogQueue (this σ)) - i < fuel)%nat →
  ∃ σ', drainFrom fuel i σ = (Ok tt, σ') ∧
        wrote (map (format (super (this σ))) (drop i (deferredLogQueue (this σ))))
              σ σ'.
Proof.
  revert i σ. induction fuel as [|n IH]; intros i σ Hq [b Hb] Hfuel; [lia|].
  rewrite drainFrom_S. unfold bind at 1. unfold get at 1.
  destruct (deferredLogQueue (this σ) !! i) as [r|] eqn:Hi.
  - pose proof (lookup_lt_Some _ _ _ Hi) as Hlt.
    destruct n as [|n']; [lia|].
    assert (Hdue : rotationDue (this σ) (line (format (super (this σ)) r)) = false).
    { unfold calm in Hq. rewrite Forall_lookup in Hq. by apply (Hq i). }
    rewrite (bind_Ok _ _ _ _ _ (log_no_rotation n' _ σ b Hdue Hb)).
    set (σ1 := afterWrite _ _ b σ).
    destruct (IH (Datatypes.S i) σ1) as (σ' & Hrun & Hw).
    { exact Hq. } { simpl. eauto. } { simpl. lia. }
    exists σ'. split; [exact Hrun|].
    rewrite (drop_S _ _ _ Hi). simpl.
    apply (wrote_trans [_] _ σ σ1 σ'); [by apply wrote_afterWrite|exact Hw].
  - exists σ. split; [done|].
    rewrite drop_ge by by apply lookup_ge_None. by eapply wrote_nil.
Qed.

Lemma processDeferredQueue_calm fuel (σ : Sys) b :
  calm (this σ) (deferredLogQueue (this σ)) → buffer (this σ) = Some b →
  (length (deferredLogQueue (this σ)) + 1 < fuel)%nat →
  ∃ σ' b', processDeferredQueue fuel σ = (Ok tt, σ') ∧
           this σ' = setQueue [] (setBuffer (Some b') (this σ)) ∧
           writer b' = writer b ∧
           written b' (fs σ') = written b (fs σ) ++
             concat (map line (map (format (super (this σ)))
                                   (deferredLogQueue (this σ)))) ∧
           logged σ' = logged σ ++
             map (format (super (this σ))) (deferredLogQueue (this σ)) ∧
           microtasks σ' = microtasks σ.
Proof.
  intros Hq Hb Hfuel. destruct fuel as [|n]; [lia|].
  rewrite processDeferredQueue_S.
  destruct (drainFrom_calm n 0 σ Hq (ex_intro _ b Hb)) as (σ1 & Hrun & Hw); [lia|].
  rewrite drop_0 in Hw.
  destruct Hw as (b0 & b' & Hb0 & Ht & Hwr & Hbytes & Hl & Hm).
  rewrite Hb in Hb0. injection Hb0 as <-.
  rewrite (bind_Ok _ _ _ _ _ Hrun). unfold updThis.
  eexists _, b'. split; [reflexivity|]. simpl. rewrite Ht. by repeat split.
Qed.

(** X14. A drain pass over a queue none of whose lines triggers a rotation:
    with fuel for the queue it returns, every queued record was rendered and
    passed to [log] exactly once, in queue order, the lines went through the
    buffered writer in that order behind what was written before, the queue
    is empty afterwards, and the sink is otherwise as it was: same file,
    same strategy, nothing scheduled. *)
Theorem drain_pass_in_queue_order fuel (σ : Sys) b :
  calm (this σ) (deferredLogQueue (this σ)) → buffer (this σ) = Some b →
  (length (deferredLogQueue (this σ)) + 1 < fuel)%nat →
  ∃ σ' b', processDeferredQueue fuel σ = (Ok tt, σ') ∧
           this σ' = setQueue [] (setBuffer (Some b') (this σ)) ∧
           writer b' = writer b ∧
           written b' (fs σ') = written b (fs σ) ++
             concat (map line (map (format (super (this σ)))
                                   (deferredLogQueue (this σ)))) ∧
           logged σ' = logged σ ++
             map (format (super (this σ))) (deferredLogQueue (this σ)) ∧
           microtasks σ' = microtasks σ.
Proof. apply processDeferredQueue_calm. Qed.

(** [flush] when no queued line triggers a rotation. *)
Lemma flush_calm fuel (σ : Sys) b :
  calm (this σ) (deferredLogQueue (this σ)) → buffer (this σ) = Some b →
  (length (deferredLogQueue (this σ)) + 2 < fuel)%nat →
  ∃ σ' b', flush fuel σ = (Ok tt, σ') ∧
           this σ' = setQueue [] (setBuffer (Some b') (this σ)) ∧
           pending b' = [] ∧ writer b' = writer b ∧
           content (path (writer b)) (fs σ') = written b (fs σ) ++
             concat (map line (map (format (super (this σ)))
                                   (deferredLogQueue (this σ)))) ∧
           logged σ' = logged σ ++
             map (format (super (this σ))) (deferredLogQueue (this σ)) ∧
           microtasks σ' = microtasks σ.
Proof.
  intros Hq Hb Hfuel. destruct fuel as [|n]; [lia|].
  destruct (deferredLogQueue (this σ)) as [|r0 q] eqn:Hqueue.
  - rewrite flush_empty_queue by done.
    destruct (bufferFlush_spec σ b Hb) as (b2 & fs2 & Hfl & Hp & Hw & Hc).
    rewrite Hfl. eexists _, b2. split; [reflexivity|]. simpl.
    rewrite !app_nil_r. repeat split; try done.
    destruct (this σ). simpl in *. by subst.
  - rewrite flush_S. unfold bind at 1. unfold get at 1. cbv beta iota.
    rewrite Hqueue. simpl length. cbv iota.
    change (0 <? Datatypes.S (length q))%nat with true. cbv iota.
    destruct (processDeferredQueue_calm n σ b) as
      (σ1 & b1 & Hrun & Ht & Hw & Hbytes & Hl & Hm).
    { by rewrite Hqueue. } { done. } { rewrite Hqueue. simpl. simpl in Hfuel. lia. }
    rewrite (bind_Ok _ _ _ _ _ Hrun).
    destruct (bufferFlush_spec σ1 b1) as (b2 & fs2 & Hfl & Hp & Hw2 & Hc).
    { by rewrite Ht. }
    rewrite Hfl. eexists _, b2. split; [reflexivity|]. simpl.
    rewrite Ht, Hqueue in *. simpl. repeat split; try done.
    + congruence.
    + rewrite <- Hw, Hc. exact Hbytes.
Qed.

(** X15. A record above ERROR, when neither a queued line nor its own
    triggers a rotation: with fuel for the queue, [handle] returns, the
    queue and the buffer are empty, and the file holds what was written
    before, then the lines of the records that were waiting, then the line
    of the new record; each was passed to [log] once, and no microtask was
    scheduled. *)
Theorem high_severity_record_reaches_file fuel r (σ : Sys) b :
  calm (this σ) (deferredLogQueue (this σ) ++ [r]) →
  buffer (this σ) = Some b →
  (baseMinLogLevel (super (this σ)) >? level r) = false →
  (level r >? ERROR L) = true →
  (length (deferredLogQueue (this σ)) + 3 ≤ fuel)%nat →
  let msgs := map (format (super (this σ))) (deferredLogQueue (this σ) ++ [r]) in
  ∃ σ' b', handle fuel r σ = (Ok tt, σ') ∧
           deferredLogQueue (this σ') = [] ∧
           buffer (this σ') = Some b' ∧ pending b' = [] ∧
           content (path (writer b)) (fs σ') =
             written b (fs σ) ++ concat (map line msgs) ∧
           logged σ' = logged σ ++ msgs ∧
           microtasks σ' = microtasks σ.
Proof.
  intros Hq Hb Hmin Hsev Hfuel msgs.
  unfold handle, bind at 1, get at 1. rewrite Hmin, Hsev.
  unfold bind at 1, updThis at 1.
  set (σ0 := {| this := setQueue (deferredLogQueue (this σ) ++ [r]) (this σ);
                fs := fs σ; nextRid := nextRid σ; microtasks := microtasks σ;
                calls := calls σ |}).
  destruct (processDeferredQueue_calm fuel σ0 b) as
    (σ1 & b1 & Hrun & Ht & Hw & Hbytes & Hl & Hm).
  { exact Hq. } { exact Hb. } { simpl. rewrite length_app. simpl. lia. }
  rewrite (bind_Ok _ _ _ _ _ Hrun).
  destruct fuel as [|n]; [lia|].
  rewrite flush_empty_queue by by rewrite Ht.
  destruct (bufferFlush_spec σ1 b1) as (b2 & fs2 & Hfl & Hp & Hw2 & Hc).
  { by rewrite Ht. }
  rewrite Hfl. eexists _, b2. split; [reflexivity|]. simpl. rewrite Ht. simpl.
  repeat split; try done.
  rewrite <- Hw, Hc. exact Hbytes.
Qed.

Lemma flush_before_setup n (σ0 : Sys) :
  buffer (this σ0) = None → deferredLogQueue (this σ0) = [] →
  flush (Datatypes.S n) σ0 = (Ok tt, σ0).
Proof.
  intros Hb0 Hq0. rewrite flush_empty_queue by done.
  unfold bufferFlush, bind, get. simpl. by rewrite Hb0.
Qed.

(** X16. [flush] when no queued line triggers a rotation: it returns, the
    queued records were written in queue order, the queue and the buffer are
    empty and the bytes are in the file; a second [flush] right after it
    changes nothing.  On a sink that has no buffer yet and an empty queue,
    [flush] does nothing. *)
Theorem flush_settles fuel (σ : Sys) b :
  calm (this σ) (deferredLogQueue (this σ)) → buffer (this σ) = Some b →
  (length (deferredLogQueue (this σ)) + 2 < fuel)%nat →
  (∃ σ' b', flush fuel σ = (Ok tt, σ') ∧
            deferredLogQueue (this σ') = [] ∧
            buffer (this σ') = Some b' ∧ pending b' = [] ∧
            content (path (writer b)) (fs σ') = written b (fs σ) ++
              concat (map line (map (format (super (this σ)))
                                    (deferredLogQueue (this σ)))) ∧
            flush fuel σ' = (Ok tt, σ')) ∧
  (∀ σ0 : Sys, buffer (this σ0) = None → deferredLogQueue (this σ0) = [] →
               flush fuel σ0 = (Ok tt, σ0)).
Proof.
  intros Hq Hb Hfuel. split.
  - destruct (flush_calm fuel σ b Hq Hb Hfuel) as
      (σ' & b' & Hrun & Ht & Hp & Hw & Hc & _).
    exists σ', b'. rewrite Ht. simpl. repeat split; try done.
    destruct fuel as [|n]; [lia|].
    rewrite flush_empty_queue by by rewrite Ht.
    unfold bufferFlush, bind, get. simpl. rewrite Ht. simpl.
    unfold buffered. by rewrite Hp.
  - intros σ0 Hb0 Hq0. destruct fuel as [|n]; [lia|].
    by apply flush_before_setup.
Qed.

(** X17. [destroy] on a sink that was set up, when no queued line triggers
    a rotation: the base class is destroyed first, so the queued records are
    rendered by the base class as it is after its [destroy]; then the queue
    is drained and the buffer flushed, so that the file holds every line,
    and the last call is the close of the log file.  On a sink that was
    never set up, with nothing queued, [destroy] throws a [TypeError] after
    the base class was destroyed: there is no log file to close. *)
Theorem destroy_flushes_then_closes fuel (σ : Sys) b f :
  let t0 := setSuper baseDestroy (this σ) in
  calm t0 (deferredLogQueue (this σ)) →
  buffer (this σ) = Some b → logFile (this σ) = Some f →
  (length (deferredLogQueue (this σ)) + 2 < fuel)%nat →
  (∃ σ' b', destroy fuel σ = (Ok tt, σ') ∧
            super (this σ') = baseDestroy (super (this σ)) ∧
            deferredLogQueue (this σ') = [] ∧
            buffer (this σ') = Some b' ∧ pending b' = [] ∧
            content (path (writer b)) (fs σ') = written b (fs σ) ++
              concat (map line (map (format (baseDestroy (super (this σ))))
                                    (deferredLogQueue (this σ)))) ∧
            last (calls σ') = Some (CClose (rid f))) ∧
  (∀ σ0 : Sys, buffer (this σ0) = None → logFile (this σ0) = None →
               deferredLogQueue (this σ0) = [] →
               ∃ msg σ', destroy fuel σ0 = (Throw (TypeError msg), σ') ∧
                         super (this σ') = baseDestroy (super (this σ0)) ∧
                         fs σ' = fs σ0 ∧ calls σ' = calls σ0).
Proof.
  intros t0 Hq Hb Hf Hfuel. split.
  - unfold destroy. unfold bind at 1. unfold updThis at 1.
    set (σ0 := {| this := setSuper baseDestroy (this σ); fs := fs σ;
                  nextRid := nextRid σ; microtasks := microtasks σ;
                  calls := calls σ |}).
    destruct (flush_calm fuel σ0 b) as (σ1 & b1 & Hrun & Ht & Hp & Hw & Hc & _).
    { exact Hq. } { exact Hb. } { exact Hfuel. }
    rewrite (bind_Ok _ _ _ _ _ Hrun).
    unfold closeLogFile, bind, get. rewrite Ht. simpl. rewrite Hf.
    unfold record. eexists _, b1. split; [reflexivity|]. simpl. rewrite Ht. simpl.
    repeat split; try done. apply last_snoc.
  - intros σ0 Hb0 Hf0 Hq0. destruct fuel as [|n]; [lia|].
    unfold destroy. unfold bind at 1. unfold updThis at 1.
    set (σ1 := {| this := setSuper baseDestroy (this σ0); fs := fs σ0;
                  nextRid := nextRid σ0; microtasks := microtasks σ0;
                  calls := calls σ0 |}).
    rewrite (bind_Ok _ _ _ _ _ (flush_before_setup n σ1 Hb0 Hq0)).
    unfold closeLogFile, bind, get, throw. simpl. rewrite Hf0.
    eexists _, _. split; [reflexivity|]. done.
Qed.

(** X18. [setup] of a sink without a rotation strategy, by init mode.  The
    base class is set up, the log file is opened under the next resource id
    and fronted by a buffer of the configured size.  Under [append] the file
    keeps its content, and is created empty if it is missing; under
    [overwrite] it is empty afterwards; under [mustNotExist] it is created
    empty if it is missing, and if it exists [setup] throws [AlreadyExists]
    and leaves the file system, the file handle and the buffer as they
    were.  No other path is touched. *)
Theorem setup_open_modes (σ : Sys) :
  rotationStrategy (this σ) = None →
  let name := filename (this σ) in
  let mode := logFileInitStrategy (this σ) in
  let f := {| rid := nextRid σ; path := name |} in
  let opened (c : list Byte.byte) :=
    ∃ σ', setup σ = (Ok tt, σ') ∧
          logFile (this σ') = Some f ∧
          buffer (this σ') = Some (newBufWriterSync f (maxBufferSize (this σ))) ∧
          super (this σ') = baseSetup (super (this σ)) ∧
          fs σ' = <[name := c]> (fs σ) in
  (mode = Append → opened (content name (fs σ))) ∧
  (mode = Overwrite → opened []) ∧
  (mode = MustNotExist → fs σ !! name = None → opened []) ∧
  (mode = MustNotExist → is_Some (fs σ !! name) →
   ∃ σ', setup σ = (Throw (AlreadyExists name), σ') ∧
         fs σ' = fs σ ∧
         logFile (this σ') = logFile (this σ) ∧
         buffer (this σ') = buffer (this σ)).
Proof.
  intros Hst name mode f opened. subst opened mode name f.
  split; [|split; [|split]].
  - intros Hmode.
    unfold setup, openSync, bind, get, updThis, record, openFile, ret. simpl.
    rewrite Hst, Hmode. simpl. unfold content.
    destruct (fs σ !! filename (this σ)) as [c|] eqn:E; simpl;
      (eexists; split; [reflexivity|]); repeat split; try done.
    simpl. by rewrite insert_id.
  - intros Hmode.
    unfold setup, openSync, bind, get, updThis, record, openFile, ret. simpl.
    rewrite Hst, Hmode. simpl.
    destruct (fs σ !! filename (this σ)) as [c|] eqn:E; simpl;
      (eexists; split; [reflexivity|]); by repeat split.
  - intros Hmode Hnone.
    unfold setup, openSync, bind, get, updThis, record, openFile, ret. simpl.
    rewrite Hst, Hmode. simpl. rewrite Hnone. simpl.
    (eexists; split; [reflexivity|]); by repeat split.
  - intros Hmode [c Hsome].
    unfold setup, openSync, bind, get, updThis, record, openFile, throw, ret. simpl.
    rewrite Hst, Hmode. simpl. rewrite Hsome. simpl.
    (eexists; split; [reflexivity|]); by repeat split.
Qed.

(** X19. A batch of records at or below ERROR handled in one turn by a sink
    that is idle (nothing queued, nothing scheduled), followed by the
    microtasks of that turn: when none of the accepted lines triggers a
    rotation, the single scheduled drain passes every accepted record to
    [log] once, in the order of the [handle] calls, the lines are behind
    what was written before, and the queue and the microtask list are empty
    again. *)
Theorem deferred_batch_written_after_turn fuel rs (σ : Sys) b :
  Forall (λ r, (level r >? ERROR L) = false) rs →
  deferredLogQueue (this σ) = [] → microtasks σ = [] →
  buffer (this σ) = Some b →
  calm (this σ) (accepted (this σ) rs) →
  (length rs + 1 < fuel)%nat →
  let msgs := map (format (super (this σ))) (accepted (this σ) rs) in
  ∃ σ' b', (handleAll fuel rs ;;; runMicrotasks fuel) σ = (Ok tt, σ') ∧
           deferredLogQueue (this σ') = [] ∧ microtasks σ' = [] ∧
           buffer (this σ') = Some b' ∧ writer b' = writer b ∧
           written b' (fs σ') = written b (fs σ) ++ concat (map line msgs) ∧
           logged σ' = logged σ ++ msgs.
Proof.
  intros Hrs Hq Hm Hb Hcalm Hfuel msgs.
  rewrite (bind_Ok _ _ _ _ _ (handleAll_deferred fuel rs σ Hrs)).
  rewrite Hq, Hm. simpl app.
  unfold runMicrotasks. unfold bind at 1. unfold get at 1. cbv beta iota.
  unfold bind at 1. cbn [microtasks this fs nextRid calls].
  destruct (decide ([] = [] ∧ accepted (this σ) rs ≠ [])) as [[_ Hne]|Hemp].
  - simpl runTasks.
    set (σ2 := {| this := setQueue (accepted (this σ) rs) (this σ); fs := fs σ;
                  nextRid := nextRid σ; microtasks := []; calls := calls σ |}).
    destruct (processDeferredQueue_calm fuel σ2 b) as
      (σ3 & b3 & Hrun & Ht & Hw & Hbytes & Hl & Hm3).
    { exact Hcalm. } { exact Hb. }
    { simpl. pose proof (length_filter
        (λ r, baseMinLogLevel (super (this σ)) ≤ level r) rs) as Hlen.
      unfold accepted. lia. }
    rewrite (bind_Ok _ _ _ _ _ Hrun). unfold ret.
    exists σ3, b3. split; [done|]. rewrite Ht. by repeat split.
  - assert (Hnil : accepted (this σ) rs = []).
    { destruct (accepted (this σ) rs); [done|]. exfalso. by apply Hemp. }
    subst msgs. rewrite Hnil. simpl. unfold ret.
    eexists _, b. split; [reflexivity|]. simpl.
    rewrite !app_nil_r. by repeat split.
Qed.

(** **** The steps of [setup] and of a rotation *)

(** The options [setup] opens the log file with. *)
Definition setupOptions (mode : LogFileInitStrategy) : OpenOptions :=
  {| createNew := bool_decide (mode = MustNotExist);
     create := bool_decide (mode ≠ MustNotExist);
     append := bool_decide (mode = Append);
     truncate := bool_decide (mode ≠ Append);
     write := true |}.

(** The options [log] opens the new log file with after a rotation. *)
Definition rotateOptions : OpenOptions :=
  {| createNew := true; create := false; append := false;
     truncate := false; write := true |}.

Lemma closeLogFile_spec (σ : Sys) f :
  logFile (this σ) = Some f →
  closeLogFile σ = (Ok tt, addCalls [CClose (rid f)] σ).
Proof. intros Hf. unfold closeLogFile, bind, get. by rewrite Hf. Qed.

Lemma onStrategy_spec c (σ : Sys) st st' fs' :
  rotationStrategy (this σ) = Some st →
  c (st, fs σ) = (Ok tt, (st', fs')) →
  onStrategy c σ =
  (Ok tt, {| this := setRotationStrategy (Some st') (this σ); fs := fs';
             nextRid := nextRid σ; microtasks := microtasks σ;
             calls := calls σ |}).
Proof. intros Hst Hc. unfold onStrategy. by rewrite Hst, Hc. Qed.

Lemma openSync_spec p o (σ : Sys) fs' :
  openFile p o (fs σ) = (Ok tt, fs') →
  openSync p o σ =
  (Ok {| rid := nextRid σ; path := p |},
   {| this := this σ; fs := fs'; nextRid := Datatypes.S (nextRid σ);
      microtasks := microtasks σ; calls := calls σ ++ [COpen p o] |}).
Proof.
  intros Ho. unfold openSync, bind, get, record. simpl. by rewrite Ho.
Qed.

Lemma openSync_throws p o (σ : Sys) e fs' :
  openFile p o (fs σ) = (Throw e, fs') →
  openSync p o σ = (Throw e, addCalls [COpen p o] σ).
Proof.
  intros Ho. unfold openSync, bind, get, record. simpl. by rewrite Ho.
Qed.

Lemma bufferFlush_exact (σ : Sys) b :
  buffer (this σ) = Some b →
  bufferFlush σ =
  (Ok tt, {| this := setBuffer (Some (bufFlush b (fs σ)).1) (this σ);
             fs := (bufFlush b (fs σ)).2;
             nextRid := nextRid σ; microtasks := microtasks σ;
             calls := calls σ |}).
Proof.
  intros Hb. unfold bufferFlush, bind, get. simpl. rewrite Hb.
  unfold bufFlush.
  destruct (buffered b) as [|k] eqn:E; simpl; [|done].
  unfold ret. f_equal. destruct σ as [t ? ? ? ?]. simpl in *. f_equal.
  destruct t. simpl in *. by subst.
Qed.

Lemma bufferWriteSync_spec data (σ : Sys) b :
  buffer (this σ) = Some b →
  bufferWriteSync data σ =
  (Ok tt, {| this := setBuffer (Some (bufWriteSync data b (fs σ)).1) (this σ);
             fs := (bufWriteSync data b (fs σ)).2;
             nextRid := nextRid σ; microtasks := microtasks σ;
             calls := calls σ |}).
Proof.
  intros Hb. unfold bufferWriteSync, bind, get. simpl. rewrite Hb.
  by destruct (bufWriteSync data b (fs σ)).
Qed.

(** [setup] of a sink with a rotation strategy whose [initLogs] returns:
    what is left is the opening of the log file. *)
Lemma setup_with_strategy (σ : Sys) st st' fs1 :
  rotationStrategy (this σ) = Some st →
  initLogs (filename (this σ)) (logFileInitStrategy (this σ)) (st, fs σ)
    = (Ok tt, (st', fs1)) →
  let name := filename (this σ) in
  let o := setupOptions (logFileInitStrategy (this σ)) in
  let t1 := setRotationStrategy (Some st') (setSuper baseSetup (this σ)) in
  let f := {| rid := nextRid σ; path := name |} in
  setup σ =
  match openFile name o fs1 with
  | (Ok _, fs2) =>
      (Ok tt, {| this := setBuffer (Some (newBufWriterSync f (maxBufferSize (this σ))))
                           (setLogFile (Some f) t1);
                 fs := fs2; nextRid := Datatypes.S (nextRid σ);
                 microtasks := microtasks σ;
                 calls := calls σ ++ [CInitLogs; COpen name o] |})
  | (Throw e, _) =>
      (Throw e, {| this := t1; fs := fs1; nextRid := nextRid σ;
                   microtasks := microtasks σ;
                   calls := calls σ ++ [CInitLogs; COpen name o] |})
  | (Diverge, _) =>
      (Diverge, {| this := t1; fs := fs1; nextRid := nextRid σ;
                   microtasks := microtasks σ;
                   calls := calls σ ++ [CInitLogs; COpen name o] |})
  end.
Proof.
  intros Hst Hinit name o t1 f. subst name o t1 f.
  unfold setup. unfold bind at 1. unfold updThis at 1.
  unfold bind at 1. unfold get at 1. cbv beta iota.
  cbn [this rotationStrategy setSuper logFileInitStrategy filename maxBufferSize].
  rewrite Hst.
  unfold bind at 1. unfold bind at 1. unfold record at 1.
  unfold onStrategy. cbn [this rotationStrategy setSuper fs]. rewrite Hst.
  cbn [filename]. rewrite Hinit. cbv beta iota.
  fold (setupOptions (logFileInitStrategy (this σ))).
  unfold openSync, bind, get, record, setFs, freshRid, updThis, ret, throw, diverge.
  cbn [fs this nextRid microtasks calls].
  simpl. destruct (openFile _ _ fs1) as [[[]|e|] fs2]; simpl; by rewrite <- ?app_assoc.
Qed.

(** The rotation in [log] on a sink with an empty queue, when the strategy's
    [rotate] returns and the log file can be created anew: the buffer is
    flushed, the file closed, the strategy rotates, and the sink holds a new
    file and a new, empty buffer. *)
Lemma rotateLogFile_spec n m (σ : Sys) b f st st' fs2 fs3 :
  deferredLogQueue (this σ) = [] →
  buffer (this σ) = Some b → logFile (this σ) = Some f →
  rotationStrategy (this σ) = Some st →
  rotate (filename (this σ)) m (st, (bufFlush b (fs σ)).2) = (Ok tt, (st', fs2)) →
  openFile (filename (this σ)) rotateOptions fs2 = (Ok tt, fs3) →
  let f' := {| rid := nextRid σ; path := filename (this σ) |} in
  rotateLogFile (flush (Datatypes.S n)) m σ =
  (Ok tt,
   {| this := setBuffer (Some (newBufWriterSync f' (maxBufferSize (this σ))))
                (setLogFile (Some f') (setRotationStrategy (Some st') (this σ)));
      fs := fs3; nextRid := Datatypes.S (nextRid σ);
      microtasks := microtasks σ;
      calls := calls σ ++ [CClose (rid f); CRotate m;
                           COpen (filename (this σ)) rotateOptions] |}).
Proof.
  intros Hq Hb Hf Hst Hrot Hopen f'. subst f'. unfold rotateLogFile.
  set (σ1 := {| this := setBuffer (Some (bufFlush b (fs σ)).1) (this σ);
                fs := (bufFlush b (fs σ)).2;
                nextRid := nextRid σ; microtasks := microtasks σ;
                calls := calls σ |}).
  assert (Hfl : flush (Datatypes.S n) σ = (Ok tt, σ1)).
  { rewrite flush_empty_queue by done. by apply bufferFlush_exact. }
  rewrite (bind_Ok _ _ _ _ _ Hfl).
  rewrite (bind_Ok _ _ _ _ _ (closeLogFile_spec σ1 f Hf)).
  unfold bind at 1. unfold record at 1. unfold bind at 1. unfold get at 1.
  cbv beta iota.
  set (σ2 := {| this := this (addCalls [CClose (rid f)] σ1);
                fs := fs (addCalls [CClose (rid f)] σ1);
                nextRid := nextRid (addCalls [CClose (rid f)] σ1);
                microtasks := microtasks (addCalls [CClose (rid f)] σ1);
                calls := calls (addCalls [CClose (rid f)] σ1) ++ [CRotate m] |}).
  rewrite (bind_Ok _ _ _ _ _ (onStrategy_spec _ σ2 st st' fs2 Hst Hrot)).
  set (σ3 := {| this := setRotationStrategy (Some st') (this σ2); fs := fs2;
                nextRid := nextRid σ2; microtasks := microtasks σ2;
                calls := calls σ2 |}).
  rewrite (bind_Ok _ _ _ _ _ (openSync_spec (filename (this σ2)) _ σ3 fs3 Hopen)).
  unfold bind, updThis. simpl. by rewrite <- !app_assoc.
Qed.

End Sink.

(** *** The file sink with a byte-count rotation strategy *)

Section ByteSink.

Context {V B : Type}.
Variable initLogsByAge :
  LogFileRetentionPolicy → string → LogFileInitStrategy → M FS unit.
Variable highestBackup : LogFileRetentionPolicy → string → FS → nat.
Variable baseSetup : B → B.

Local Instance byteRotation : RotationStrategy ByteRotationStrategy :=
  ByteRotation initLogsByAge highestBackup.

(** C6, as amended. With a retention policy of n files, [initLogs] in
    overwrite mode returns normally and removes the backups numbered 1 to n,
    and nothing else: every other path, in particular every backup with a
    number above n, is left as it was. *)
Theorem overwrite_sweep_removes_first_n (st : ByteRotationStrategy) (fs0 : FS)
    (filename : string) (n : nat) :
  type (logFileRetentionPolicy st) = Files →
  quantity (logFileRetentionPolicy st) = n →
  ∃ fs', initLogs filename Overwrite (st, fs0) = (Ok tt, (st, fs')) ∧
         (∀ j, (1 ≤ j ≤ n)%nat → fs' !! backupName filename j = None) ∧
         (∀ p, (∀ j, (1 ≤ j ≤ n)%nat → p ≠ backupName filename j) →
               fs' !! p = fs0 !! p) ∧
         (∀ j, (n < j)%nat →
               fs' !! backupName filename j = fs0 !! backupName filename j).
Proof.
  intros Hty Hn.
  destruct (sweepBackups_overwrite filename n 1 fs0) as (fs' & Hrun & Hgone & Hkeep).
  exists fs'. split; [|split; [|split]].
  - simpl. unfold ByteRotationStrategy_initLogs, bind, get, onFS. simpl.
    rewrite Hty, Hn. simpl. by rewrite Hrun.
  - intros j Hj. apply Hgone. lia.
  - intros p Hp. apply Hkeep. intros j Hj. apply Hp. lia.
  - intros j Hj. apply Hkeep. intros i Hi Heq.
    apply backupName_inj in Heq. lia.
Qed.

(** C7. With a retention policy of n files and init mode [mustNotExist],
    if one of [filename.1 .. filename.n] exists then [initLogs] throws the
    collision error for the first of them and leaves the file system as it
    was, and [setup] throws the same error before it opens the log file: in
    the state it leaves, the file system is unchanged, no [Deno.openSync]
    was made, and the sink has no file and no buffer it did not have
    before. *)
Theorem mustNotExist_collision (σ : @Sys V ByteRotationStrategy B)
    (st : ByteRotationStrategy) (n j : nat) :
  rotationStrategy (this σ) = Some st →
  logFileInitStrategy (this σ) = MustNotExist →
  type (logFileRetentionPolicy st) = Files →
  quantity (logFileRetentionPolicy st) = n →
  (1 ≤ j ≤ n)%nat →
  is_Some (fs σ !! backupName (filename (this σ)) j) →
  ∃ k σ',
    (1 ≤ k ≤ j)%nat ∧
    is_Some (fs σ !! backupName (filename (this σ)) k) ∧
    initLogs (filename (this σ)) MustNotExist (st, fs σ) =
      (Throw (collision (backupName (filename (this σ)) k)), (st, fs σ)) ∧
    setup baseSetup σ =
      (Throw (collision (backupName (filename (this σ)) k)), σ') ∧
    fs σ' = fs σ ∧
    calls σ' = calls σ ++ [CInitLogs] ∧
    logFile (this σ') = logFile (this σ) ∧
    buffer (this σ') = buffer (this σ).
Proof.
  intros Hst Hmode Hty Hn Hj Hex.
  destruct (sweepBackups_mustNotExist_hit (filename (this σ)) n 1 j (fs σ))
    as (k & Hk & Hexk & Hrun); [lia|done|].
  assert (Hinit : initLogs (filename (this σ)) MustNotExist (st, fs σ) =
                  (Throw (collision (backupName (filename (this σ)) k)), (st, fs σ))).
  { simpl. unfold ByteRotationStrategy_initLogs, bind, get, onFS. simpl.
    rewrite Hty, Hn. simpl. by rewrite Hrun. }
  exists k. eexists. split; [lia|]. split; [done|]. split; [exact Hinit|].
  split.
  - unfold setup. unfold bind at 1. unfold updThis at 1.
    unfold bind at 1. unfold get at 1. cbv beta iota. simpl this.
    simpl rotationStrategy. rewrite Hst. simpl logFileInitStrategy. rewrite Hmode.
    unfold bind at 1. unfold bind at 1. unfold record at 1.
    unfold onStrategy. simpl this. simpl rotationStrategy. rewrite Hst.
    simpl filename. simpl fs. rewrite Hinit. reflexivity.
  - simpl. by repeat split.
Qed.

End ByteSink.

(** *** Rotation by byte count: setting up, rotating, counting *)

Section ByteLog.

Context {V B : Type}.
Variable initLogsByAge :
  LogFileRetentionPolicy → string → LogFileInitStrategy → M FS unit.
Variable highestBackup : LogFileRetentionPolicy → string → FS → nat.
Variable baseSetup : B → B.
Variable format : B → LogRecord V → string.

Local Instance byteStrategy : RotationStrategy ByteRotationStrategy :=
  ByteRotation initLogsByAge highestBackup.

Lemma rotate_files (st : ByteRotationStrategy) (fs0 fs' : FS) filename m :
  type (logFileRetentionPolicy st) = Files →
  cascade filename (quantity (logFileRetentionPolicy st)) fs0 = (Ok tt, fs') →
  rotate filename m (st, fs0) =
  (Ok tt, (setCurrentFileSize (Z.of_nat (length m)) st, fs')).
Proof.
  intros Hty Hrun. simpl.
  unfold ByteRotationStrategy_rotate, bind, get, onFS, onSelf. simpl.
  rewrite Hty. simpl. by rewrite Hrun.
Qed.

(** X20. [rotate] with a retention policy of n files, n at least 1: it
    returns, the log file is moved to backup 1 and is gone from its own
    path, every backup below n - 1 moves one number up, backup n is replaced
    by backup n - 1 if that exists (its old content is lost) and stays as it
    is otherwise, no backup with a number above n and no other path is
    touched, and the byte count of the strategy is the length of the message
    that caused the rotation. *)
Theorem rotate_shifts_backups (st : ByteRotationStrategy) (fs0 : FS)
    (filename : string) (m : list Byte.byte) (n : nat) :
  type (logFileRetentionPolicy st) = Files →
  quantity (logFileRetentionPolicy st) = n → (0 < n)%nat →
  ∃ fs', rotate filename m (st, fs0) =
           (Ok tt, (setCurrentFileSize (Z.of_nat (length m)) st, fs')) ∧
         fs' !! filename = None ∧
         (∀ i, (1 ≤ i < n)%nat →
               fs' !! backupName filename i = fs0 !! slot filename (i - 1)) ∧
         fs' !! backupName filename n =
           match fs0 !! slot filename (n - 1) with
           | Some c => Some c
           | None => fs0 !! backupName filename n
           end ∧
         (∀ p, p ≠ filename → (∀ i, (1 ≤ i ≤ n)%nat → p ≠ backupName filename i) →
               fs' !! p = fs0 !! p).
Proof.
  intros Hty Hn Hpos.
  destruct (cascade_spec filename n fs0) as (fs' & Hrun & Hkeep & Hshift & Hzero & Hlast).
  exists fs'. split; [|split; [|split; [|split]]].
  - apply rotate_files; [done|]. by rewrite Hn.
  - by apply Hzero.
  - intros i Hi. destruct i as [|i]; [lia|].
    replace (Datatypes.S i - 1)%nat with i by lia.
    apply (Hshift i). lia.
  - destruct n as [|n']; [lia|]. by apply Hlast.
  - intros p Hp0 Hp. apply Hkeep. intros i Hi.
    destruct i as [|i]; [exact Hp0|]. apply Hp. lia.
Qed.

Lemma rotate_moves_log (st : ByteRotationStrategy) (fs0 : FS) filename m n c :
  type (logFileRetentionPolicy st) = Files →
  quantity (logFileRetentionPolicy st) = n → (0 < n)%nat →
  fs0 !! filename = Some c →
  ∃ fs', rotate filename m (st, fs0) =
           (Ok tt, (setCurrentFileSize (Z.of_nat (length m)) st, fs')) ∧
         fs' !! filename = None ∧
         fs' !! backupName filename 1 = Some c.
Proof.
  intros Hty Hn Hpos Hc.
  destruct (cascade_spec filename n fs0) as (fs' & Hrun & _ & Hshift & Hzero & Hlast).
  exists fs'. split; [|split].
  - apply rotate_files; [done|]. by rewrite Hn.
  - by apply Hzero.
  - destruct (decide (n = 1%nat)) as [->|Hne].
    + etrans; [exact (Hlast Hpos)|]. unfold slot. simpl. by rewrite Hc.
    + rewrite <- Hc. apply (Hshift 0%nat). lia.
Qed.

(** X21. [log] on a sink with an empty queue, for a line that makes the
    byte count pass the limit, with a retention policy of n files, n at
    least 1: the call returns; what was written to the log file, in the file
    or still in the buffer, is in backup 1; the log file is new, opened
    under the next resource id, and the line of this call is all that was
    written to it; the byte count of the strategy is the length of that
    line; and the calls were, in order, the question to the strategy, the
    close of the old file, the rotation and the opening of the new file. *)
Theorem log_rotates_into_fresh_file fuel msg (σ : @Sys V ByteRotationStrategy B)
    st b f c n :
  rotationStrategy (this σ) = Some st →
  0 < maxBufferSize (this σ) →
  shouldRotate (line msg) st = true →
  type (logFileRetentionPolicy st) = Files →
  quantity (logFileRetentionPolicy st) = n → (0 < n)%nat →
  deferredLogQueue (this σ) = [] →
  buffer (this σ) = Some b → logFile (this σ) = Some f →
  path (writer b) = filename (this σ) →
  fs σ !! filename (this σ) = Some c →
  (2 ≤ fuel)%nat →
  let name := filename (this σ) in
  let f' := {| rid := nextRid σ; path := name |} in
  ∃ σ' b', log format fuel msg σ = (Ok tt, σ') ∧
           fs σ' !! backupName name 1 = Some (c ++ pending b) ∧
           logFile (this σ') = Some f' ∧
           buffer (this σ') = Some b' ∧ writer b' = f' ∧
           written b' (fs σ') = line msg ∧
           rotationStrategy (this σ') =
             Some (setCurrentFileSize (Z.of_nat (length (line msg))) st) ∧
           calls σ' = calls σ ++
             [CLog msg; CShouldRotate (line msg); CClose (rid f);
              CRotate (line msg); COpen name rotateOptions].
Proof.
  intros Hst Hsz Hrot Hty Hn Hpos Hq Hb Hf Hpath Hc Hfuel name f'.
  destruct fuel as [|[|k]]; [lia|lia|].
  set (fs1 := (bufFlush b (fs σ)).2).
  assert (Hc1 : fs1 !! name = Some (c ++ pending b)).
  { unfold fs1, name. rewrite <- Hpath. apply bufFlush_lookup. by rewrite Hpath. }
  destruct (rotate_moves_log st fs1 name (line msg) n _ Hty Hn Hpos Hc1)
    as (fs2 & Hrun & Hgone & Hone).
  assert (Hopen : openFile name rotateOptions fs2 = (Ok tt, <[name := []]> fs2)).
  { unfold openFile. by rewrite Hgone. }
  rewrite log_S. fold (line msg).
  unfold bind at 1. unfold record at 1. fold (addCalls [CLog msg] σ).
  unfold bind at 1. rewrite shouldRotateNow_spec.
  assert (Hdue : rotationDue (this (addCalls [CLog msg] σ)) (line msg) = true).
  { unfold rotationDue. simpl this. apply Z.ltb_lt in Hsz. by rewrite Hsz, Hst. }
  rewrite Hdue.
  assert (Hcons : consulted (this (addCalls [CLog msg] σ)) (line msg)
                  = [CShouldRotate (line msg)]).
  { unfold consulted. simpl this. apply Z.ltb_lt in Hsz. by rewrite Hsz, Hst. }
  rewrite Hcons.
  set (σ1 := addCalls [CShouldRotate (line msg)] (addCalls [CLog msg] σ)).
  rewrite (bind_Ok _ _ _ _ _
             (rotateLogFile_spec format k (line msg) σ1 b f st _ fs2 _
                Hq Hb Hf Hst Hrun Hopen)).
  set (b0 := newBufWriterSync f' (maxBufferSize (this σ))).
  rewrite (bufferWriteSync_spec _ _ b0) by done.
  destruct (bufWriteSync_written (line msg) b0 (<[name := []]> fs2)) as [Hwr Hw].
  eexists _, _. split; [reflexivity|]. cbn [this fs calls buffer logFile setBuffer
    setLogFile rotationStrategy setRotationStrategy].
  split; [|split; [done|]; split; [done|]; split; [exact Hw|]; split; [|split; [done|]]].
  - rewrite bufWriteSync_other
      by (simpl; intros H; by apply backupName_fresh in H).
    rewrite lookup_insert_ne by (intros H; symmetry in H; by apply backupName_fresh in H).
    exact Hone.
  - rewrite Hwr. unfold written. simpl. unfold content.
    by rewrite lookup_insert_eq.
  - simpl. by rewrite <- !app_assoc.
Qed.

(** X22. The byte count of the strategy is set by [initLogs] and by
    [rotate] only; lines that are written do not advance it.  So when each
    queued line, taken alone, fits between the byte count and the limit, a
    drain pass writes all of them without a rotation, whatever they add up
    to, and leaves the strategy with the byte count it had. *)
Theorem byte_count_not_advanced_by_writes fuel (σ : @Sys V ByteRotationStrategy B)
    st b :
  rotationStrategy (this σ) = Some st →
  buffer (this σ) = Some b →
  Forall (λ r, currentFileSize st +
               Z.of_nat (length (line (format (super (this σ)) r))) ≤ maxBytes st)
         (deferredLogQueue (this σ)) →
  (length (deferredLogQueue (this σ)) + 1 < fuel)%nat →
  let msgs := map (format (super (this σ))) (deferredLogQueue (this σ)) in
  ∃ σ' b', processDeferredQueue format fuel σ = (Ok tt, σ') ∧
           rotationStrategy (this σ') = Some st ∧
           logFile (this σ') = logFile (this σ) ∧
           buffer (this σ') = Some b' ∧
           written b' (fs σ') = written b (fs σ) ++ concat (map line msgs) ∧
           logged σ' = logged σ ++ msgs ∧
           deferredLogQueue (this σ') = [].
Proof.
  intros Hst Hb Hfit Hfuel msgs.
  destruct (processDeferredQueue_calm format fuel σ b) as
    (σ' & b' & Hrun & Ht & _ & Hbytes & Hl & _); [|done|done|].
  - unfold calm. eapply Forall_impl; [exact Hfit|].
    intros r Hr. unfold rotationDue. rewrite Hst.
    destruct (0 <? maxBufferSize (this σ)); [|done].
    simpl. unfold ByteRotationStrategy_shouldRotate.
    rewrite Z.gtb_ltb. apply Z.ltb_ge. simpl in Hr. lia.
  - exists σ', b'. split; [done|]. rewrite Ht. simpl. by repeat split.
Qed.

(** X23. [setup] in append mode with a byte-count strategy: it returns,
    the log file keeps its content (and is created empty if it is missing),
    and the byte count of the strategy is the size of that content; the
    first line is then found to need a rotation exactly when that size plus
    the length of the line is above the limit. *)
Theorem append_setup_counts_existing_bytes (σ : @Sys V ByteRotationStrategy B) st :
  rotationStrategy (this σ) = Some st →
  logFileInitStrategy (this σ) = Append →
  let name := filename (this σ) in
  let size := Z.of_nat (length (content name (fs σ))) in
  ∃ σ', setup baseSetup σ = (Ok tt, σ') ∧
        rotationStrategy (this σ') = Some (setCurrentFileSize size st) ∧
        fs σ' = <[name := content name (fs σ)]> (fs σ) ∧
        calls σ' = calls σ ++ [CInitLogs; COpen name (setupOptions Append)] ∧
        (∀ m, 0 < maxBufferSize (this σ) →
              rotationDue (this σ') m = (size + Z.of_nat (length m) >? maxBytes st)).
Proof.
  intros Hst Hmode name size.
  assert (Hinit : initLogs name (logFileInitStrategy (this σ)) (st, fs σ) =
                  (Ok tt, (setCurrentFileSize size st, fs σ))).
  { rewrite Hmode. simpl.
    unfold ByteRotationStrategy_initLogs, bind, onFS, onSelf. simpl.
    rewrite fileInfo_spec. simpl. subst size. unfold content.
    by destruct (fs σ !! name). }
  rewrite (setup_with_strategy baseSetup σ st _ _ Hst Hinit). rewrite Hmode.
  fold name. unfold openFile. simpl.
  destruct (fs σ !! name) as [c|] eqn:E.
  - eexists. split; [reflexivity|]. simpl. repeat split; try done.
    + unfold content. rewrite E. simpl. by rewrite insert_id.
    + intros m Hsz. unfold rotationDue. simpl.
      apply Z.ltb_lt in Hsz. by rewrite Hsz.
  - eexists. split; [reflexivity|]. simpl. repeat split; try done.
    + unfold content. by rewrite E.
    + intros m Hsz. unfold rotationDue. simpl.
      apply Z.ltb_lt in Hsz. by rewrite Hsz.
Qed.

(** X24. [setup] under [mustNotExist] with a retention policy of n files
    when none of the backups 1 to n exists: [initLogs] returns and leaves
    the file system and the strategy alone, whatever backups with higher
    numbers there are.  If the log file is missing it is created empty and
    the sink is ready; if it exists, [Deno.openSync] throws [AlreadyExists]
    and the file system is as it was. *)
Theorem mustNotExist_clean_start (σ : @Sys V ByteRotationStrategy B) st n :
  rotationStrategy (this σ) = Some st →
  logFileInitStrategy (this σ) = MustNotExist →
  type (logFileRetentionPolicy st) = Files →
  quantity (logFileRetentionPolicy st) = n →
  (∀ j, (1 ≤ j ≤ n)%nat → fs σ !! backupName (filename (this σ)) j = None) →
  let name := filename (this σ) in
  let f := {| rid := nextRid σ; path := name |} in
  initLogs name MustNotExist (st, fs σ) = (Ok tt, (st, fs σ)) ∧
  (fs σ !! name = None →
   ∃ σ', setup baseSetup σ = (Ok tt, σ') ∧
         fs σ' = <[name := []]> (fs σ) ∧
         rotationStrategy (this σ') = Some st ∧
         logFile (this σ') = Some f ∧
         buffer (this σ') = Some (newBufWriterSync f (maxBufferSize (this σ)))) ∧
  (is_Some (fs σ !! name) →
   ∃ σ', setup baseSetup σ = (Throw (AlreadyExists name), σ') ∧
         fs σ' = fs σ ∧
         calls σ' = calls σ ++ [CInitLogs; COpen name (setupOptions MustNotExist)] ∧
         logFile (this σ') = logFile (this σ) ∧
         buffer (this σ') = buffer (this σ)).
Proof.
  intros Hst Hmode Hty Hn Hclean name f.
  assert (Hinit : initLogs name MustNotExist (st, fs σ) = (Ok tt, (st, fs σ))).
  { simpl. unfold ByteRotationStrategy_initLogs, bind, get, onFS. simpl.
    rewrite Hty, Hn. simpl.
    rewrite sweepBackups_mustNotExist_clean; [done|].
    intros j Hj. apply Hclean. lia. }
  split; [exact Hinit|].
  assert (Hinit' : initLogs name (logFileInitStrategy (this σ)) (st, fs σ) =
                   (Ok tt, (st, fs σ))) by by rewrite Hmode.
  pose proof (setup_with_strategy baseSetup σ st _ _ Hst Hinit') as Hsetup.
  rewrite Hmode in Hsetup. fold name in Hsetup. unfold openFile in Hsetup.
  split.
  - intros Hnone. rewrite Hnone in Hsetup. simpl in Hsetup.
    eexists. split; [exact Hsetup|]. by repeat split.
  - intros [c Hsome]. rewrite Hsome in Hsetup. simpl in Hsetup.
    eexists. split; [exact Hsetup|]. by repeat split.
Qed.

End ByteLog.

(** *** The file sink with a date/time rotation strategy *)

Section DateTimeSink.

Context {V B : Type}.
Variable baseSetup : B → B.
Variable format : B → LogRecord V → string.

(** X25. A sink configured with a date/time rotation strategy never
    rotates: whatever is queued and whatever the state of the strategy, a
    drain pass with fuel for the queue returns, every line went through the
    buffered writer in queue order, and the sink still holds the same file
    and the same strategy. *)
Theorem dateTime_strategy_never_rotates fuel
    (σ : @Sys V DateTimeRotationStrategy B) b :
  buffer (this σ) = Some b →
  (length (deferredLogQueue (this σ)) + 1 < fuel)%nat →
  let msgs := map (format (super (this σ))) (deferredLogQueue (this σ)) in
  ∃ σ' b', processDeferredQueue format fuel σ = (Ok tt, σ') ∧
           rotationStrategy (this σ') = rotationStrategy (this σ) ∧
           logFile (this σ') = logFile (this σ) ∧
           buffer (this σ') = Some b' ∧ writer b' = writer b ∧
           written b' (fs σ') = written b (fs σ) ++ concat (map line msgs) ∧
           logged σ' = logged σ ++ msgs ∧
           deferredLogQueue (this σ') = [].
Proof.
  intros Hb Hfuel msgs.
  destruct (processDeferredQueue_calm format fuel σ b) as
    (σ' & b' & Hrun & Ht & Hw & Hbytes & Hl & _); [|done|done|].
  - unfold calm. apply Forall_forall. intros r _. unfold rotationDue.
    destruct (0 <? maxBufferSize (this σ)); [|done].
    by destruct (rotationStrategy (this σ)).
  - exists σ', b'. split; [done|]. rewrite Ht. simpl. by repeat split.
Qed.

End DateTimeSink.

(** *** Concrete runs

    Records carry string messages; the base class holds the minimum level of
    the sink and renders a record as its message.  The retention policies
    below are by count, so the branches by age are not reached; they are
    filled with a sweep that does nothing. *)

Definition noAgeSweep :
    LogFileRetentionPolicy → string → LogFileInitStrategy → M FS unit :=
  λ _ _ _, ret tt.
Definition noScan : LogFileRetentionPolicy → string → FS → nat := λ _ _ _, 0%nat.

Definition byteSink : RotationStrategy ByteRotationStrategy :=
  ByteRotation noAgeSweep noScan.

Definition render : Level → LogRecord string → string := λ _ r, msg r.

Definition setup0 : M (@Sys string ByteRotationStrategy Level) unit :=
  setup (RS := byteSink) id.
Definition handle0 (fuel : nat) (r : LogRecord string) :
    M (@Sys string ByteRotationStrategy Level) unit :=
  handle (RS := byteSink) id render Logger.levels fuel r.
Definition runMicrotasks0 (fuel : nat) :
    M (@Sys string ByteRotationStrategy Level) unit :=
  runMicrotasks (RS := byteSink) render fuel.
Definition log0 (fuel : nat) (m : string) :
    M (@Sys string ByteRotationStrategy Level) unit :=
  log (RS := byteSink) render fuel m.

Definition entry (lv : Level) (m : string) : LogRecord string :=
  {| msg := m; metadata := []; dateTime := 0; level := lv |}.

(** [every(n).bytes().withLogFileRetentionPolicy(of(k).files())] *)
Definition everyBytes (n : Z) (k : nat) : ByteRotationStrategy :=
  {| maxBytes := n; logFileRetentionPolicy := ofFiles k; currentFileSize := 0 |}.

Example everyBytes_built :
  newByteRotationStrategy 10 = Ok (everyBytes 10 7) ∧
  withLogFileRetentionPolicy (ofFiles 2) (everyBytes 20000 7) = everyBytes 20000 2 ∧
  newByteRotationStrategy 0 = Throw (Error "Max bytes cannot be less than 1").
Proof. repeat split. Qed.

(** [new FileStream("log.txt")] with the given rotation strategy, init mode
    and buffer size, before [setup], on file system [fs0]. *)
Definition fresh (st : option ByteRotationStrategy) (mode : LogFileInitStrategy)
    (size : Z) (fs0 : FS) : @Sys string ByteRotationStrategy Level :=
  {| this := setMaxBufferSize size
               (setInitStrategy mode
                  (setRotationStrategy st (newFileStream 10 "log.txt")));
     fs := fs0; nextRid := 3; microtasks := []; calls := [] |}.

Definition bytes (s : string) : list Byte.byte := String.list_byte_of_string s.

(** A log file with five numbered backups. *)
Definition fiveBackups : FS :=
  list_to_map [("log.txt", bytes "live");
               ("log.txt.1", bytes "one"); ("log.txt.2", bytes "two");
               ("log.txt.3", bytes "three"); ("log.txt.4", bytes "four");
               ("log.txt.5", bytes "five")].

Lemma overwrite_sweep_removes_first_n_witness :
  ∃ fs', initLogs (RotationStrategy := byteSink) "log.txt" Overwrite
           (everyBytes 20000 2, fiveBackups) = (Ok tt, (everyBytes 20000 2, fs')) ∧
         (∀ j, (1 ≤ j ≤ 2)%nat → fs' !! backupName "log.txt" j = None) ∧
         (∀ p, (∀ j, (1 ≤ j ≤ 2)%nat → p ≠ backupName "log.txt" j) →
               fs' !! p = fiveBackups !! p) ∧
         (∀ j, (2 < j)%nat →
               fs' !! backupName "log.txt" j = fiveBackups !! backupName "log.txt" j).
Proof.
  apply (overwrite_sweep_removes_first_n noAgeSweep noScan
           (everyBytes 20000 2) fiveBackups "log.txt" 2); reflexivity.
Defined.

(** C6, as stated, fails. "Keep 2 files", five backups [log.txt.1] to
    [log.txt.5], overwrite mode: [initLogs], and [setup] as a whole, remove
    [log.txt.1] and [log.txt.2] and leave the three backups numbered 3, 4
    and 5. *)
Lemma retention_sweep_counterexample :
  let st := everyBytes 20000 2 in
  let afterInit := (initLogs (RotationStrategy := byteSink) "log.txt" Overwrite
                      (st, fiveBackups)).2.2 in
  let afterSetup := fs (setup0 (fresh (Some st) Overwrite 8192 fiveBackups)).2 in
  backups "log.txt" 5 fiveBackups = [1; 2; 3; 4; 5]%nat ∧
  (setup0 (fresh (Some st) Overwrite 8192 fiveBackups)).1 = Ok tt ∧
  backups "log.txt" 5 afterInit = [3; 4; 5]%nat ∧
  backups "log.txt" 5 afterSetup = [3; 4; 5]%nat ∧
  ¬ (length (backups "log.txt" 5 afterSetup) ≤ 2)%nat.
Proof.
  assert (H : backups "log.txt" 5
                (fs (setup0 (fresh (Some (everyBytes 20000 2)) Overwrite 8192
                               fiveBackups)).2) = [3; 4; 5]%nat)
    by (vm_compute; reflexivity).
  cbv zeta. rewrite H.
  split; [by vm_compute|]. split; [by vm_compute|]. split; [by vm_compute|].
  split; [done|]. simpl. lia.
Qed.

Lemma mustNotExist_collision_witness :
  let σ := fresh (Some (everyBytes 20000 7)) MustNotExist 8192
             (list_to_map [("log.txt.2", bytes "old")]) in
  ∃ k σ',
    (1 ≤ k ≤ 2)%nat ∧
    is_Some (fs σ !! backupName "log.txt" k) ∧
    initLogs (RotationStrategy := byteSink) "log.txt" MustNotExist
      (everyBytes 20000 7, fs σ) =
      (Throw (collision (backupName "log.txt" k)), (everyBytes 20000 7, fs σ)) ∧
    setup0 σ = (Throw (collision (backupName "log.txt" k)), σ') ∧
    fs σ' = fs σ ∧
    calls σ' = calls σ ++ [CInitLogs] ∧
    logFile (this σ') = logFile (this σ) ∧
    buffer (this σ') = buffer (this σ).
Proof.
  apply (mustNotExist_collision noAgeSweep noScan id
           (fresh (Some (everyBytes 20000 7)) MustNotExist 8192
              (list_to_map [("log.txt.2", bytes "old")]))
           (everyBytes 20000 7) 7 2); try reflexivity.
  - lia.
  - vm_compute. eauto.
Defined.

(** A sink set up with buffer size 0 and a strategy that would rotate on
    any line longer than 10 bytes. *)
Lemma buffer_size_zero_skips_rotation_witness :
  let σ := (setup0 (fresh (Some (everyBytes 10 7)) Overwrite 0 ∅)).2 in
  let m := "a line of more than ten bytes" in
  rotationCalls (log0 1 m σ).2 = rotationCalls σ ∧
  rotationStrategy (this (log0 1 m σ).2) = rotationStrategy (this σ) ∧
  (∀ b, buffer (this σ) = Some b →
        log0 1 m σ = (Ok tt, afterWrite [] m b σ) ∧
        ∃ b', buffer (this (afterWrite [] m b σ)) = Some b' ∧
              written b' (fs (afterWrite [] m b σ)) =
              written b (fs σ) ++ encode (m +:+ newline)) ∧
  (∀ f, bufSize (newBufWriterSync f 0) = DEFAULT_BUF_SIZE).
Proof.
  apply (buffer_size_zero_skips_rotation (RS := byteSink) render 0
           "a line of more than ten bytes"
           (setup0 (fresh (Some (everyBytes 10 7)) Overwrite 0 ∅)).2).
  reflexivity.
Defined.

(** The sink of the previous lemma in full: the strategy would rotate on
    this line, the buffer size of 0 keeps it from being asked, and the line
    waits in the buffer of default size. *)
Example buffer_size_zero_run :
  let σ := (setup0 (fresh (Some (everyBytes 10 7)) Overwrite 0 ∅)).2 in
  let m := "a line of more than ten bytes" in
  shouldRotate (RotationStrategy := byteSink) (line m) (everyBytes 10 7) = true ∧
  (log0 1 m σ).1 = Ok tt ∧
  calls (log0 1 m σ).2 = calls σ ++ [CLog m] ∧
  buffer (this (log0 1 m σ).2) =
    Some {| writer := {| rid := 3; path := "log.txt" |}; bufSize := 4096;
            pending := bytes (m +:+ newline) |} ∧
  content "log.txt" (fs (log0 1 m σ).2) = [].
Proof. repeat split; by vm_compute. Qed.

(** A sink on an empty file system with rotation every 10 bytes, after
    [setup] in overwrite mode. *)
Definition rotating : @Sys string ByteRotationStrategy Level :=
  (setup0 (fresh (Some (everyBytes 10 7)) Overwrite 8192 ∅)).2.

(** The same sink without a rotation strategy. *)
Definition plain : @Sys string ByteRotationStrategy Level :=
  (setup0 (fresh None Overwrite 8192 ∅)).2.

(** The state after two sub-threshold records were handled in one turn. *)
Definition twoQueued : @Sys string ByteRotationStrategy Level :=
  ((handle0 0 (entry 20 "ok") ;;; handle0 0 (entry 20 "disk failure imminent"))
     rotating).2.

Lemma rotating_pending k (q : list (LogRecord string)) rk σ :
  this σ = setQueue q (this rotating) ∨
  (∃ b, this σ = setBuffer (Some b) (setQueue q (this rotating))) →
  q !! k = Some rk →
  (10 <? Z.of_nat (length (line (msg rk)))) = true →
  rotationPending (RS := byteSink) render q k (everyBytes 10 7) (this σ).
Proof.
  intros Hthis Hk Hlen.
  assert (Hrot : shouldRotate (RotationStrategy := byteSink) (line (msg rk))
                   (everyBytes 10 7) = true).
  { simpl. unfold ByteRotationStrategy_shouldRotate. simpl.
    apply Z.ltb_lt in Hlen. apply Z.gtb_lt. lia. }
  destruct Hthis as [->|[b ->]];
    (split; [done|]; split; [done|]; split; [done|]; split; [simpl; eauto|]);
    by exists rk.
Qed.

(** C4 at a failing input. A sink that rotates every 10 bytes receives a
    CRITICAL record whose line is longer than that: [handle] pushes the
    record and starts the drain, [log] finds a rotation due and calls
    [flush], which starts the drain again on the queue that still holds the
    record.  The call does not return for any amount of fuel, and nothing
    reaches the file. *)
Theorem high_severity_rotation_never_returns :
  let r := entry 50 "disk failure imminent" in
  (setup0 (fresh (Some (everyBytes 10 7)) Overwrite 8192 ∅)).1 = Ok tt ∧
  level r > ERROR Logger.levels ∧
  (∀ fuel, (handle0 fuel r rotating).1 = Diverge) ∧
  content "log.txt" (fs (handle0 50 r rotating).2) = [] ∧
  deferredLogQueue (this (handle0 50 r rotating).2) = [r].
Proof.
  split; [by vm_compute|]. split; [done|]. split; [|split; by vm_compute].
  intros fuel.
  apply (handle_high_severity_rotation (RS := byteSink) id render Logger.levels fuel
           (entry 50 "disk failure imminent") rotating (everyBytes 10 7));
    try reflexivity.
  simpl. eauto.
Qed.

(** C5 at a failing input. Two records at INFO are handled in one turn by a
    sink that rotates every 10 bytes; the line of the second is longer than
    that.  One drain is scheduled and both records are queued; the drain
    pass then writes the first record, finds a rotation due for the second,
    and through [flush] starts over: the first record is passed to [log]
    and written again, the pass does not return for any amount of fuel, and
    the queue is never emptied. *)
Theorem deferred_drain_rotation_never_returns :
  let r1 := entry 20 "ok" in
  let r2 := entry 20 "disk failure imminent" in
  deferredLogQueue (this twoQueued) = [r1; r2] ∧
  microtasks twoQueued = [Drain] ∧
  (∀ fuel, (runMicrotasks0 fuel twoQueued).1 = Diverge) ∧
  logged (runMicrotasks0 12 twoQueued).2 =
    ["ok"; "disk failure imminent"; "ok"; "disk failure imminent"] ∧
  (pending <$> buffer (this (runMicrotasks0 12 twoQueued).2)) =
    Some (bytes ("ok" +:+ newline) ++ bytes ("ok" +:+ newline)) ∧
  deferredLogQueue (this (runMicrotasks0 12 twoQueued).2) = [r1; r2].
Proof.
  split; [by vm_compute|]. split; [by vm_compute|].
  split; [|repeat split; by vm_compute].
  intros fuel. unfold runMicrotasks0, runMicrotasks.
  unfold bind at 1. unfold get at 1. cbv beta iota.
  unfold bind at 1. cbv beta iota.
  change (microtasks twoQueued) with [@Drain].
  unfold runTasks. apply bind_diverges.
  apply (rotation_reenters_drain (RS := byteSink) render
           [entry 20 "ok"; entry 20 "disk failure imminent"] 1
           (everyBytes 10 7) fuel).
  apply (rotating_pending 1 _ (entry 20 "disk failure imminent")); try reflexivity.
  right. eexists. reflexivity.
Qed.

(** Without a rotation strategy the same calls behave as specified: three
    sub-threshold records handled in one turn schedule one drain, which
    passes them to [log] in their order and empties the queue. *)
Example deferred_batch_of_three :
  let σ := ((handle0 0 (entry 20 "one") ;;; handle0 0 (entry 30 "two") ;;;
             handle0 0 (entry 40 "three")) plain).2 in
  microtasks σ = [Drain] ∧
  (runMicrotasks0 6 σ).1 = Ok tt ∧
  logged (runMicrotasks0 6 σ).2 = ["one"; "two"; "three"] ∧
  deferredLogQueue (this (runMicrotasks0 6 σ).2) = [].
Proof. repeat split; by vm_compute. Qed.

(** Without a rotation strategy a CRITICAL record is in the file when
    [handle] returns, and no microtask was scheduled. *)
Example high_severity_immediate_flush :
  (handle0 3 (entry 50 "down") plain).1 = Ok tt ∧
  content "log.txt" (fs (handle0 3 (entry 50 "down") plain).2) =
    bytes ("down" +:+ newline) ∧
  microtasks (handle0 3 (entry 50 "down") plain).2 = [].
Proof. repeat split; by vm_compute. Qed.

(** *** Concrete runs of batches, flushes, setups and rotations *)

(** A sink with room for 20000 bytes before it rotates, after [setup] in
    overwrite mode on an empty file system. *)
Definition roomy : @Sys string ByteRotationStrategy Level :=
  (setup0 (fresh (Some (everyBytes 20000 7)) Overwrite 8192 ∅)).2.

Definition handleAll0 (fuel : nat) (rs : list (LogRecord string)) :
    M (@Sys string ByteRotationStrategy Level) unit :=
  handleAll (RS := byteSink) id render Logger.levels fuel rs.

(** Three records for a sink whose minimum level is 10: the second is below
    it. *)
Definition mixed : list (LogRecord string) :=
  [entry 20 "one"; entry 5 "noise"; entry 40 "three"].

(** [roomy] with two records waiting. *)
Definition waiting : @Sys string ByteRotationStrategy Level :=
  (handleAll0 0 [entry 20 "one"; entry 30 "two"] roomy).2.

(** The buffer [setup0] creates on a sink with the default buffer size. *)
Definition buffer0 : BufWriterSync :=
  {| writer := {| rid := 3; path := "log.txt" |}; bufSize := Z.to_nat 8192; pending := [] |}.

Lemma batch_schedules_one_drain_witness :
  ∃ σ', handleAll0 0 mixed roomy = (Ok tt, σ') ∧
        this σ' = setQueue (deferredLogQueue (this roomy)
                            ++ accepted id (this roomy) mixed) (this roomy) ∧
        microtasks σ' = microtasks roomy ++
          (if decide (deferredLogQueue (this roomy) = []
                      ∧ accepted id (this roomy) mixed ≠ [])
           then [Drain] else []) ∧
        fs σ' = fs roomy ∧ calls σ' = calls roomy.
Proof.
  apply (batch_schedules_one_drain (RS := byteSink) id render Logger.levels 0
           mixed roomy).
  repeat constructor.
Defined.

Example batch_of_mixed_levels :
  accepted id (this roomy) mixed = [entry 20 "one"; entry 40 "three"] ∧
  deferredLogQueue (this (handleAll0 0 mixed roomy).2)
    = [entry 20 "one"; entry 40 "three"] ∧
  microtasks (handleAll0 0 mixed roomy).2 = [Drain].
Proof. repeat split; by vm_compute. Qed.

Lemma waiting_calm :
  calm (RS := byteSink) render (this waiting) (deferredLogQueue (this waiting)).
Proof. unfold calm. repeat constructor. Qed.

Lemma drain_pass_in_queue_order_witness :
  ∃ σ' b', processDeferredQueue (RS := byteSink) render 4 waiting = (Ok tt, σ') ∧
           this σ' = setQueue [] (setBuffer (Some b') (this waiting)) ∧
           writer b' = writer buffer0 ∧
           written b' (fs σ') = written buffer0 (fs waiting) ++
             concat (map line (map (render (super (this waiting)))
                                   (deferredLogQueue (this waiting)))) ∧
           logged σ' = logged waiting ++
             map (render (super (this waiting))) (deferredLogQueue (this waiting)) ∧
           microtasks σ' = microtasks waiting.
Proof.
  apply (drain_pass_in_queue_order (RS := byteSink) render 4 waiting buffer0).
  - apply waiting_calm.
  - reflexivity.
  - vm_compute. lia.
Defined.

Lemma high_severity_record_reaches_file_witness :
  let r := entry 50 "down" in
  let msgs := map (render (super (this waiting)))
                  (deferredLogQueue (this waiting) ++ [r]) in
  ∃ σ' b', handle0 5 r waiting = (Ok tt, σ') ∧
           deferredLogQueue (this σ') = [] ∧
           buffer (this σ') = Some b' ∧ pending b' = [] ∧
           content (path (writer buffer0)) (fs σ') =
             written buffer0 (fs waiting) ++ concat (map line msgs) ∧
           logged σ' = logged waiting ++ msgs ∧
           microtasks σ' = microtasks waiting.
Proof.
  apply (high_severity_record_reaches_file (RS := byteSink) id render Logger.levels
           5 (entry 50 "down") waiting buffer0).
  - unfold calm. repeat constructor.
  - reflexivity.
  - reflexivity.
  - reflexivity.
  - vm_compute. lia.
Defined.

Example high_severity_after_waiting :
  content "log.txt" (fs (handle0 5 (entry 50 "down") waiting).2) =
    bytes ("one" +:+ newline) ++ bytes ("two" +:+ newline)
      ++ bytes ("down" +:+ newline) ∧
  microtasks (handle0 5 (entry 50 "down") waiting).2 = [Drain].
Proof. split; by vm_compute. Qed.

Lemma flush_settles_witness :
  (∃ σ' b', flush (RS := byteSink) render 5 waiting = (Ok tt, σ') ∧
            deferredLogQueue (this σ') = [] ∧
            buffer (this σ') = Some b' ∧ pending b' = [] ∧
            content (path (writer buffer0)) (fs σ') = written buffer0 (fs waiting) ++
              concat (map line (map (render (super (this waiting)))
                                    (deferredLogQueue (this waiting)))) ∧
            flush (RS := byteSink) render 5 σ' = (Ok tt, σ')) ∧
  (∀ σ0 : @Sys string ByteRotationStrategy Level,
     buffer (this σ0) = None → deferredLogQueue (this σ0) = [] →
     flush (RS := byteSink) render 5 σ0 = (Ok tt, σ0)).
Proof.
  apply (flush_settles (RS := byteSink) render 5 waiting buffer0).
  - apply waiting_calm.
  - reflexivity.
  - vm_compute. lia.
Defined.

Lemma destroy_flushes_then_closes_witness :
  let f := {| rid := 3; path := "log.txt" |} in
  (∃ σ' b', destroy (RS := byteSink) id render 5 waiting = (Ok tt, σ') ∧
            super (this σ') = id (super (this waiting)) ∧
            deferredLogQueue (this σ') = [] ∧
            buffer (this σ') = Some b' ∧ pending b' = [] ∧
            content (path (writer buffer0)) (fs σ') = written buffer0 (fs waiting) ++
              concat (map line (map (render (id (super (this waiting))))
                                    (deferredLogQueue (this waiting)))) ∧
            last (calls σ') = Some (CClose (rid f))) ∧
  (∀ σ0 : @Sys string ByteRotationStrategy Level,
     buffer (this σ0) = None → logFile (this σ0) = None →
     deferredLogQueue (this σ0) = [] →
     ∃ msg σ', destroy (RS := byteSink) id render 5 σ0 = (Throw (TypeError msg), σ') ∧
               super (this σ') = id (super (this σ0)) ∧
               fs σ' = fs σ0 ∧ calls σ' = calls σ0).
Proof.
  apply (destroy_flushes_then_closes (RS := byteSink) id render 5 waiting buffer0
           {| rid := 3; path := "log.txt" |}).
  - unfold calm. repeat constructor.
  - reflexivity.
  - reflexivity.
  - vm_compute. lia.
Defined.

(** A log file left by an earlier run. *)
Definition leftover : FS := list_to_map [("log.txt", bytes "12345678")].

Lemma setup_open_modes_witness :
  let σ := fresh None Append 8192 leftover in
  let name := filename (this σ) in
  let mode := logFileInitStrategy (this σ) in
  let f := {| rid := nextRid σ; path := name |} in
  let opened (c : list Byte.byte) :=
    ∃ σ', setup0 σ = (Ok tt, σ') ∧
          logFile (this σ') = Some f ∧
          buffer (this σ') = Some (newBufWriterSync f (maxBufferSize (this σ))) ∧
          super (this σ') = id (super (this σ)) ∧
          fs σ' = <[name := c]> (fs σ) in
  (mode = Append → opened (content name (fs σ))) ∧
  (mode = Overwrite → opened []) ∧
  (mode = MustNotExist → fs σ !! name = None → opened []) ∧
  (mode = MustNotExist → is_Some (fs σ !! name) →
   ∃ σ', setup0 σ = (Throw (AlreadyExists name), σ') ∧
         fs σ' = fs σ ∧
         logFile (this σ') = logFile (this σ) ∧
         buffer (this σ') = buffer (this σ)).
Proof.
  apply (setup_open_modes (RS := byteSink) id (fresh None Append 8192 leftover)).
  reflexivity.
Defined.

(** The three init modes on a log file that exists, and [mustNotExist] on
    one that does not. *)
Example setup_modes_run :
  content "log.txt" (fs (setup0 (fresh None Append 8192 leftover)).2)
    = bytes "12345678" ∧
  fs (setup0 (fresh None Overwrite 8192 leftover)).2 !! "log.txt" = Some [] ∧
  (setup0 (fresh None MustNotExist 8192 leftover)).1
    = Throw (AlreadyExists "log.txt") ∧
  fs (setup0 (fresh None MustNotExist 8192 leftover)).2 = leftover ∧
  fs (setup0 (fresh None MustNotExist 8192 ∅)).2 !! "log.txt" = Some [].
Proof. repeat split; by vm_compute. Qed.

Lemma deferred_batch_written_after_turn_witness :
  let msgs := map (render (super (this roomy))) (accepted id (this roomy) mixed) in
  ∃ σ' b', (handleAll0 6 mixed ;;; runMicrotasks0 6) roomy = (Ok tt, σ') ∧
           deferredLogQueue (this σ') = [] ∧ microtasks σ' = [] ∧
           buffer (this σ') = Some b' ∧ writer b' = writer buffer0 ∧
           written b' (fs σ') = written buffer0 (fs roomy) ++ concat (map line msgs) ∧
           logged σ' = logged roomy ++ msgs.
Proof.
  apply (deferred_batch_written_after_turn (RS := byteSink) id render Logger.levels
           6 mixed roomy buffer0).
  - repeat constructor.
  - reflexivity.
  - reflexivity.
  - reflexivity.
  - unfold calm. vm_compute. repeat constructor.
  - vm_compute. lia.
Defined.

Lemma rotate_shifts_backups_witness :
  let st := everyBytes 10 2 in
  let m := bytes "a line" in
  ∃ fs', rotate (RotationStrategy := byteSink) "log.txt" m (st, fiveBackups) =
           (Ok tt, (setCurrentFileSize (Z.of_nat (length m)) st, fs')) ∧
         fs' !! "log.txt" = None ∧
         (∀ i, (1 ≤ i < 2)%nat →
               fs' !! backupName "log.txt" i = fiveBackups !! slot "log.txt" (i - 1)) ∧
         fs' !! backupName "log.txt" 2 =
           match fiveBackups !! slot "log.txt" (2 - 1) with
           | Some c => Some c
           | None => fiveBackups !! backupName "log.txt" 2
           end ∧
         (∀ p, p ≠ "log.txt" → (∀ i, (1 ≤ i ≤ 2)%nat → p ≠ backupName "log.txt" i) →
               fs' !! p = fiveBackups !! p).
Proof.
  apply (rotate_shifts_backups noAgeSweep noScan (everyBytes 10 2) fiveBackups
           "log.txt" (bytes "a line") 2); [reflexivity|reflexivity|lia].
Defined.

(** "Keep 2 files" on a log file with five backups: the log becomes backup
    1, backup 1 becomes backup 2, the old backup 2 is lost, and the backups
    3 to 5 stay. *)
Example rotate_keep_two_run :
  let fs' := (rotate (RotationStrategy := byteSink) "log.txt" (bytes "a line")
                (everyBytes 10 2, fiveBackups)).2.2 in
  fs' !! "log.txt" = None ∧
  fs' !! "log.txt.1" = Some (bytes "live") ∧
  fs' !! "log.txt.2" = Some (bytes "one") ∧
  backups "log.txt" 6 fs' = [1; 2; 3; 4; 5]%nat.
Proof. repeat split; by vm_compute. Qed.

(** The rotating sink after one short line was logged: the line waits in
    the buffer. *)
Definition oneWritten : @Sys string ByteRotationStrategy Level :=
  (log0 1 "ok" rotating).2.

Lemma log_rotates_into_fresh_file_witness :
  let msg := "disk failure imminent" in
  let b := {| writer := {| rid := 3; path := "log.txt" |}; bufSize := Z.to_nat 8192;
              pending := bytes ("ok" +:+ newline) |} in
  let f' := {| rid := nextRid oneWritten; path := "log.txt" |} in
  ∃ σ' b', log0 2 msg oneWritten = (Ok tt, σ') ∧
           fs σ' !! backupName "log.txt" 1 = Some ([] ++ pending b) ∧
           logFile (this σ') = Some f' ∧
           buffer (this σ') = Some b' ∧ writer b' = f' ∧
           written b' (fs σ') = line msg ∧
           rotationStrategy (this σ') =
             Some (setCurrentFileSize (Z.of_nat (length (line msg))) (everyBytes 10 7)) ∧
           calls σ' = calls oneWritten ++
             [CLog msg; CShouldRotate (line msg); CClose 3;
              CRotate (line msg); COpen "log.txt" rotateOptions].
Proof.
  apply (log_rotates_into_fresh_file noAgeSweep noScan render 2
           "disk failure imminent" oneWritten (everyBytes 10 7)
           {| writer := {| rid := 3; path := "log.txt" |}; bufSize := Z.to_nat 8192;
              pending := bytes ("ok" +:+ newline) |}
           {| rid := 3; path := "log.txt" |} [] 7); try reflexivity; lia.
Defined.

(** The run of the previous lemma: the short line is in backup 1, the long
    one waits in the buffer of the new file. *)
Example log_rotation_run :
  let σ' := (log0 2 "disk failure imminent" oneWritten).2 in
  fs σ' !! "log.txt.1" = Some (bytes ("ok" +:+ newline)) ∧
  fs σ' !! "log.txt" = Some [] ∧
  (pending <$> buffer (this σ')) = Some (bytes ("disk failure imminent" +:+ newline)) ∧
  logFile (this σ') = Some {| rid := 4; path := "log.txt" |}.
Proof. repeat split; by vm_compute. Qed.

(** Three lines of 6 bytes queued on a sink that rotates every 10 bytes. *)
Definition threeShort : @Sys string ByteRotationStrategy Level :=
  (handleAll0 0 [entry 20 "12345"; entry 20 "12345"; entry 20 "12345"] rotating).2.

Lemma byte_count_not_advanced_by_writes_witness :
  let msgs := map (render (super (this threeShort)))
                  (deferredLogQueue (this threeShort)) in
  ∃ σ' b', processDeferredQueue (RS := byteSink) render 5 threeShort = (Ok tt, σ') ∧
           rotationStrategy (this σ') = Some (everyBytes 10 7) ∧
           logFile (this σ') = logFile (this threeShort) ∧
           buffer (this σ') = Some b' ∧
           written b' (fs σ') = written buffer0 (fs threeShort)
                                ++ concat (map line msgs) ∧
           logged σ' = logged threeShort ++ msgs ∧
           deferredLogQueue (this σ') = [].
Proof.
  apply (byte_count_not_advanced_by_writes noAgeSweep noScan render 5 threeShort
           (everyBytes 10 7) buffer0).
  - reflexivity.
  - reflexivity.
  - repeat (constructor; [by vm_compute|]). constructor.
  - vm_compute. lia.
Defined.

(** The drain of the previous lemma: 18 bytes go to a file limited to 10,
    and no rotation is made. *)
Example three_short_lines_run :
  let σ' := (processDeferredQueue (RS := byteSink) render 5 threeShort).2 in
  (Z.of_nat ∘ length ∘ pending <$> buffer (this σ')) = Some 18 ∧
  maxBytes (everyBytes 10 7) = 10 ∧
  rotationCalls σ' = [CShouldRotate (line "12345"); CShouldRotate (line "12345");
                      CShouldRotate (line "12345")].
Proof. repeat split; by vm_compute. Qed.

Lemma append_setup_counts_existing_bytes_witness :
  let σ := fresh (Some (everyBytes 10 7)) Append 8192 leftover in
  let name := filename (this σ) in
  let size := Z.of_nat (length (content name (fs σ))) in
  ∃ σ', setup0 σ = (Ok tt, σ') ∧
        rotationStrategy (this σ') = Some (setCurrentFileSize size (everyBytes 10 7)) ∧
        fs σ' = <[name := content name (fs σ)]> (fs σ) ∧
        calls σ' = calls σ ++ [CInitLogs; COpen name (setupOptions Append)] ∧
        (∀ m, 0 < maxBufferSize (this σ) →
              rotationDue (RS := byteSink) (this σ') m =
                (size + Z.of_nat (length m) >? maxBytes (everyBytes 10 7))).
Proof.
  apply (append_setup_counts_existing_bytes noAgeSweep noScan id
           (fresh (Some (everyBytes 10 7)) Append 8192 leftover) (everyBytes 10 7));
    reflexivity.
Defined.

(** After [setup] in append mode on a file of 8 bytes, with a limit of 10:
    a line of 2 bytes fits, a line of 3 bytes needs a rotation. *)
Example append_counts_run :
  let σ' := (setup0 (fresh (Some (everyBytes 10 7)) Append 8192 leftover)).2 in
  rotationDue (RS := byteSink) (this σ') (line "a") = false ∧
  rotationDue (RS := byteSink) (this σ') (line "ab") = true.
Proof. split; by vm_compute. Qed.

Lemma mustNotExist_clean_start_witness :
  let σ := fresh (Some (everyBytes 20000 2)) MustNotExist 8192
             (list_to_map [("log.txt.3", bytes "old")]) in
  let name := filename (this σ) in
  let f := {| rid := nextRid σ; path := name |} in
  initLogs (RotationStrategy := byteSink) name MustNotExist (everyBytes 20000 2, fs σ)
    = (Ok tt, (everyBytes 20000 2, fs σ)) ∧
  (fs σ !! name = None →
   ∃ σ', setup0 σ = (Ok tt, σ') ∧
         fs σ' = <[name := []]> (fs σ) ∧
         rotationStrategy (this σ') = Some (everyBytes 20000 2) ∧
         logFile (this σ') = Some f ∧
         buffer (this σ') = Some (newBufWriterSync f (maxBufferSize (this σ)))) ∧
  (is_Some (fs σ !! name) →
   ∃ σ', setup0 σ = (Throw (AlreadyExists name), σ') ∧
         fs σ' = fs σ ∧
         calls σ' = calls σ ++ [CInitLogs; COpen name (setupOptions MustNotExist)] ∧
         logFile (this σ') = logFile (this σ) ∧
         buffer (this σ') = buffer (this σ)).
Proof.
  apply (mustNotExist_clean_start noAgeSweep noScan id
           (fresh (Some (everyBytes 20000 2)) MustNotExist 8192
              (list_to_map [("log.txt.3", bytes "old")]))
           (everyBytes 20000 2) 2); try reflexivity.
  intros j Hj. assert (Hj' : j = 1%nat ∨ j = 2%nat) by lia.
  destruct Hj' as [->| ->]; by vm_compute.
Defined.


(** [new FileStream("log.txt").withLogFileRotation(every(7).days())] after
    [setup], with two records waiting. *)
Definition daily : @Sys string DateTimeRotationStrategy Level :=
  let t := setRotationStrategy
             (Some {| interval := 7; period := PDays; useUTCTime := false;
                      dtRetentionPolicy := ofFiles 7 |})
             (newFileStream 10 "log.txt") in
  ((setup (RS := DateTimeRotation) id ;;;
    handleAll (RS := DateTimeRotation) id render Logger.levels 0
      [entry 20 "one"; entry 30 "two"])
     {| this := t; fs := ∅; nextRid := 3; microtasks := []; calls := [] |}).2.

Lemma dateTime_strategy_never_rotates_witness :
  let msgs := map (render (super (this daily))) (deferredLogQueue (this daily)) in
  ∃ σ' b', processDeferredQueue (RS := DateTimeRotation) render 4 daily = (Ok tt, σ') ∧
           rotationStrategy (this σ') = rotationStrategy (this daily) ∧
           logFile (this σ') = logFile (this daily) ∧
           buffer (this σ') = Some b' ∧ writer b' = writer buffer0 ∧
           written b' (fs σ') = written buffer0 (fs daily) ++ concat (map line msgs) ∧
           logged σ' = logged daily ++ msgs ∧
           deferredLogQueue (this σ') = [].
Proof.
  apply (dateTime_strategy_never_rotates render 4 daily buffer0).
  - reflexivity.
  - vm_compute. lia.
Defined.

End FileStream.
